(** * manim/mobject/geometry.py : tipable curves, arcs, lines and arrows

    A shallow embedding of the tip protocol ([TipableVMobject]), of [Arc] /
    [ArcBetweenPoints], and of [Line] / [Arrow].

    Numbers.  The Python code computes on numpy float64 values.  Every
    definition that needs only the field operations, the square root and the
    comparisons is written once over a [Scalar] interface with two instances:
    IEEE binary64 ([PrimFloat], the arithmetic the code runs on, used to
    execute the code on concrete inputs) and the real numbers (ideal
    arithmetic, used for the algebraic laws).  The trigonometric part exists
    over the reals only.

    Points.  All paths are planar: the third numpy coordinate is 0 throughout
    and is left out, so a point is a pair of scalars. *)

From Stdlib Require Import String.
From Stdlib Require Import Floats Reals Lra Lia List Bool Arith ZArith.
Import ListNotations.

Set Implicit Arguments.

(* ================================================================== *)
(** ** Scalars *)

Class Scalar (F : Type) := {
  s0 : F;
  s1 : F;
  s2 : F;
  s3 : F;
  sadd : F -> F -> F;
  ssub : F -> F -> F;
  smul : F -> F -> F;
  sdiv : F -> F -> F;          (* numpy division: no exception on a zero divisor *)
  sopp : F -> F;
  ssqrt : F -> F;
  seqb : F -> F -> bool;       (* == *)
  sltb : F -> F -> bool;       (* <  *)
  sleb : F -> F -> bool        (* <= *)
}.

Declare Scope scalar_scope.
Delimit Scope scalar_scope with sc.
Infix "+" := sadd : scalar_scope.
Infix "-" := ssub : scalar_scope.
Infix "*" := smul : scalar_scope.
Infix "/" := sdiv : scalar_scope.
Notation "- x" := (sopp x) : scalar_scope.
Infix "==?" := seqb (at level 70) : scalar_scope.
Infix "<?" := sltb : scalar_scope.
Infix "<=?" := sleb : scalar_scope.

#[export] Instance Float64 : Scalar float := {|
  s0 := 0%float; s1 := 1%float; s2 := 2%float; s3 := 3%float;
  sadd := PrimFloat.add; ssub := PrimFloat.sub;
  smul := PrimFloat.mul; sdiv := PrimFloat.div; sopp := PrimFloat.opp;
  ssqrt := PrimFloat.sqrt;
  seqb := PrimFloat.eqb; sltb := PrimFloat.ltb; sleb := PrimFloat.leb
|}.

Definition Reqb (x y : R) : bool := if Req_dec_T x y then true else false.
Definition Rltb (x y : R) : bool := if Rlt_dec x y then true else false.
Definition Rleb (x y : R) : bool := if Rle_dec x y then true else false.

#[export] Instance Ideal : Scalar R := {|
  s0 := 0%R; s1 := 1%R; s2 := 2%R; s3 := 3%R;
  sadd := Rplus; ssub := Rminus; smul := Rmult; sdiv := Rdiv; sopp := Ropp;
  ssqrt := sqrt;
  seqb := Reqb; sltb := Rltb; sleb := Rleb
|}.

(* ================================================================== *)
(** ** Exceptions *)

Inductive exn : Type :=
| ValueError (msg : string)
| ZeroDivisionError
| Exception (msg : string)
| IndexError
| RecursionError.

Inductive result (A : Type) : Type :=
| Ok (a : A)
| Raise (e : exn).
Arguments Ok {A} a.
Arguments Raise {A} e.

Definition bind {A B} (m : result A) (k : A -> result B) : result B :=
  match m with
  | Ok a => k a
  | Raise e => Raise e
  end.

Notation "x <- m ;; k" := (bind m (fun x => k))
  (at level 61, m at next level, right associativity).

Definition is_ok {A} (m : result A) : bool :=
  match m with Ok _ => true | Raise _ => false end.

(* ================================================================== *)
(** ** Planar vectors and the numpy helpers *)

Section Vectors.
Context {F : Type} {SC : Scalar F}.
Local Open Scope scalar_scope.

Record vec : Type := V { vx : F; vy : F }.

(** Modelled from the spec: the constants ORIGIN, RIGHT, LEFT and UP of
    constants.py, in the plane. *)
Definition ORIGIN : vec := V s0 s0.
Definition RIGHT : vec := V s1 s0.
Definition LEFT : vec := V (- s1) s0.
Definition UP : vec := V s0 s1.

Definition vadd (a b : vec) : vec := V (vx a + vx b) (vy a + vy b).
Definition vsub (a b : vec) : vec := V (vx a - vx b) (vy a - vy b).
Definition vscale (k : F) (a : vec) : vec := V (k * vx a) (k * vy a).

(** [np.all(a == b)] on two points. *)
Definition veqb (a b : vec) : bool := (vx a ==? vx b) && (vy a ==? vy b).

(** Modelled from the spec: utils.space_ops.get_norm, [np.sqrt(sum(x**2 for x
    in vect))]. *)
Definition get_norm (v : vec) : F := ssqrt (vx v * vx v + vy v * vy v).

(** Modelled from the spec: utils.bezier.interpolate, [(1 - alpha) * start +
    alpha * end]. *)
Definition interpolate (a b : vec) (alpha : F) : vec :=
  vadd (vscale (s1 - alpha) a) (vscale alpha b).

(** Python's [min(a, b)]: the second argument only when it is smaller. *)
Definition py_min (a b : F) : F := if b <? a then b else a.
Definition py_max (a b : F) : F := if a <? b then b else a.

End Vectors.
Arguments vec F : clear implicits.

(* ================================================================== *)
(** ** Bezier helpers (utils/bezier.py, utils/simple_functions.py)

    Modelled from the spec: the BezierPath collaborator.  The repository's
    utils and the VMobject / Mobject base classes are imported by
    geometry.py but are not part of the sources at hand; the spec's
    BezierPath data model (groups of four control points, partial
    extraction, arc-length measure) and its affine transforms (shift, scale,
    rotate about a point) are written out here. *)

Section Bezier.
Context {F : Type} {SC : Scalar F}.
Local Open Scope scalar_scope.
Local Abbreviation vec := (vec F).

Fixpoint sofnat (n : nat) : F :=
  match n with
  | O => s0
  | S O => s1
  | S k => sofnat k + s1
  end.

Fixpoint spow (x : F) (n : nat) : F :=
  match n with
  | O => s1
  | S k => x * spow x k
  end.

(** Modelled from the spec: utils.simple_functions.choose, the binomial
    coefficient. *)
Fixpoint choose (n k : nat) : nat :=
  match n, k with
  | _, O => 1
  | O, S _ => 0
  | S n', S k' => (choose n' k' + choose n' k)%nat
  end.

(** Modelled from the spec: the terms of utils.bezier.bezier(points)(t), [((1
    - t) ** (n - k)) * (t ** k) * choose(n, k) * point]. *)
Fixpoint bernstein_terms (n k : nat) (t : F) (pts : list vec) : list vec :=
  match pts with
  | [] => []
  | p :: rest =>
      vscale (spow (s1 - t) (n - k) * spow t k * sofnat (choose n k)) p
        :: bernstein_terms n (S k) t rest
  end.

(** Modelled from the spec: the sum of the terms in utils.bezier.bezier. *)
Definition vsum (l : list vec) : vec := fold_left vadd l ORIGIN.

(** Modelled from the spec: utils.bezier.bezier(points)(t), the Bernstein sum
    over the control points. *)
Definition bezier (pts : list vec) (t : F) : vec :=
  vsum (bernstein_terms (length pts - 1) 0 t pts).

(** Modelled from the spec: the slices [points[i:]] of
    utils.bezier.partial_bezier_points. *)
Fixpoint tails {A} (l : list A) : list (list A) :=
  match l with
  | [] => []
  | _ :: rest => l :: tails rest
  end.

(** Modelled from the spec: the slices [a_to_1[:i + 1]] of
    utils.bezier.partial_bezier_points. *)
Definition prefixes {A} (l : list A) : list (list A) :=
  map (fun i => firstn (S i) l) (seq 0 (length l)).

(** Modelled from the spec: utils.bezier.partial_bezier_points(points, a, b),
    the control points of the part of the curve between the proportions a and
    b. *)
Definition partial_bezier_points (pts : list vec) (a b : F) : list vec :=
  if a ==? s1 then map (fun _ => last pts ORIGIN) pts
  else
    let a_to_1 := map (fun tl => bezier tl a) (tails pts) in
    let end_prop := (b - a) / (s1 - a) in
    map (fun pre => bezier pre end_prop) (prefixes a_to_1).

(** Modelled from the spec: VMobject.get_nth_curve_points, the cubic quadruple
    [points[4n : 4n + 4]]. *)
Definition get_nth_curve_points (pts : list vec) (n : nat) : list vec :=
  firstn 4 (skipn (4 * n) pts).

(** Modelled from the spec: VMobject.get_num_curves, [len(points) // 4]. *)
Definition get_num_curves (pts : list vec) : nat := length pts / 4.

(** Modelled from the spec: the loop of VMobject.get_cubic_bezier_tuples. *)
Fixpoint cubic_tuples_aux (fuel : nat) (pts : list vec) : list (list vec) :=
  match fuel with
  | O => []
  | S k => firstn 4 pts :: cubic_tuples_aux k (skipn 4 pts)
  end.

(** Modelled from the spec: VMobject.get_cubic_bezier_tuples, the path cut
    into its cubic quadruples. *)
Definition get_cubic_bezier_tuples (pts : list vec) : list (list vec) :=
  cubic_tuples_aux (get_num_curves pts) pts.

(** Modelled from the spec: VMobject.set_points_as_corners(corners), one
    straight cubic per consecutive pair, handles at the thirds
    ([np.linspace(0, 1, 4)]). *)
Fixpoint set_points_as_corners (corners : list vec) : list vec :=
  match corners with
  | p :: ((q :: _) as rest) =>
      interpolate p q s0 :: interpolate p q (s1 / s3)
        :: interpolate p q (s2 / s3) :: interpolate p q s1
        :: set_points_as_corners rest
  | _ => []
  end.

(** Modelled from the spec: the loop of VMobject.get_anchors. *)
Fixpoint get_anchors_aux (fuel : nat) (pts : list vec) : list vec :=
  match fuel with
  | O => []
  | S k =>
      match pts with
      | a1 :: _ :: _ :: a2 :: rest => a1 :: a2 :: get_anchors_aux k rest
      | _ => []
      end
  end.

(** Modelled from the spec: VMobject.get_anchors, [points[0::4]] and
    [points[3::4]] interleaved. *)
Definition get_anchors (pts : list vec) : list vec :=
  match pts with
  | [p] => [p]
  | _ => get_anchors_aux (length pts) pts
  end.

(** [np.min] / [np.max] over a non-empty column. *)
Definition np_min (l : list F) (d : F) : F :=
  match l with
  | [] => d
  | x :: rest => fold_left py_min rest x
  end.

Definition np_max (l : list F) (d : F) : F :=
  match l with
  | [] => d
  | x :: rest => fold_left py_max rest x
  end.

(** Modelled from the spec: Mobject.get_critical_point(ORIGIN), the centre of
    the bounding box of the boundary-defining points, [(min + max) / 2] along
    each axis; the origin when there is no point. *)
Definition bbox_center (boundary : list vec) : vec :=
  match boundary with
  | [] => ORIGIN
  | _ =>
      let xs := map (@vx F) boundary in
      let ys := map (@vy F) boundary in
      V ((np_min xs s0 + np_max xs s0) / s2) ((np_min ys s0 + np_max ys s0) / s2)
  end.

(** Modelled from the spec: the point map of Mobject.scale, [points -= about;
    points = factor * points; points += about]. *)
Definition scale_points (factor : F) (about : vec) (pts : list vec) : list vec :=
  map (fun p => vadd (vscale factor (vsub p about)) about) pts.

(** Modelled from the spec: the point map of Mobject.shift. *)
Definition shift_points (v : vec) (pts : list vec) : list vec :=
  map (fun p => vadd p v) pts.

(** [np.linspace(a, b, n)]: [a + i * step] with [step = (b - a) / (n - 1)],
    the last sample set to [b]. *)
Definition linspace (a b : F) (n : nat) : list F :=
  match n with
  | O => []
  | S O => [a]
  | S m =>
      let step := (b - a) / sofnat m in
      map (fun i => sofnat i * step + a) (seq 0 m) ++ [b]
  end.

(** [int(x)] for [0 <= x < n]: the largest [k < n] with [k <= x]. *)
Fixpoint int_below (n : nat) (x : F) : nat :=
  match n with
  | O => O
  | S k => if sofnat k <=? x then k else int_below k x
  end.

(** Modelled from the spec: utils.bezier.integer_interpolate(0, n, alpha),
    curve index and residue. *)
Definition integer_interpolate (n : nat) (alpha : F) : nat * F :=
  if s1 <=? alpha then ((n - 1)%nat, s1)
  else if alpha <=? s0 then (O, s0)
  else
    let x := sofnat n * alpha in
    let value := int_below n x in
    (value, x - sofnat value).

(** Modelled from the spec: VMobject.point_from_proportion(alpha). *)
Definition point_from_proportion (pts : list vec) (alpha : F) : vec :=
  let '(n, residue) := integer_interpolate (get_num_curves pts) alpha in
  bezier (get_nth_curve_points pts n) residue.

(** Modelled from the spec: the differences of consecutive samples in
    VMobject.get_arc_length. *)
Fixpoint diffs (l : list vec) : list vec :=
  match l with
  | p :: ((q :: _) as rest) => vsub q p :: diffs rest
  | _ => []
  end.

(** Modelled from the spec: VMobject.get_arc_length(), the length of the
    polyline through [4 * num_curves + 1] samples of the path. *)
Definition get_arc_length (pts : list vec) : F :=
  let n_sample_points := (4 * get_num_curves pts + 1)%nat in
  let samples := map (point_from_proportion pts) (linspace s0 s1 n_sample_points) in
  fold_left sadd (map get_norm (diffs samples)) s0.

(** Modelled from the spec: VMobject.pointwise_become_partial(self, a, b), on
    the point buffer. *)
Definition pointwise_become_partial (pts : list vec) (a b : F) : list vec :=
  if (a <=? s0) && (s1 <=? b) then pts
  else
    let bezier_quads := get_cubic_bezier_tuples pts in
    let num_cubics := List.length bezier_quads in
    let '(lower_index, lower_residue) := integer_interpolate num_cubics a in
    let '(upper_index, upper_residue) := integer_interpolate num_cubics b in
    if Nat.eqb num_cubics 0 then []
    else if Nat.eqb lower_index upper_index then
      partial_bezier_points (nth lower_index bezier_quads []) lower_residue upper_residue
    else
      partial_bezier_points (nth lower_index bezier_quads []) lower_residue s1
        ++ concat (firstn (upper_index - (lower_index + 1))
                     (skipn (lower_index + 1) bezier_quads))
        ++ partial_bezier_points (nth upper_index bezier_quads []) s0 upper_residue.

End Bezier.

(* ================================================================== *)
(** ** Trigonometry (numpy / math) *)

Class Trig (F : Type) := {
  sPI : F;
  scos : F -> F;
  ssin : F -> F;
  sacos : F -> F;                (* math.acos *)
  sarg : F -> F -> F             (* np.angle(complex(x, y)) *)
}.

(** The principal argument of [x + iy], in (-PI, PI]. *)
Definition Rarg (x y : R) : R :=
  let c := (x / sqrt (x * x + y * y))%R in
  if Rle_dec 0 y then acos c else (- acos c)%R.

#[export] Instance IdealTrig : Trig R := {|
  sPI := PI; scos := cos; ssin := sin; sacos := acos; sarg := Rarg
|}.

(* ================================================================== *)
(** ** Objects

    A curve owns a store of the tip objects it has created, addressed by an
    identifier, so that the attribute [tip], the attribute [start_tip] and the
    list of children can refer to one and the same object. *)

Inductive klass : Type := KArc | KArcBetweenPoints | KLine | KArrow.

Inductive radius_t (F : Type) : Type :=
| Finite (r : F)
| Infinite.                       (* math.inf *)
Arguments Finite {F} r.
Arguments Infinite {F}.

Section Objects.
Context {F : Type} {SC : Scalar F} {TR : Trig F}.
Local Open Scope scalar_scope.
Local Abbreviation vec := (vec F).

Record mob : Type := Mob {
  cls : klass;
  points : list vec;
  (* children and tips *)
  heap : list (nat * list vec);        (* tip objects: id and point buffer *)
  submobjects : list nat;
  tip : option nat;                    (* the attribute [tip], when set *)
  start_tip : option nat;              (* the attribute [start_tip], when set *)
  (* TipableVMobject *)
  tip_length : F;
  (* Arc *)
  radius : option (radius_t F);
  num_components : nat;
  arc_center : vec;
  start_angle : F;
  angle : F;
  failed_to_get_center : bool;
  (* Line *)
  buff : F;
  path_arc : option F;
  start : vec;
  end_ : vec;
  (* Arrow *)
  stroke_width : F;
  initial_stroke_width : F;
  max_tip_length_to_length_ratio : F;
  max_stroke_width_to_length_ratio : F
}.

Definition with_points (m : mob) (p : list vec) : mob :=
  Mob (cls m) p (heap m) (submobjects m) (tip m) (start_tip m) (tip_length m)
    (radius m) (num_components m) (arc_center m) (start_angle m) (angle m)
    (failed_to_get_center m) (buff m) (path_arc m) (start m) (end_ m)
    (stroke_width m) (initial_stroke_width m)
    (max_tip_length_to_length_ratio m) (max_stroke_width_to_length_ratio m).

Definition with_heap (m : mob) (h : list (nat * list vec)) : mob :=
  Mob (cls m) (points m) h (submobjects m) (tip m) (start_tip m) (tip_length m)
    (radius m) (num_components m) (arc_center m) (start_angle m) (angle m)
    (failed_to_get_center m) (buff m) (path_arc m) (start m) (end_ m)
    (stroke_width m) (initial_stroke_width m)
    (max_tip_length_to_length_ratio m) (max_stroke_width_to_length_ratio m).

Definition with_submobjects (m : mob) (s : list nat) : mob :=
  Mob (cls m) (points m) (heap m) s (tip m) (start_tip m) (tip_length m)
    (radius m) (num_components m) (arc_center m) (start_angle m) (angle m)
    (failed_to_get_center m) (buff m) (path_arc m) (start m) (end_ m)
    (stroke_width m) (initial_stroke_width m)
    (max_tip_length_to_length_ratio m) (max_stroke_width_to_length_ratio m).

Definition with_tip (m : mob) (t : option nat) : mob :=
  Mob (cls m) (points m) (heap m) (submobjects m) t (start_tip m) (tip_length m)
    (radius m) (num_components m) (arc_center m) (start_angle m) (angle m)
    (failed_to_get_center m) (buff m) (path_arc m) (start m) (end_ m)
    (stroke_width m) (initial_stroke_width m)
    (max_tip_length_to_length_ratio m) (max_stroke_width_to_length_ratio m).

Definition with_start_tip (m : mob) (t : option nat) : mob :=
  Mob (cls m) (points m) (heap m) (submobjects m) (tip m) t (tip_length m)
    (radius m) (num_components m) (arc_center m) (start_angle m) (angle m)
    (failed_to_get_center m) (buff m) (path_arc m) (start m) (end_ m)
    (stroke_width m) (initial_stroke_width m)
    (max_tip_length_to_length_ratio m) (max_stroke_width_to_length_ratio m).

Definition with_radius (m : mob) (r : option (radius_t F)) : mob :=
  Mob (cls m) (points m) (heap m) (submobjects m) (tip m) (start_tip m)
    (tip_length m) r (num_components m) (arc_center m) (start_angle m) (angle m)
    (failed_to_get_center m) (buff m) (path_arc m) (start m) (end_ m)
    (stroke_width m) (initial_stroke_width m)
    (max_tip_length_to_length_ratio m) (max_stroke_width_to_length_ratio m).

Definition with_angle (m : mob) (a : F) : mob :=
  Mob (cls m) (points m) (heap m) (submobjects m) (tip m) (start_tip m)
    (tip_length m) (radius m) (num_components m) (arc_center m) (start_angle m) a
    (failed_to_get_center m) (buff m) (path_arc m) (start m) (end_ m)
    (stroke_width m) (initial_stroke_width m)
    (max_tip_length_to_length_ratio m) (max_stroke_width_to_length_ratio m).

Definition with_failed_to_get_center (m : mob) (b : bool) : mob :=
  Mob (cls m) (points m) (heap m) (submobjects m) (tip m) (start_tip m)
    (tip_length m) (radius m) (num_components m) (arc_center m) (start_angle m)
    (angle m) b (buff m) (path_arc m) (start m) (end_ m)
    (stroke_width m) (initial_stroke_width m)
    (max_tip_length_to_length_ratio m) (max_stroke_width_to_length_ratio m).

Definition with_start_end (m : mob) (s e : vec) : mob :=
  Mob (cls m) (points m) (heap m) (submobjects m) (tip m) (start_tip m)
    (tip_length m) (radius m) (num_components m) (arc_center m) (start_angle m)
    (angle m) (failed_to_get_center m) (buff m) (path_arc m) s e
    (stroke_width m) (initial_stroke_width m)
    (max_tip_length_to_length_ratio m) (max_stroke_width_to_length_ratio m).

Definition with_stroke_width (m : mob) (w : F) : mob :=
  Mob (cls m) (points m) (heap m) (submobjects m) (tip m) (start_tip m)
    (tip_length m) (radius m) (num_components m) (arc_center m) (start_angle m)
    (angle m) (failed_to_get_center m) (buff m) (path_arc m) (start m) (end_ m)
    w (initial_stroke_width m)
    (max_tip_length_to_length_ratio m) (max_stroke_width_to_length_ratio m).

(** *** The store of tip objects *)

Fixpoint heap_get (h : list (nat * list vec)) (i : nat) : list vec :=
  match h with
  | [] => []
  | (j, p) :: rest => if Nat.eqb i j then p else heap_get rest i
  end.

Fixpoint heap_set (h : list (nat * list vec)) (i : nat) (p : list vec)
  : list (nat * list vec) :=
  match h with
  | [] => [(i, p)]
  | (j, q) :: rest =>
      if Nat.eqb i j then (i, p) :: rest else (j, q) :: heap_set rest i p
  end.

(** A fresh identifier: one more than every identifier in the store. *)
Definition fresh_id (h : list (nat * list vec)) : nat :=
  fold_right (fun e acc => Nat.max (S (fst e)) acc) O h.

Definition mem (i : nat) (l : list nat) : bool := existsb (Nat.eqb i) l.

(** Modelled from the spec: Mobject.add, [list_update(self.submobjects,
    [child])]. *)
Definition add (m : mob) (i : nat) : mob :=
  with_submobjects m
    (filter (fun j => negb (Nat.eqb j i)) (submobjects m) ++ [i]).

(** Modelled from the spec: [list.remove] as Mobject.remove uses it, which
    removes the first occurrence. *)
Fixpoint remove_first (i : nat) (l : list nat) : list nat :=
  match l with
  | [] => []
  | j :: rest => if Nat.eqb i j then rest else j :: remove_first i rest
  end.

(** Modelled from the spec: Mobject.remove, [self.submobjects.remove(child)]
    when the child is present. *)
Definition remove (m : mob) (i : nat) : mob :=
  with_submobjects m (remove_first i (submobjects m)).

End Objects.

(* ================================================================== *)
(** ** Rotations, polygons and the arrow tip *)

Section Tips.
Context {F : Type} {SC : Scalar F} {TR : Trig F}.
Local Open Scope scalar_scope.
Local Abbreviation vec := (vec F).

(** Modelled from the spec: the constant TAU of constants.py. *)
Definition TAU : F := s2 * sPI.

(** Modelled from the spec: the rotation by [a] about the axis OUT
    (utils.space_ops.rotation_matrix), applied to one point. *)
Definition rot (a : F) (p : vec) : vec :=
  V (scos a * vx p - ssin a * vy p) (ssin a * vx p + scos a * vy p).

(** Modelled from the spec: utils.space_ops.rotate_vector(vector, angle). *)
Definition rotate_vector (v : vec) (a : F) : vec := rot a v.

(** Modelled from the spec: utils.space_ops.angle_of_vector, 0 for the null
    vector, else the argument of [x + iy]. *)
Definition angle_of_vector (v : vec) : F :=
  if (vx v ==? s0) && (vy v ==? s0) then s0 else sarg (vx v) (vy v).

(** Modelled from the spec: the point map of Mobject.rotate about a point. *)
Definition rotate_points (a : F) (about : vec) (pts : list vec) : list vec :=
  map (fun p => vadd (rot a (vsub p about)) about) pts.

(** Modelled from the spec: the point map of Mobject.stretch, [points[:, dim]
    *= factor] about a point. *)
Definition stretch_points (factor : F) (dim : nat) (about : vec)
    (pts : list vec) : list vec :=
  map (fun p =>
         let q := vsub p about in
         vadd (match dim with
               | O => V (factor * vx q) (vy q)
               | _ => V (vx q) (factor * vy q)
               end) about) pts.

(** Modelled from the spec: Mobject.length_over_dim(dim), max minus min of a
    coordinate over all points. *)
Definition length_over_dim (pts : list vec) (dim : nat) : F :=
  let col := map (match dim with O => @vx F | _ => @vy F end) pts in
  np_max col s0 - np_min col s0.

(** Modelled from the spec: utils.space_ops.compass_directions(n, start_vect). *)
Definition compass_directions (n : nat) (start_vect : vec) : list vec :=
  let angle := TAU / sofnat n in
  map (fun k => rotate_vector start_vect (sofnat k * angle)) (seq 0 n).

(** Polygon : [set_points_as_corners([*vertices, vertices[0]])]. *)
Definition Polygon_points (vertices : list vec) : result (list vec) :=
  match vertices with
  | [] => Raise IndexError
  | v0 :: _ => Ok (set_points_as_corners (vertices ++ [v0]))
  end.

(** Modelled from the spec: Mobject.set_width(length) on a childless shape, a
    rescaling about its centre to the given width. *)
Definition set_width (pts : list vec) (length : F) : list vec :=
  let old_length := length_over_dim pts 0 in
  if old_length ==? s0 then pts
  else scale_points (length / old_length) (bbox_center (get_anchors pts)) pts.

(** Modelled from the spec: Mobject.set_height(length, stretch=True) on a
    childless shape, a stretch along the second axis about its centre. *)
Definition set_height_stretch (pts : list vec) (length : F) : list vec :=
  let old_length := length_over_dim pts 1 in
  if old_length ==? s0 then pts
  else stretch_points (length / old_length) 1 (bbox_center (get_anchors pts)) pts.

(** ArrowTip(length) : a Triangle with [start_angle = PI], fitted to
    [length] in both dimensions. *)
Definition ArrowTip (length : F) : result (list vec) :=
  let start_vect := rotate_vector RIGHT sPI in
  let vertices := compass_directions 3 start_vect in
  pts <- Polygon_points vertices ;;
  Ok (set_height_stretch (set_width pts length) length).

(** ArrowTip accessors, on the tip's point buffer. *)
Definition ArrowTip_get_base (pts : list vec) : vec :=
  point_from_proportion pts (s1 / s2).

Definition ArrowTip_get_tip_point (pts : list vec) : result vec :=
  match pts with
  | [] => Raise IndexError
  | p :: _ => Ok p
  end.

Definition ArrowTip_get_vector (pts : list vec) : result vec :=
  p <- ArrowTip_get_tip_point pts ;;
  Ok (vsub p (ArrowTip_get_base pts)).

Definition ArrowTip_get_angle (pts : list vec) : result F :=
  v <- ArrowTip_get_vector pts ;;
  Ok (angle_of_vector v).

Definition ArrowTip_get_length (pts : list vec) : result F :=
  v <- ArrowTip_get_vector pts ;;
  Ok (get_norm v).

End Tips.

(* ================================================================== *)
(** ** TipableVMobject : queries *)

Section Curves.
Context {F : Type} {SC : Scalar F} {TR : Trig F}.
Local Open Scope string_scope.
Local Open Scope scalar_scope.
Local Abbreviation vec := (vec F).
Local Abbreviation mob := (@mob F).

(** Modelled from the spec: VMobject.get_start, [throw_error_if_no_points()],
    then [points[0]]. *)
Definition VMobject_get_start (pts : list vec) : result vec :=
  match pts with
  | [] => Raise (Exception "Cannot call Mobject.get_start for a Mobject with no points")
  | p :: _ => Ok p
  end.

(** Modelled from the spec: VMobject.get_end, [throw_error_if_no_points()],
    then [points[-1]]. *)
Definition VMobject_get_end (pts : list vec) : result vec :=
  match pts with
  | [] => Raise (Exception "Cannot call Mobject.get_end for a Mobject with no points")
  | _ => Ok (last pts ORIGIN)
  end.

(** The object an attribute refers to. *)
Definition deref (m : mob) (a : option nat) : list vec :=
  match a with
  | Some i => heap_get (heap m) i
  | None => []
  end.

Definition hasattr (a : option nat) : bool :=
  match a with Some _ => true | None => false end.

Definition is_child (m : mob) (a : option nat) : bool :=
  match a with Some i => mem i (submobjects m) | None => false end.

Definition has_tip (m : mob) : bool := hasattr (tip m) && is_child m (tip m).

Definition has_start_tip (m : mob) : bool :=
  hasattr (start_tip m) && is_child m (start_tip m).

Definition get_end (m : mob) : result vec :=
  if has_tip m then VMobject_get_start (deref m (tip m))
  else VMobject_get_end (points m).

Definition get_start (m : mob) : result vec :=
  if has_start_tip m then VMobject_get_start (deref m (start_tip m))
  else VMobject_get_start (points m).

Definition get_start_and_end (m : mob) : result (vec * vec) :=
  s <- get_start m ;;
  e <- get_end m ;;
  Ok (s, e).

Definition get_length (m : mob) : result F :=
  se <- get_start_and_end m ;;
  Ok (get_norm (vsub (fst se) (snd se))).

Definition get_first_handle (m : mob) : result vec :=
  match points m with
  | _ :: h :: _ => Ok h
  | _ => Raise IndexError
  end.

Definition get_last_handle (m : mob) : result vec :=
  match rev (points m) with
  | _ :: h :: _ => Ok h
  | _ => Raise IndexError
  end.

(** Modelled from the spec: VGroup.add, [list_update(submobjects, [x])]. *)
Definition vgroup_add (g : list nat) (a : option nat) : list nat :=
  match a with
  | Some i => filter (fun j => negb (Nat.eqb j i)) g ++ [i]
  | None => g
  end.

Definition get_tips (m : mob) : list nat :=
  let result := [] in
  let result := if hasattr (tip m) then vgroup_add result (tip m) else result in
  let result := if hasattr (start_tip m) then vgroup_add result (start_tip m) else result in
  result.

Definition get_tip (m : mob) : result nat :=
  match get_tips m with
  | [] => Raise (Exception "tip not found")
  | t :: _ => Ok t
  end.

(** Arrow.get_default_tip_length overrides TipableVMobject's. *)
Definition get_default_tip_length (m : mob) : result F :=
  match cls m with
  | KArrow =>
      let max_ratio := max_tip_length_to_length_ratio m in
      len <- get_length m ;;
      Ok (py_min (tip_length m) (max_ratio * len))
  | _ => Ok (tip_length m)
  end.

(* ------------------------------------------------------------------ *)
(** ** Mobject : affine transforms over the family *)

(** Modelled from the spec: Mobject.family_members_with_points, the object and
    its children (tips have no children of their own). *)
Definition family_members (m : mob) : list (list vec) :=
  points m :: map (heap_get (heap m)) (submobjects m).

(** Modelled from the spec: VMobject.get_points_defining_boundary, the anchors
    of the whole family. *)
Definition get_points_defining_boundary (m : mob) : list vec :=
  concat (map get_anchors (family_members m)).

(** Modelled from the spec: Mobject.get_center. *)
Definition get_center (m : mob) : vec :=
  bbox_center (get_points_defining_boundary m).

(** Modelled from the spec: Mobject.apply_points_function_about_point, one
    point map applied to every member of the family. *)
Definition apply_points_function (f : list vec -> list vec) (m : mob) : mob :=
  with_heap (with_points m (f (points m)))
    (fold_left (fun h i => heap_set h i (f (heap_get h i)))
       (submobjects m) (heap m)).

(** Modelled from the spec: the default [about_point] of Mobject's transforms,
    the centre of the object. *)
Definition about_or_center (m : mob) (about_point : option vec) : vec :=
  match about_point with
  | Some a => a
  | None => get_center m
  end.

(** Modelled from the spec: Mobject.scale(factor, about_point). *)
Definition Mobject_scale (m : mob) (factor : F) (about_point : option vec) : mob :=
  apply_points_function (scale_points factor (about_or_center m about_point)) m.

(** Modelled from the spec: Mobject.rotate(angle, about_point), about the axis
    OUT. *)
Definition Mobject_rotate (m : mob) (a : F) (about_point : option vec) : mob :=
  apply_points_function (rotate_points a (about_or_center m about_point)) m.

(** Modelled from the spec: Mobject.shift(vector). *)
Definition Mobject_shift (m : mob) (v : vec) : mob :=
  apply_points_function (shift_points v) m.

(** Modelled from the spec: Mobject.put_start_and_end_on; [scale] is the
    receiver's own (virtual) [scale] method. *)
Definition Mobject_put_start_and_end_on
    (scale : mob -> F -> option vec -> result mob)
    (m : mob) (s e : vec) : result mob :=
  se <- get_start_and_end m ;;
  let curr_start := fst se in
  let curr_end := snd se in
  let curr_vect := vsub curr_end curr_start in
  if veqb curr_vect ORIGIN
  then Raise (Exception "Cannot position endpoints of closed loop")
  else
    let target_vect := vsub e s in
    m1 <- scale m (get_norm target_vect / get_norm curr_vect) (Some curr_start) ;;
    let m2 := Mobject_rotate m1
                (angle_of_vector target_vect - angle_of_vector curr_vect)
                (Some curr_start) in
    Ok (Mobject_shift m2 (vsub s curr_start)).

End Curves.

(* ================================================================== *)
(** ** Arc and ArcBetweenPoints *)

Section Arcs.
Context {F : Type} {SC : Scalar F} {TR : Trig F}.
Local Open Scope string_scope.
Local Open Scope scalar_scope.
Local Abbreviation vec := (vec F).
Local Abbreviation mob := (@mob F).

(** Modelled from the spec: the constants DEFAULT_ARROW_TIP_LENGTH and
    MED_SMALL_BUFF of constants.py. *)
Definition DEFAULT_ARROW_TIP_LENGTH : F := sofnat 35 / sofnat 100.
Definition MED_SMALL_BUFF : F := s1 / sofnat 4.

(** Python's [/] on two floats. *)
Definition py_div (x y : F) : result F :=
  if y ==? s0 then Raise ZeroDivisionError else Ok (x / y).

(** [math.sqrt] and [math.acos] with their domain errors. *)
Definition math_sqrt (x : F) : result F :=
  if x <? s0 then Raise (ValueError "math domain error") else Ok (ssqrt x).

Definition math_acos (x : F) : result F :=
  if (x <? - s1) || (s1 <? x) then Raise (ValueError "math domain error")
  else Ok (sacos x).

(** A bare object of a class: no points, no children, no tip attribute. *)
Definition new_mob (k : klass) : mob :=
  Mob k [] [] [] None None DEFAULT_ARROW_TIP_LENGTH
    None 9 ORIGIN s0 (TAU / sofnat 4) false
    s0 None LEFT RIGHT
    s0 s0 s0 s0.

(** Modelled from the spec: VMobject.set_anchors_and_handles(a1, h1, h2, a2),
    the four arrays interleaved. *)
Fixpoint set_anchors_and_handles (a1 h1 h2 a2 : list vec) : list vec :=
  match a1, h1, h2, a2 with
  | a :: a1', h :: h1', k :: h2', b :: a2' =>
      a :: h :: k :: b :: set_anchors_and_handles a1' h1' h2' a2'
  | _, _, _, _ => []
  end.

(** Arc.set_pre_positioned_points : the unit-circle arc.  Without any
    component the array of anchors has one axis only, and the column
    [anchors[:, 0]] read for the tangent vectors raises IndexError. *)
Definition set_pre_positioned_points (start_angle angle : F) (num_components : nat)
  : result (list vec) :=
  let anchors :=
    map (fun a => vadd (vscale (scos a) RIGHT) (vscale (ssin a) UP))
      (linspace start_angle (start_angle + angle) num_components) in
  d_theta <- py_div angle (sofnat num_components - s1) ;;
  _ <- match anchors with
       | [] => Raise IndexError
       | _ :: _ => Ok tt
       end ;;
  let tangent_vectors := map (fun a => V (- vy a) (vx a)) anchors in
  let handles1 :=
    map (fun at_ => vadd (fst at_) (vscale (d_theta / s3) (snd at_)))
      (combine (removelast anchors) (removelast tangent_vectors)) in
  let handles2 :=
    map (fun at_ => vsub (fst at_) (vscale (d_theta / s3) (snd at_)))
      (combine (tl anchors) (tl tangent_vectors)) in
  Ok (set_anchors_and_handles (removelast anchors) handles1 handles2 (tl anchors)).

(** Arc.generate_points : [if self.radius is None: self.radius = 1.0], then
    scale by the radius about the origin and shift to the centre.
    [math.inf] is stored in [radius] only after generation, by
    ArcBetweenPoints, and no arc is generated again: that case is outside
    the model. *)
Definition Arc_generate_points (m : mob) : result mob :=
  pts <- set_pre_positioned_points (start_angle m) (angle m) (num_components m) ;;
  let m := with_points m pts in
  let m := match radius m with
           | None => with_radius m (Some (Finite s1))
           | Some _ => m
           end in
  match radius m with
  | Some (Finite r) =>
      let m := Mobject_scale m r (Some ORIGIN) in
      Ok (Mobject_shift m (arc_center m))
  | _ => Raise (Exception "radius is not finite")
  end.

(** Arc(...) *)
Definition Arc (radius : option F) (num_components : nat) (arc_center : vec)
    (start_angle angle : F) : result mob :=
  let m := new_mob KArc in
  let m := Mob (cls m) (points m) (heap m) (submobjects m) (tip m) (start_tip m)
             (tip_length m) (option_map Finite radius) num_components
             arc_center start_angle angle
             false (buff m) (path_arc m) (start m) (end_ m)
             (stroke_width m) (initial_stroke_width m)
             (max_tip_length_to_length_ratio m)
             (max_stroke_width_to_length_ratio m) in
  Arc_generate_points m.

(** Modelled from the spec: the determinant inside
    utils.space_ops.line_intersection. *)
Definition det (a b : F * F) : F := fst a * snd b - snd a * fst b.

(** Modelled from the spec: utils.space_ops.line_intersection(line1, line2),
    which raises when the lines do not intersect. *)
Definition line_intersection (line1 line2 : vec * vec) : result vec :=
  let x_diff := (vx (fst line1) - vx (snd line1), vx (fst line2) - vx (snd line2)) in
  let y_diff := (vy (fst line1) - vy (snd line1), vy (fst line2) - vy (snd line2)) in
  let div := det x_diff y_diff in
  if div ==? s0 then Raise (Exception "Lines do not intersect")
  else
    let pair (p : vec) := (vx p, vy p) in
    let d := (det (pair (fst line1)) (pair (snd line1)),
              det (pair (fst line2)) (pair (snd line2))) in
    Ok (V (det d x_diff / div) (det d y_diff / div)).

(** Arc.get_arc_center : the centre found, or the origin with the flag
    [_failed_to_get_center] raised when the intersection fails. *)
Definition get_arc_center (m : mob) : result (vec * mob) :=
  match points m with
  | a1 :: h1 :: h2 :: a2 :: _ =>
      let t1 := vsub h1 a1 in
      let t2 := vsub h2 a2 in
      let n1 := rotate_vector t1 (TAU / sofnat 4) in
      let n2 := rotate_vector t2 (TAU / sofnat 4) in
      match line_intersection (a1, vadd a1 n1) (a2, vadd a2 n2) with
      | Ok c => Ok (c, m)
      | Raise _ => Ok (ORIGIN, with_failed_to_get_center m true)
      end
  | _ => Raise (ValueError "not enough values to unpack")
  end.

Definition plain_scale (m : mob) (factor : F) (about_point : option vec)
  : result mob :=
  Ok (Mobject_scale m factor about_point).

(** The attributes of a fresh ArcBetweenPoints, before [__attrs_post_init__]. *)
Definition ArcBetweenPoints_attrs (start_ end__ : vec) (angle_ : F)
    (radius_ : option F) : mob :=
  let m := new_mob KArcBetweenPoints in
  Mob (cls m) (points m) (heap m) (submobjects m) (tip m) (start_tip m)
    (tip_length m) (option_map Finite radius_) (num_components m)
    (arc_center m) (start_angle m) angle_ false (buff m) (path_arc m)
    start_ end__
    (stroke_width m) (initial_stroke_width m)
    (max_tip_length_to_length_ratio m)
    (max_stroke_width_to_length_ratio m).

(** ArcBetweenPoints(start, end, angle, radius).__attrs_post_init__ *)
Definition ArcBetweenPoints (start_ end__ : vec) (angle_ : F) (radius_ : option F)
  : result mob :=
  let m := ArcBetweenPoints_attrs start_ end__ angle_ radius_ in
  m <- match radius m with
       | Some (Finite r0) =>
           let '(sign, r) := if r0 <? s0 then (- s2, r0 * - s1) else (s2, r0) in
           let m := with_radius m (Some (Finite r)) in
           let halfdist := get_norm (vsub (start m) (end_ m)) / s2 in
           if r <? halfdist
           then Raise (ValueError
                  "ArcBetweenPoints called with a radius that is
                            smaller than half the distance between the points.")
           else
             root <- math_sqrt (spow r 2 - spow halfdist 2) ;;
             let arc_height := r - root in
             q <- py_div (r - arc_height) r ;;
             ac <- math_acos q ;;
             Ok (with_angle m (ac * sign))
       | _ => Ok m
       end ;;
  m <- Arc_generate_points m ;;
  let m := if angle m ==? s0
           then with_points m (set_points_as_corners [LEFT; RIGHT])
           else m in
  m <- Mobject_put_start_and_end_on plain_scale m (start m) (end_ m) ;;
  match radius m with
  | None =>
      cm <- get_arc_center m ;;
      let '(center, m) := cm in
      if negb (failed_to_get_center m)
      then Ok (with_radius m (Some (Finite (get_norm (vsub (start m) center)))))
      else Ok (with_radius m (Some Infinite))
  | Some _ => Ok m
  end.

End Arcs.

(* ================================================================== *)
(** ** Line, Arrow and the tip protocol *)

Section Lines.
Context {F : Type} {SC : Scalar F} {TR : Trig F}.
Local Open Scope string_scope.
Local Open Scope scalar_scope.
Local Abbreviation vec := (vec F).
Local Abbreviation mob := (@mob F).

(** Python truthiness of [path_arc]: [None] and 0 are false. *)
Definition truthy (x : option F) : bool :=
  match x with
  | None => false
  | Some a => negb (a ==? s0)
  end.

(** [self.path_arc == 0] *)
Definition is_zero (x : option F) : bool :=
  match x with
  | None => false
  | Some a => a ==? s0
  end.

(** Line.account_for_buff *)
Definition account_for_buff (m : mob) : result mob :=
  if buff m ==? s0 then Ok m
  else
    length <- (if is_zero (path_arc m) then get_length m
               else Ok (get_arc_length (points m))) ;;
    if length <? s2 * buff m then Ok m
    else
      let buff_proportion := buff m / length in
      Ok (with_points m
            (pointwise_become_partial (points m)
               buff_proportion (s1 - buff_proportion))).

(** Line.generate_points.  How the positional arguments of
    [ArcBetweenPoints(self.start, self.end, angle=self.path_arc)] bind is
    decided by utils/dataclasses.dclass, which is not in src/.  The branch
    of a truthy [path_arc] reads them as the arc's [start] and [end]; this
    is an assumption, and the theorems below that say what a generated Line
    looks like take [path_arc] to be None or 0, which is the other branch. *)
Definition Line_generate_points (m : mob) : result mob :=
  m <- (if truthy (path_arc m)
        then
          arc <- ArcBetweenPoints (start m) (end_ m)
                   (match path_arc m with Some a => a | None => s0 end) None ;;
          Ok (with_points m (points arc))
        else Ok (with_points m (set_points_as_corners [start m; end_ m]))) ;;
  account_for_buff m.

(** The attributes of a fresh Line, both ends given as coordinates. *)
Definition Line_attrs (start_ end__ : vec) (buff_ : F) (path_arc_ : option F)
  : mob :=
  let m := new_mob KLine in
  Mob (cls m) (points m) (heap m) (submobjects m) (tip m) (start_tip m)
    (tip_length m) (radius m) (num_components m) (arc_center m)
    (start_angle m) (angle m) false buff_ path_arc_ start_ end__
    (stroke_width m) (initial_stroke_width m)
    (max_tip_length_to_length_ratio m)
    (max_stroke_width_to_length_ratio m).

(** Line(start, end, buff, path_arc) *)
Definition Line (start_ end__ : vec) (buff_ : F) (path_arc_ : option F)
  : result mob :=
  Line_generate_points (Line_attrs start_ end__ buff_ path_arc_).

(** TipableVMobject.get_unpositioned_tip (styles left out). *)
Definition get_unpositioned_tip (m : mob) (tip_length_ : option F)
  : result (list vec) :=
  tl <- match tip_length_ with
        | None => get_default_tip_length m
        | Some t => Ok t
        end ;;
  ArrowTip tl.

(** TipableVMobject.position_tip *)
Definition position_tip (m : mob) (tip_ : list vec) (at_start : bool)
  : result (list vec) :=
  ah <- (if at_start
         then anchor <- get_start m ;; handle <- get_first_handle m ;;
              Ok (anchor, handle)
         else handle <- get_last_handle m ;; anchor <- get_end m ;;
              Ok (anchor, handle)) ;;
  let '(anchor, handle) := ah in
  ta <- ArrowTip_get_angle tip_ ;;
  let tip_ := rotate_points (angle_of_vector (vsub handle anchor) - sPI - ta)
                (bbox_center (get_anchors tip_)) tip_ in
  tp <- ArrowTip_get_tip_point tip_ ;;
  Ok (shift_points (vsub anchor tp) tip_).

Definition create_tip (m : mob) (tip_length_ : option F) (at_start : bool)
  : result (list vec) :=
  tip_ <- get_unpositioned_tip m tip_length_ ;;
  position_tip m tip_ at_start.

(** TipableVMobject.asign_tip_attr; the new object enters the store here. *)
Definition asign_tip_attr (m : mob) (tip_ : list vec) (at_start : bool)
  : mob * nat :=
  let i := fresh_id (heap m) in
  let m := with_heap m (heap_set (heap m) i tip_) in
  (if at_start then with_start_tip m (Some i) else with_tip m (Some i), i).

(** Arrow.set_stroke_width_from_length *)
Definition set_stroke_width_from_length (m : mob) : result mob :=
  let max_ratio := max_stroke_width_to_length_ratio m in
  len <- get_length m ;;
  Ok (with_stroke_width m (py_min (initial_stroke_width m) (max_ratio * len))).

Definition remove_attr (m : mob) (a : option nat) : mob :=
  match a with Some i => remove m i | None => m end.

Definition index (l : list nat) (i : nat) : result nat :=
  match nth_error l i with
  | Some x => Ok x
  | None => Raise IndexError
  end.

(** The methods that call one another through the receiver: [scale]
    (overridden by Arrow), [put_start_and_end_on] (overridden by Line),
    [pop_tips] and [add_tip].  [fuel] bounds the depth of the call stack. *)
Fixpoint scale (fuel : nat) (m : mob) (factor : F) (about_point : option vec)
    {struct fuel} : result mob :=
  match fuel with
  | O => Raise RecursionError
  | S n =>
      match cls m with
      | KArrow =>
          len <- get_length m ;;
          if len ==? s0 then Ok m
          else
            let has_tip_ := has_tip m in
            let has_start_tip_ := has_start_tip m in
            mo <- (if has_tip_ || has_start_tip_ then pop_tips n m
                   else Ok (m, [])) ;;
            let '(m, old_tips) := mo in
            let m := Mobject_scale m factor about_point in
            m <- set_stroke_width_from_length m ;;
            m <- (if has_tip_
                  then
                    m <- add_tip n m None false ;;
                    old0 <- index old_tips 0 ;;
                    let m := with_heap m (heap_set (heap m) old0 (deref m (tip m))) in
                    let m := remove_attr m (tip m) in
                    let m := with_tip m (Some old0) in
                    Ok (add m old0)
                  else Ok m) ;;
            (if has_start_tip_
             then
               m <- add_tip n m None true ;;
               old1 <- index old_tips 1 ;;
               let m := with_heap m (heap_set (heap m) old1 (deref m (start_tip m))) in
               let m := remove_attr m (start_tip m) in
               let m := with_start_tip m (Some old1) in
               Ok (add m old1)
             else Ok m)
      | _ => Ok (Mobject_scale m factor about_point)
      end
  end

with put_start_and_end_on (fuel : nat) (m : mob) (s e : vec) {struct fuel}
  : result mob :=
  match fuel with
  | O => Raise RecursionError
  | S n =>
      match cls m with
      | KLine | KArrow =>
          se <- get_start_and_end m ;;
          m <- (if veqb (fst se) (snd se)
                then Line_generate_points (with_start_end m s e)
                else Ok m) ;;
          Mobject_put_start_and_end_on (scale n) m s e
      | _ => Mobject_put_start_and_end_on (scale n) m s e
      end
  end

with pop_tips (fuel : nat) (m : mob) {struct fuel} : result (mob * list nat) :=
  match fuel with
  | O => Raise RecursionError
  | S n =>
      se <- get_start_and_end m ;;
      let result := [] in
      let '(m, result) :=
        if has_tip m then (remove_attr m (tip m), vgroup_add result (tip m))
        else (m, result) in
      let '(m, result) :=
        if has_start_tip m
        then (remove_attr m (start_tip m), vgroup_add result (start_tip m))
        else (m, result) in
      m <- put_start_and_end_on n m (fst se) (snd se) ;;
      Ok (m, result)
  end

with add_tip (fuel : nat) (m : mob) (tip_length_ : option F) (at_start : bool)
    {struct fuel} : result mob :=
  match fuel with
  | O => Raise RecursionError
  | S n =>
      tip_ <- create_tip m tip_length_ at_start ;;
      (* reset_endpoints_based_on_tip *)
      len <- get_length m ;;
      m <- (if len ==? s0 then Ok m
            else if at_start
            then e <- get_end m ;;
                 put_start_and_end_on n m (ArrowTip_get_base tip_) e
            else s <- get_start m ;;
                 put_start_and_end_on n m s (ArrowTip_get_base tip_)) ;;
      let '(m, i) := asign_tip_attr m tip_ at_start in
      Ok (add m i)
  end.

(** Line.set_length *)
Definition set_length (fuel : nat) (m : mob) (length : F) : result mob :=
  len <- get_length m ;;
  scale fuel m (length / len) None.

(** The attributes of a fresh Arrow. *)
Definition Arrow_attrs (start_ end__ : vec) (buff_ : F)
    (path_arc_ : option F) (tip_length_ stroke_width_ : F)
    (max_tip_ratio max_stroke_ratio : F) : mob :=
  let m := new_mob KArrow in
  Mob (cls m) (points m) (heap m) (submobjects m) (tip m) (start_tip m)
    tip_length_ (radius m) (num_components m) (arc_center m)
    (start_angle m) (angle m) false buff_ path_arc_ start_ end__
    stroke_width_ stroke_width_ max_tip_ratio max_stroke_ratio.

(** Arrow(start, end, ...).__attrs_post_init__ *)
Definition Arrow (fuel : nat) (start_ end__ : vec) (buff_ : F)
    (path_arc_ : option F) (tip_length_ stroke_width_ : F)
    (max_tip_ratio max_stroke_ratio : F) : result mob :=
  let m := Arrow_attrs start_ end__ buff_ path_arc_ tip_length_ stroke_width_
             max_tip_ratio max_stroke_ratio in
  m <- Line_generate_points m ;;
  m <- add_tip fuel m None false ;;
  set_stroke_width_from_length m.

End Lines.

(* ================================================================== *)
(** ** Further methods and classes of geometry.py *)

Section MoreCurves.
Context {F : Type} {SC : Scalar F} {TR : Trig F}.
Local Open Scope string_scope.
Local Open Scope scalar_scope.
Local Abbreviation vec := (vec F).
Local Abbreviation mob := (@mob F).

(** Modelled from the spec: utils.space_ops.normalize, the vector divided by
    its norm, and the null vector when the norm is not positive. *)
Definition normalize (v : vec) : vec :=
  let norm := get_norm v in
  if s0 <? norm then V (vx v / norm) (vy v / norm) else V s0 s0.

(** Line.get_vector : [self.get_end() - self.get_start()]. *)
Definition Line_get_vector (m : mob) : result vec :=
  e <- get_end m ;;
  s <- get_start m ;;
  Ok (vsub e s).

(** Line.get_unit_vector *)
Definition Line_get_unit_vector (m : mob) : result vec :=
  v <- Line_get_vector m ;;
  Ok (normalize v).

(** Line.get_angle *)
Definition Line_get_angle (m : mob) : result F :=
  v <- Line_get_vector m ;;
  Ok (angle_of_vector v).

(** Line.set_angle :
    [self.rotate(angle - self.get_angle(), about_point=self.get_start())]. *)
Definition Line_set_angle (m : mob) (angle_ : F) : result mob :=
  a0 <- Line_get_angle m ;;
  s <- get_start m ;;
  Ok (Mobject_rotate m (angle_ - a0) (Some s)).

(** Arc.move_arc_center_to : [self.shift(point - self.get_arc_center())]. *)
Definition move_arc_center_to (m : mob) (point : vec) : result mob :=
  cm <- get_arc_center m ;;
  let '(c, m) := cm in
  Ok (Mobject_shift m (vsub point c)).

(** Circle(radius, arc_center) : an Arc from angle 0 over TAU. *)
Definition Circle (radius_ : F) (arc_center_ : vec) : result mob :=
  Arc (Some radius_) 9 arc_center_ s0 TAU.

(** CurvedArrow(start_point, end_point, angle, radius) : the arc between the
    points, then [add_tip()].  No method of the class hierarchy is
    overridden, so the object is handled as an ArcBetweenPoints. *)
Definition CurvedArrow (fuel : nat) (start_point end_point : vec) (angle_ : F)
    (radius_ : option F) : result mob :=
  m <- ArcBetweenPoints start_point end_point angle_ radius_ ;;
  add_tip fuel m None false.

(** CurvedDoubleArrow : a CurvedArrow, then [add_tip(at_start=True)]. *)
Definition CurvedDoubleArrow (fuel : nat) (start_point end_point : vec)
    (angle_ : F) (radius_ : option F) : result mob :=
  m <- CurvedArrow fuel start_point end_point angle_ radius_ ;;
  add_tip fuel m None true.

(** Modelled from the spec: VMobject.get_start_anchors, [points[0::4]]. *)
Fixpoint get_start_anchors_aux (fuel : nat) (pts : list vec) : list vec :=
  match fuel with
  | O => []
  | S k =>
      match pts with
      | [] => []
      | p :: rest => p :: get_start_anchors_aux k (skipn 3 rest)
      end
  end.

Definition get_start_anchors (pts : list vec) : list vec :=
  get_start_anchors_aux (length pts) pts.

(** Polygon.get_vertices *)
Definition Polygon_get_vertices (pts : list vec) : list vec :=
  get_start_anchors pts.

(** Modelled from the spec: the constant DEGREES of constants.py. *)
Definition DEGREES : F := TAU / sofnat 360.

(** RegularPolygon(n, start_angle) : the vertices.  [start_angle = None]
    becomes 0 for an even [n] and 90 degrees for an odd one;
    [compass_directions] divides TAU by [n]. *)
Definition RegularPolygon_vertices (n : nat) (start_angle_ : option F)
  : result (list vec) :=
  let start_angle_ :=
    match start_angle_ with
    | Some a => a
    | None => if Nat.even n then s0 else sofnat 90 * DEGREES
    end in
  let start_vect := rotate_vector RIGHT start_angle_ in
  match n with
  | O => Raise ZeroDivisionError
  | _ => Ok (compass_directions n start_vect)
  end.

Definition RegularPolygon (n : nat) (start_angle_ : option F)
  : result (list vec) :=
  vertices <- RegularPolygon_vertices n start_angle_ ;;
  Polygon_points vertices.

(** Triangle : [self.n = 3]. *)
Definition Triangle (start_angle_ : option F) : result (list vec) :=
  RegularPolygon 3 start_angle_.

(** Modelled from the spec: Mobject.set_width(length, stretch=True) and
    Mobject.set_height(length, stretch=True) on a childless shape
    (Mobject.rescale_to_fit), a stretch along one axis about the centre,
    and nothing when the shape has no extent along that axis. *)
Definition rescale_to_fit_stretch (pts : list vec) (length : F) (dim : nat)
  : list vec :=
  let old_length := length_over_dim pts dim in
  if old_length ==? s0 then pts
  else stretch_points (length / old_length) dim (bbox_center (get_anchors pts)) pts.

(** Modelled from the spec: the constants DOWN, UL, UR, DR and DL of
    constants.py, in the plane. *)
Definition DOWN : vec := V s0 (- s1).
Definition UL : vec := vadd UP LEFT.
Definition UR : vec := vadd UP RIGHT.
Definition DR : vec := vadd DOWN RIGHT.
Definition DL : vec := vadd DOWN LEFT.

(** Rectangle(width, height) : the polygon on UL, UR, DR, DL, stretched to
    the width and then to the height. *)
Definition Rectangle (width height : F) : result (list vec) :=
  pts <- Polygon_points [UL; UR; DR; DL] ;;
  let pts := rescale_to_fit_stretch pts width 0 in
  Ok (rescale_to_fit_stretch pts height 1).

(** Square(side_length) *)
Definition Square (side_length : F) : result (list vec) :=
  Rectangle side_length side_length.

End MoreCurves.

(* ================================================================== *)
(** * Vocabulary of the specification *)

Section Vocabulary.
Context {F : Type} {SC : Scalar F} {TR : Trig F}.
Local Abbreviation vec := (vec F).
Local Abbreviation mob := (@mob F).
Implicit Types m : mob.

Definition wf (m : mob) : Prop :=
  NoDup (submobjects m)
  /\ (forall j, In j (submobjects m) -> j < fresh_id (heap m))
  /\ (forall j, tip m = Some j -> j < fresh_id (heap m))
  /\ (forall j, start_tip m = Some j -> j < fresh_id (heap m)).

Definition keeps (m m' : mob) : Prop :=
  cls m' = cls m /\ tip m' = tip m /\ start_tip m' = start_tip m
  /\ (forall j, In j (submobjects m') <-> In j (submobjects m))
  /\ NoDup (submobjects m')
  /\ fresh_id (heap m) <= fresh_id (heap m').

Definition detach (m : mob) : mob * list nat :=
  let result := [] in
  let '(m, result) :=
    if has_tip m then (remove_attr m (tip m), vgroup_add result (tip m))
    else (m, result) in
  if has_start_tip m
  then (remove_attr m (start_tip m), vgroup_add result (start_tip m))
  else (m, result).

Definition added (m : mob) (at_start : bool) (m' : mob) : Prop :=
  cls m' = cls m /\
  exists i l,
    fresh_id (heap m) <= i /\ i < fresh_id (heap m')
    /\ (if at_start then start_tip m' = Some i /\ tip m' = tip m
        else tip m' = Some i /\ start_tip m' = start_tip m)
    /\ submobjects m' = l ++ [i]
    /\ ~ In i l /\ NoDup l
    /\ (forall j, In j l <-> In j (submobjects m)).

Definition readd (m : mob) (old : nat) (at_start : bool) : mob :=
  if at_start then
    let m := with_heap m (heap_set (heap m) old (deref m (start_tip m))) in
    let m := remove_attr m (start_tip m) in
    let m := with_start_tip m (Some old) in
    add m old
  else
    let m := with_heap m (heap_set (heap m) old (deref m (tip m))) in
    let m := remove_attr m (tip m) in
    let m := with_tip m (Some old) in
    add m old.

Definition popped (m m' : mob) (r : list nat) : Prop :=
  keeps (fst (detach m)) m' /\ r = snd (detach m).

(** The configuration fields that no transform touches. *)
Definition same_config (m m' : mob) : Prop :=
  tip_length m' = tip_length m /\ radius m' = radius m
  /\ num_components m' = num_components m /\ arc_center m' = arc_center m
  /\ start_angle m' = start_angle m /\ angle m' = angle m
  /\ failed_to_get_center m' = failed_to_get_center m
  /\ buff m' = buff m /\ path_arc m' = path_arc m
  /\ initial_stroke_width m' = initial_stroke_width m
  /\ max_tip_length_to_length_ratio m' = max_tip_length_to_length_ratio m
  /\ max_stroke_width_to_length_ratio m' = max_stroke_width_to_length_ratio m.

(** [m'] is [m] with every point of the family sent through [g]. *)
Definition moved (g : vec -> vec) (m m' : mob) : Prop :=
  points m' = map g (points m)
  /\ forall i, heap_get (heap m') i =
               if mem i (submobjects m) then map g (heap_get (heap m) i)
               else heap_get (heap m) i.

Definition bare (m : mob) : Prop :=
  cls m <> KArrow \/ (has_tip m = false /\ has_start_tip m = false).

Definition attach (m : mob) (tp : list vec) (at_start : bool) : mob :=
  add (fst (asign_tip_attr m tp at_start)) (snd (asign_tip_attr m tp at_start)).

Definition attr (m : mob) (at_start : bool) : option nat :=
  if at_start then start_tip m else tip m.

Definition parallel (u v : vec) : Prop :=
  ssub (smul (vx u) (vy v)) (smul (vy u) (vx v)) = s0.

Definition quarter_turn (t : vec) : vec := rotate_vector t (sdiv TAU (sofnat 4)).

(** The length [account_for_buff] compares the buffer with. *)
Definition measured_length (m : mob) : result F :=
  if is_zero (path_arc m) then get_length m
  else Ok (get_arc_length (points m)).



End Vocabulary.

Section IdealVocabulary.
Local Open Scope R_scope.
Local Abbreviation mobR := (@mob R).
Implicit Types m : mobR.

Definition cmul (a b : vec R) : vec R :=
  V (vx a * vx b - vy a * vy b) (vx a * vy b + vy a * vx b).

Definition cdiv (t c : vec R) : vec R :=
  let n := vx c * vx c + vy c * vy c in
  V ((vx t * vx c + vy t * vy c) / n) ((vy t * vx c - vx t * vy c) / n).

Definition similarity (a c s t : vec R) (p : vec R) : vec R :=
  vadd s (cmul (cdiv t c) (vsub p a)).

Definition tri_vertices : list (vec R) :=
  [V (-1) 0; V (1 / 2) (- (sqrt 3 / 2)); V (1 / 2) (sqrt 3 / 2)].

Definition tip_A (L : R) : vec R := V (- (1 / 4) - L / 2) 0.
Definition tip_B (L : R) : vec R := V (- (1 / 4) + L / 2) (- (L / 2)).
Definition tip_C (L : R) : vec R := V (- (1 / 4) + L / 2) (L / 2).
Definition tip_shape (L : R) : list (vec R) :=
  set_points_as_corners [tip_A L; tip_B L; tip_C L; tip_A L].

Definition tri_points : list (vec R) :=
  set_points_as_corners (tri_vertices ++ [V (-1) 0]).

Definition place (anchor p0 : vec R) (th : R) (p : vec R) : vec R :=
  vadd anchor (rot th (vsub p p0)).

Definition anchor_of (m : @mob R) (at_start : bool) : result (vec R) :=
  if at_start then get_start m else get_end m.

Definition handle_of (m : @mob R) (at_start : bool) : result (vec R) :=
  if at_start then get_first_handle m else get_last_handle m.

Definition resolve_tip_length (m : @mob R) (tl : option R) : result R :=
  match tl with
  | None => get_default_tip_length m
  | Some t => Ok t
  end.

(** A straight Line without buffer. *)
Definition straight (m : @mob R) (a b : vec R) : @mob R :=
  with_points m (set_points_as_corners [a; b]).

(** The running example: the line from (0,0) to (4,0) with a unit tip. *)
Definition line04 : @mob R :=
  straight (Line_attrs (V 0 0) (V 4 0) 0 None) (V 0 0) (V 4 0).

Definition circle_point (c : vec R) (r x : R) : vec R :=
  V (vx c + r * cos x) (vy c + r * sin x).

Definition halfdist (p1 p2 : vec R) : R := get_norm (vsub p1 p2) / 2.

Definition radius_angle (p1 p2 : vec R) (r sign : R) : R :=
  acos (sqrt (r * r - halfdist p1 p2 * halfdist p1 p2) / r) * sign.

Definition arc_handle_after (c : vec R) (r x d : R) : vec R :=
  V (vx c + r * (cos x - d / 3 * sin x)) (vy c + r * (sin x + d / 3 * cos x)).

Definition arc_handle_before (c : vec R) (r x d : R) : vec R :=
  V (vx c + r * (cos x + d / 3 * sin x)) (vy c + r * (sin x - d / 3 * cos x)).

Definition unit_square_points : list (vec R) :=
  set_points_as_corners [V (-1) 1; V 1 1; V 1 (-1); V (-1) (-1); V (-1) 1].





End IdealVocabulary.

Section Float64Vocabulary.
Context {TF : Trig float}.

Definition endpoints (r : result (@mob float)) : result (vec float * vec float) :=
  m <- r ;; get_start_and_end m.

Definition all_nan (pts : list (vec float)) : bool :=
  forallb (fun p => PrimFloat.is_nan (vx p) && PrimFloat.is_nan (vy p)) pts.

End Float64Vocabulary.

(* ================================================================== *)
(** * Properties *)

Ltac unsc := cbn [s0 s1 s2 s3 sadd ssub smul sdiv sopp ssqrt seqb sltb sleb Ideal
                  sPI scos ssin sacos sarg IdealTrig] in *.

(** ** The children, the tip attributes and the store *)

Section Structure.
Context {F : Type} {SC : Scalar F} {TR : Trig F}.
Local Abbreviation vec := (vec F).
Local Abbreviation mob := (@mob F).
Implicit Types m : mob.

Lemma heap_get_set (h : list (nat * list vec)) i j p :
  heap_get (heap_set h i p) j = if Nat.eqb j i then p else heap_get h j.
Proof.
  induction h as [|[k q] h IH]; simpl.
  - destruct (Nat.eqb j i); reflexivity.
  - destruct (Nat.eqb i k) eqn:E; simpl.
    + apply Nat.eqb_eq in E; subst. destruct (Nat.eqb j k); reflexivity.
    + destruct (Nat.eqb j k) eqn:E2.
      * apply Nat.eqb_eq in E2; subst. rewrite Nat.eqb_sym, E. reflexivity.
      * apply IH.
Qed.

Lemma fresh_id_set (h : list (nat * list vec)) i p :
  fresh_id (heap_set h i p) = Nat.max (S i) (fresh_id h).
Proof.
  induction h as [|[k q] h IH]; cbn [heap_set].
  - reflexivity.
  - destruct (Nat.eqb i k) eqn:E.
    + apply Nat.eqb_eq in E; subst. unfold fresh_id; cbn [fold_right fst]. lia.
    + unfold fresh_id in *; cbn [fold_right fst]. rewrite IH. lia.
Qed.

Lemma fresh_id_fold (f : list vec -> list vec) l (h : list (nat * list vec)) :
  fresh_id h <= fresh_id (fold_left (fun h i => heap_set h i (f (heap_get h i))) l h).
Proof.
  revert h; induction l as [|i l IH]; intro h; simpl; [lia|].
  etransitivity; [|apply IH]. rewrite fresh_id_set. lia.
Qed.

Lemma keeps_refl m : NoDup (submobjects m) -> keeps m m.
Proof. intro. unfold keeps; repeat split; auto. Qed.

Lemma keeps_trans m1 m2 m3 : keeps m1 m2 -> keeps m2 m3 -> keeps m1 m3.
Proof.
  unfold keeps. intros (a1&a2&a3&a4&a5&a6) (b1&b2&b3&b4&b5&b6).
  repeat split; try congruence; try lia; auto.
  - intro H. apply a4, b4, H.
  - intro H. apply b4, a4, H.
Qed.

Lemma keeps_apf f m : NoDup (submobjects m) -> keeps m (apply_points_function f m).
Proof.
  intro H. unfold keeps; simpl. repeat split; auto. apply fresh_id_fold.
Qed.

Lemma keeps_with_points m p : NoDup (submobjects m) -> keeps m (with_points m p).
Proof. intro. unfold keeps; simpl; repeat split; auto. Qed.

Lemma keeps_with_start_end m s e : NoDup (submobjects m) -> keeps m (with_start_end m s e).
Proof. intro. unfold keeps; simpl; repeat split; auto. Qed.

Lemma keeps_with_stroke_width m w : NoDup (submobjects m) -> keeps m (with_stroke_width m w).
Proof. intro. unfold keeps; simpl; repeat split; auto. Qed.

Lemma wf_keeps m m' : wf m -> keeps m m' -> wf m'.
Proof.
  unfold wf, keeps. intros (w1&w2&w3&w4) (a1&a2&a3&a4&a5&a6).
  repeat split; auto.
  - intros j Hj. apply a4 in Hj. apply w2 in Hj. lia.
  - intros j Hj. rewrite a2 in Hj. apply w3 in Hj. lia.
  - intros j Hj. rewrite a3 in Hj. apply w4 in Hj. lia.
Qed.

Lemma bind_ok {A B} (x : result A) (k : A -> result B) b :
  bind x k = Ok b -> exists a, x = Ok a /\ k a = Ok b.
Proof. destruct x; simpl; intro H; [eauto | discriminate]. Qed.

Lemma keeps_account_for_buff m m' :
  NoDup (submobjects m) -> account_for_buff m = Ok m' -> keeps m m'.
Proof.
  intros Hn. unfold account_for_buff.
  destruct (seqb (buff m) s0); [intro H; inversion H; subst; apply keeps_refl; auto|].
  intro H. apply bind_ok in H. destruct H as (len & _ & H).
  destruct (sltb len _); inversion H; subst.
  - apply keeps_refl; auto.
  - apply keeps_with_points; auto.
Qed.

Lemma keeps_Line_generate_points m m' :
  NoDup (submobjects m) -> Line_generate_points m = Ok m' -> keeps m m'.
Proof.
  intros Hn. unfold Line_generate_points. intro H.
  apply bind_ok in H. destruct H as (m1 & H1 & H2).
  assert (K : keeps m m1).
  { destruct (truthy (path_arc m)).
    - apply bind_ok in H1. destruct H1 as (arc & _ & H1). inversion H1; subst.
      apply keeps_with_points; auto.
    - inversion H1; subst. apply keeps_with_points; auto. }
  eapply keeps_trans; [exact K|]. apply keeps_account_for_buff; auto. apply K.
Qed.

Lemma keeps_Mobject_puts scale m s e m' :
  NoDup (submobjects m) ->
  (forall f a m1, scale m f a = Ok m1 -> keeps m m1) ->
  Mobject_put_start_and_end_on scale m s e = Ok m' -> keeps m m'.
Proof.
  intros Hn Hs H. unfold Mobject_put_start_and_end_on in H.
  apply bind_ok in H. destruct H as (se & _ & H).
  destruct (veqb _ _); [discriminate|].
  apply bind_ok in H. destruct H as (m1 & H1 & H). inversion H; subst.
  pose proof (Hs _ _ _ H1) as K1.
  eapply keeps_trans; [exact K1|].
  eapply keeps_trans; [apply keeps_apf; apply K1|].
  apply keeps_apf. simpl. apply K1.
Qed.

Lemma pop_tips_S n m :
  pop_tips (S n) m =
  (se <- get_start_and_end m ;;
   m' <- put_start_and_end_on n (fst (detach m)) (fst se) (snd se) ;;
   Ok (m', snd (detach m))).
Proof.
  cbn [pop_tips]. unfold detach.
  destruct (get_start_and_end m) as [se|]; [|reflexivity]. cbn [bind].
  destruct (has_tip m); cbn [fst snd];
    match goal with |- context [has_start_tip ?x] => destruct (has_start_tip x) end;
    reflexivity.
Qed.

Lemma add_tip_S n m tl at_start :
  add_tip (S n) m tl at_start =
  (tip_ <- create_tip m tl at_start ;;
   len <- get_length m ;;
   m1 <- (if seqb len s0 then Ok m
          else if at_start
          then e <- get_end m ;; put_start_and_end_on n m (ArrowTip_get_base tip_) e
          else s <- get_start m ;; put_start_and_end_on n m s (ArrowTip_get_base tip_)) ;;
   Ok (add (fst (asign_tip_attr m1 tip_ at_start)) (snd (asign_tip_attr m1 tip_ at_start)))).
Proof. reflexivity. Qed.

Lemma put_start_and_end_on_S n m s e :
  put_start_and_end_on (S n) m s e =
  match cls m with
  | KLine | KArrow =>
      se <- get_start_and_end m ;;
      m <- (if veqb (fst se) (snd se)
            then Line_generate_points (with_start_end m s e)
            else Ok m) ;;
      Mobject_put_start_and_end_on (scale n) m s e
  | _ => Mobject_put_start_and_end_on (scale n) m s e
  end.
Proof. reflexivity. Qed.

Lemma scale_S n m factor about_point :
  scale (S n) m factor about_point =
  match cls m with
  | KArrow =>
      len <- get_length m ;;
      if seqb len s0 then Ok m
      else
        mo <- (if has_tip m || has_start_tip m then pop_tips n m else Ok (m, [])) ;;
        let '(m0, old_tips) := mo in
        m1 <- set_stroke_width_from_length
                (Mobject_scale m0 factor about_point) ;;
        m2 <- (if has_tip m
               then m2 <- add_tip n m1 None false ;;
                    old0 <- index old_tips 0 ;;
                    Ok (readd m2 old0 false)
               else Ok m1) ;;
        (if has_start_tip m
         then m3 <- add_tip n m2 None true ;;
              old1 <- index old_tips 1 ;;
              Ok (readd m3 old1 true)
         else Ok m2)
  | _ => Ok (Mobject_scale m factor about_point)
  end.
Proof. reflexivity. Qed.

Lemma mem_In i l : mem i l = true <-> In i l.
Proof.
  unfold mem. rewrite existsb_exists. split.
  - intros (x & Hx & E). apply Nat.eqb_eq in E. subst. exact Hx.
  - intro H. exists i. split; [exact H | apply Nat.eqb_refl].
Qed.

Lemma In_remove_first i j l :
  NoDup l -> (In j (remove_first i l) <-> In j l /\ j <> i).
Proof.
  induction l as [|k l IH]; intro Hn; simpl; [tauto|].
  inversion Hn as [|? ? Hk Hn']; subst.
  destruct (Nat.eqb i k) eqn:E.
  - apply Nat.eqb_eq in E; subst. split.
    + intro H. split; [auto|]. intro; subst. contradiction.
    + intros [[H|H] Hne]; [congruence | exact H].
  - apply Nat.eqb_neq in E. simpl. rewrite (IH Hn'). split.
    + intros [H|H]; [subst; split; auto | tauto].
    + intros [[H|H] Hne]; [left; exact H | right; tauto].
Qed.

Lemma NoDup_remove_first i l : NoDup l -> NoDup (remove_first i l).
Proof.
  induction l as [|k l IH]; intro Hn; simpl; [constructor|].
  inversion Hn as [|? ? Hk Hn']; subst.
  destruct (Nat.eqb i k); [exact Hn'|].
  constructor; [|apply IH; exact Hn'].
  intro H. apply (@In_remove_first i k l Hn') in H. tauto.
Qed.

Lemma remove_first_app_last i l : ~ In i l -> remove_first i (l ++ [i]) = l.
Proof.
  induction l as [|k l IH]; intro H; simpl.
  - rewrite Nat.eqb_refl. reflexivity.
  - destruct (Nat.eqb i k) eqn:E.
    + apply Nat.eqb_eq in E. subst. exfalso. apply H. left. reflexivity.
    + f_equal. apply IH. intro. apply H. right. assumption.
Qed.

Lemma In_update i j l :
  In j (filter (fun k => negb (Nat.eqb k i)) l ++ [i]) <-> (In j l /\ j <> i) \/ j = i.
Proof.
  rewrite in_app_iff, filter_In. simpl. split.
  - intros [[H E]|[H|[]]]; [left; split; auto | right; auto].
    apply negb_true_iff, Nat.eqb_neq in E. exact E.
  - intros [[H E]|H]; [left; split; auto | right; left; auto].
    apply negb_true_iff, Nat.eqb_neq. exact E.
Qed.

Lemma NoDup_update i l :
  NoDup l -> NoDup (filter (fun k => negb (Nat.eqb k i)) l ++ [i]).
Proof.
  intro H. apply NoDup_app; [apply NoDup_filter; exact H | repeat constructor; simpl; tauto |].
  intros x Hx [E|[]]. subst. apply filter_In in Hx. destruct Hx as [_ Hx].
  rewrite Nat.eqb_refl in Hx. discriminate.
Qed.

Lemma has_tip_true m :
  has_tip m = true <-> exists t, tip m = Some t /\ In t (submobjects m).
Proof.
  unfold has_tip, hasattr, is_child. destruct (tip m) as [t|]; simpl.
  - rewrite mem_In. split; [eauto | intros (t' & E & H); congruence].
  - split; [discriminate | intros (t' & E & _); discriminate].
Qed.

Lemma has_start_tip_true m :
  has_start_tip m = true <-> exists t, start_tip m = Some t /\ In t (submobjects m).
Proof.
  unfold has_start_tip, hasattr, is_child. destruct (start_tip m) as [t|]; simpl.
  - rewrite mem_In. split; [eauto | intros (t' & E & H); congruence].
  - split; [discriminate | intros (t' & E & _); discriminate].
Qed.

Lemma has_tip_false m :
  has_tip m = false <-> forall t, tip m = Some t -> ~ In t (submobjects m).
Proof.
  rewrite <- not_true_iff_false, has_tip_true. split.
  - intros H t E Hin. apply H. eauto.
  - intros H (t & E & Hin). exact (H t E Hin).
Qed.

Lemma has_start_tip_false m :
  has_start_tip m = false <-> forall t, start_tip m = Some t -> ~ In t (submobjects m).
Proof.
  rewrite <- not_true_iff_false, has_start_tip_true. split.
  - intros H t E Hin. apply H. eauto.
  - intros H (t & E & Hin). exact (H t E Hin).
Qed.

Lemma detach_spec m :
  NoDup (submobjects m) ->
  let m1 := fst (detach m) in
  cls m1 = cls m /\ tip m1 = tip m /\ start_tip m1 = start_tip m
  /\ heap m1 = heap m /\ NoDup (submobjects m1)
  /\ (forall j, In j (submobjects m1) <->
        In j (submobjects m)
        /\ ~ (has_tip m = true /\ tip m = Some j)
        /\ ~ (has_start_tip m = true /\ start_tip m = Some j))
  /\ has_tip m1 = false /\ has_start_tip m1 = false.
Proof.
  intro Hn. unfold detach.
  destruct (has_tip m) eqn:Ht.
  - pose proof Ht as Ht'. apply has_tip_true in Ht'. destruct Ht' as (t & Et & Hint).
    replace (remove_attr m (tip m)) with (remove m t) by (rewrite Et; reflexivity).
    set (ma := remove m t).
    assert (Hma : forall j, In j (submobjects ma) <-> In j (submobjects m) /\ j <> t)
      by (intro j; apply In_remove_first; exact Hn).
    assert (Hnma : NoDup (submobjects ma)) by (apply NoDup_remove_first; exact Hn).
    destruct (has_start_tip ma) eqn:Hs.
    + pose proof Hs as Hs'. apply has_start_tip_true in Hs'.
      destruct Hs' as (st & Es & Hinst). change (start_tip ma) with (start_tip m) in Es.
      replace (remove_attr ma (start_tip ma)) with (remove ma st)
        by (change (start_tip ma) with (start_tip m); rewrite Es; reflexivity).
      cbn [fst].
      assert (Hne : st <> t) by (apply Hma in Hinst; tauto).
      assert (Hst : has_start_tip m = true).
      { apply has_start_tip_true. exists st. split; [exact Es|]. apply Hma in Hinst. tauto. }
      assert (Hm1 : forall j, In j (submobjects (remove ma st)) <->
                              In j (submobjects m) /\ j <> t /\ j <> st).
      { intro j. unfold remove at 1. cbn [submobjects with_submobjects].
        rewrite (@In_remove_first st j (submobjects ma) Hnma), Hma. tauto. }
      split; [reflexivity|]. split; [reflexivity|]. split; [reflexivity|].
      split; [reflexivity|].
      split; [apply NoDup_remove_first; exact Hnma|].
      split.
      { intro j. rewrite Hm1. rewrite Et, Es. split.
        - intros (H1 & H2 & H3). split; [exact H1|]. split; intros [_ E]; congruence.
        - intros (H1 & H2 & H3). split; [exact H1|]. split; intro; subst; tauto. }
      split.
      { apply has_tip_false. intros t' E. change (tip (remove ma st)) with (tip m) in E.
        rewrite Hm1. assert (t' = t) by congruence. tauto. }
      { apply has_start_tip_false. intros t' E.
        change (start_tip (remove ma st)) with (start_tip m) in E.
        rewrite Hm1. assert (t' = st) by congruence. tauto. }
    + cbn [fst]. change (start_tip ma) with (start_tip m) in *.
      split; [reflexivity|]. split; [reflexivity|]. split; [reflexivity|].
      split; [reflexivity|]. split; [exact Hnma|].
      split.
      { intro j. rewrite Hma, Et. split.
        - intros (H1 & H2). split; [exact H1|]. split.
          + intros [_ E]; congruence.
          + intros [Hst E].
            pose proof (proj1 (has_start_tip_false ma) Hs) as Hs'.
            apply (Hs' j E). apply Hma. tauto.
        - intros (H1 & H2 & H3). split; [exact H1|]. intro; subst; tauto. }
      split; [|exact Hs].
      apply has_tip_false. intros t' E. change (tip ma) with (tip m) in E.
      rewrite Hma. assert (t' = t) by congruence. tauto.
  - destruct (has_start_tip m) eqn:Hs.
    + pose proof Hs as Hs'. apply has_start_tip_true in Hs'.
      destruct Hs' as (st & Es & Hinst).
      replace (remove_attr m (start_tip m)) with (remove m st) by (rewrite Es; reflexivity).
      cbn [fst].
      assert (Hms : forall j, In j (submobjects (remove m st)) <-> In j (submobjects m) /\ j <> st)
        by (intro j; apply In_remove_first; exact Hn).
      split; [reflexivity|]. split; [reflexivity|]. split; [reflexivity|].
      split; [reflexivity|]. split; [apply NoDup_remove_first; exact Hn|].
      split.
      { intro j. rewrite Hms, Es. split.
        - intros (H1 & H2). split; [exact H1|]. split.
          + intros [E _]; discriminate.
          + intros [_ E]; congruence.
        - intros (H1 & H2 & H3). split; [exact H1|]. intro; subst; tauto. }
      split.
      { apply has_tip_false. intros t' E. change (tip (remove m st)) with (tip m) in E.
        rewrite Hms. pose proof (proj1 (has_tip_false m) Ht t' E). tauto. }
      { apply has_start_tip_false. intros t' E.
        change (start_tip (remove m st)) with (start_tip m) in E.
        rewrite Hms. assert (t' = st) by congruence. tauto. }
    + cbn [fst].
      split; [reflexivity|]. split; [reflexivity|]. split; [reflexivity|].
      split; [reflexivity|]. split; [exact Hn|].
      split; [|split; assumption].
      intro j. split; [|tauto]. intro H. split; [exact H|].
      split; intros [E _]; discriminate.
Qed.

Lemma detach_tips_0 m :
  has_tip m = true -> exists t, tip m = Some t /\ index (snd (detach m)) 0 = Ok t.
Proof.
  intro Ht. pose proof Ht as Ht'. apply has_tip_true in Ht'.
  destruct Ht' as (t & Et & _). exists t. split; [exact Et|].
  unfold detach. rewrite Ht, Et. cbn [vgroup_add filter app remove_attr].
  destruct (has_start_tip (remove m t)); cbn [snd]; [|reflexivity].
  unfold vgroup_add. change (start_tip (remove m t)) with (start_tip m).
  destruct (start_tip m) as [st|]; [|reflexivity].
  cbn [filter]. destruct (Nat.eqb t st) eqn:E; cbn [negb app]; [|reflexivity].
  apply Nat.eqb_eq in E. subst. reflexivity.
Qed.

Lemma detach_tips_1 m x :
  NoDup (submobjects m) ->
  index (snd (detach m)) 1 = Ok x ->
  has_tip m = true /\ has_start_tip m = true /\ start_tip m = Some x
  /\ tip m <> Some x.
Proof.
  intros Hn. unfold detach. destruct (has_tip m) eqn:Ht.
  - pose proof Ht as Ht'. apply has_tip_true in Ht'.
    destruct Ht' as (t & Et & Hin). rewrite Et. cbn [vgroup_add filter app remove_attr].
    destruct (has_start_tip (remove m t)) eqn:Hs; cbn [snd]; [|discriminate].
    pose proof (proj1 (has_start_tip_true (remove m t)) Hs) as (st & Es & Hinst).
    change (start_tip (remove m t)) with (start_tip m) in *.
    rewrite Es. unfold vgroup_add. cbn [filter].
    apply (@In_remove_first t st (submobjects m) Hn) in Hinst.
    destruct (Nat.eqb t st) eqn:E; cbn [negb app]; [discriminate|].
    cbn. intro H. inversion H; subst.
    split; [reflexivity|]. split; [|split; [reflexivity|]].
    + apply has_start_tip_true. exists x. tauto.
    + apply Nat.eqb_neq in E. congruence.
  - destruct (has_start_tip m) eqn:Hs; cbn [snd].
    + pose proof (proj1 (has_start_tip_true m) Hs) as (st & Es & _).
      rewrite Es. cbn. discriminate.
    + discriminate.
Qed.

Lemma wf_detach m : wf m -> wf (fst (detach m)).
Proof.
  intros (w1 & w2 & w3 & w4).
  destruct (detach_spec m w1) as (d1 & d2 & d3 & d4 & d5 & d6 & _).
  unfold wf. rewrite d2, d3, d4. repeat split; auto.
  intros j Hj. apply d6 in Hj. apply w2. tauto.
Qed.

Lemma readd_spec m1 m2 old at_start :
  wf m1 -> added m1 at_start m2 ->
  (if at_start then start_tip m1 = Some old else tip m1 = Some old) ->
  ~ In old (submobjects m1) ->
  let m3 := readd m2 old at_start in
  wf m3 /\ cls m3 = cls m1 /\ tip m3 = tip m1 /\ start_tip m3 = start_tip m1
  /\ (forall j, In j (submobjects m3) <-> In j (submobjects m1) \/ j = old)
  /\ fresh_id (heap m1) <= fresh_id (heap m3).
Proof.
  intros (w1 & w2 & w3 & w4) (Hc & i & l & Hi1 & Hi2 & Hattr & Hsub & Hil & Hnl & Hl) Hold Hnin.
  assert (Holdlt : old < fresh_id (heap m1)) by (destruct at_start; auto).
  assert (Hsubm : submobjects (readd m2 old at_start)
                  = filter (fun k => negb (Nat.eqb k old)) l ++ [old]).
  { unfold readd. destruct at_start; destruct Hattr as [E1 E2];
      cbn [start_tip tip with_heap]; rewrite E1; cbn [remove_attr];
      unfold add, remove; cbn [submobjects with_submobjects with_start_tip with_tip with_heap];
      rewrite Hsub, remove_first_app_last by exact Hil; reflexivity. }
  assert (Hheap : fresh_id (heap (readd m2 old at_start))
                  = Nat.max (S old) (fresh_id (heap m2))).
  { unfold readd. destruct at_start; destruct Hattr as [E1 E2];
      cbn [start_tip tip with_heap]; rewrite E1; cbn [remove_attr];
      unfold add, remove; cbn [heap with_submobjects with_start_tip with_tip with_heap];
      apply fresh_id_set. }
  assert (Hmem : forall j, In j (submobjects (readd m2 old at_start))
                           <-> In j (submobjects m1) \/ j = old).
  { intro j. rewrite Hsubm, In_update, Hl. split.
    - intros [[H _]|H]; auto.
    - intros [H|H]; [left; split; [exact H | intro; subst; contradiction] | right; exact H]. }
  assert (Hattrs : tip (readd m2 old at_start) = tip m1
                   /\ start_tip (readd m2 old at_start) = start_tip m1).
  { unfold readd. destruct at_start; destruct Hattr as [E1 E2];
      cbn [start_tip tip with_heap]; rewrite E1; cbn [remove_attr];
      unfold add, remove;
      cbn [start_tip tip with_submobjects with_start_tip with_tip with_heap];
      split; congruence. }
  cbv zeta. split; [|split; [|split; [|split; [|split]]]].
  - unfold wf. rewrite Hheap. destruct Hattrs as [A1 A2]. rewrite A1, A2.
    split; [rewrite Hsubm; apply NoDup_update; exact Hnl|].
    split; [|split].
    + intros j Hj. apply Hmem in Hj. destruct Hj as [Hj|Hj]; [apply w2 in Hj|]; lia.
    + intros j Hj. apply w3 in Hj. lia.
    + intros j Hj. apply w4 in Hj. lia.
  - unfold readd. destruct at_start; destruct Hattr as [E1 E2];
      cbn [start_tip tip with_heap]; rewrite E1; exact Hc.
  - apply Hattrs.
  - apply Hattrs.
  - exact Hmem.
  - rewrite Hheap. lia.
Qed.

Lemma keeps_stroke m m' :
  NoDup (submobjects m) -> set_stroke_width_from_length m = Ok m' -> keeps m m'.
Proof.
  intros Hn H. unfold set_stroke_width_from_length in H.
  apply bind_ok in H. destruct H as (len & _ & H). inversion H; subst.
  apply keeps_with_stroke_width; exact Hn.
Qed.

Lemma added_wf m at_start m' : wf m -> added m at_start m' -> wf m'.
Proof.
  intros (w1 & w2 & w3 & w4) (Hc & i & l & Hi1 & Hi2 & Hattr & Hsub & Hil & Hnl & Hl).
  unfold wf. rewrite Hsub. split; [|split; [|split]].
  - apply NoDup_app; [exact Hnl | repeat constructor; simpl; tauto |].
    intros x Hx [E|[]]. subst. contradiction.
  - intros j Hj. apply in_app_iff in Hj. destruct Hj as [Hj|[Hj|[]]].
    + apply Hl, w2 in Hj. lia.
    + subst. exact Hi2.
  - intros j Hj. destruct at_start; destruct Hattr as [E1 E2].
    + rewrite E2 in Hj. apply w3 in Hj. lia.
    + rewrite E1 in Hj. inversion Hj; subst. exact Hi2.
  - intros j Hj. destruct at_start; destruct Hattr as [E1 E2].
    + rewrite E1 in Hj. inversion Hj; subst. exact Hi2.
    + rewrite E2 in Hj. apply w4 in Hj. lia.
Qed.

Lemma asign_add_spec m m1 tip_ at_start :
  wf m -> keeps m m1 ->
  added m at_start
    (add (fst (asign_tip_attr m1 tip_ at_start)) (snd (asign_tip_attr m1 tip_ at_start))).
Proof.
  intros Hw K. pose proof (wf_keeps Hw K) as (w1 & w2 & w3 & w4).
  destruct K as (k1 & k2 & k3 & k4 & k5 & k6).
  unfold asign_tip_attr. cbn [fst snd].
  set (i := fresh_id (heap m1)).
  split; [destruct at_start; exact k1|].
  exists i, (filter (fun k => negb (Nat.eqb k i)) (submobjects m1)).
  split; [exact k6|].
  split; [destruct at_start; unfold add;
          cbn [heap with_submobjects with_start_tip with_tip with_heap];
          rewrite fresh_id_set; fold i; lia|].
  split; [destruct at_start; unfold add;
          cbn [tip start_tip with_submobjects with_start_tip with_tip with_heap]; auto|].
  split; [destruct at_start; reflexivity|].
  split; [intro H; apply filter_In in H; destruct H as [_ H];
          rewrite Nat.eqb_refl in H; discriminate|].
  split; [apply NoDup_filter; exact w1|].
  intro j. rewrite filter_In, <- k4. split; [tauto|].
  intro H. split; [exact H|]. apply negb_true_iff, Nat.eqb_neq.
  apply w2 in H. fold i in H. lia.
Qed.

Lemma protocol_inv n :
  (forall m f a m', wf m -> scale n m f a = Ok m' -> keeps m m')
  /\ (forall m s e m', wf m -> put_start_and_end_on n m s e = Ok m' -> keeps m m')
  /\ (forall m m' r, wf m -> pop_tips n m = Ok (m', r) -> popped m m' r)
  /\ (forall m tl at_start m', wf m -> add_tip n m tl at_start = Ok m' ->
        added m at_start m').
Proof.
  induction n as [|n (IHs & IHp & IHt & IHa)].
  { repeat split; intros; discriminate. }
  assert (P : forall m s e m', wf m -> put_start_and_end_on (S n) m s e = Ok m' -> keeps m m').
  { intros m s e m' Hw H. rewrite put_start_and_end_on_S in H.
    assert (G : forall m0, wf m0 ->
                  Mobject_put_start_and_end_on (scale n) m0 s e = Ok m' -> keeps m0 m').
    { intros m0 Hw0 H0. eapply keeps_Mobject_puts; [apply Hw0| |exact H0].
      intros f a m1 H1. apply (IHs _ _ _ _ Hw0 H1). }
    assert (L : (se <- get_start_and_end m ;;
                 m0 <- (if veqb (fst se) (snd se)
                        then Line_generate_points (with_start_end m s e)
                        else Ok m) ;;
                 Mobject_put_start_and_end_on (scale n) m0 s e) = Ok m' -> keeps m m').
    { intro H0. apply bind_ok in H0. destruct H0 as (se & _ & H0).
      apply bind_ok in H0. destruct H0 as (m0 & H1 & H0).
      assert (K : keeps m m0).
      { destruct (veqb (fst se) (snd se)).
        - eapply keeps_trans; [apply keeps_with_start_end; apply Hw|].
          apply keeps_Line_generate_points; [apply Hw | exact H1].
        - inversion H1; subst. apply keeps_refl, Hw. }
      eapply keeps_trans; [exact K|]. apply G; [|exact H0].
      eapply wf_keeps; eauto. }
    destruct (cls m); auto. }
  assert (A : forall m tl at_start m', wf m -> add_tip (S n) m tl at_start = Ok m' ->
                added m at_start m').
  { intros m tl at_start m' Hw H. rewrite add_tip_S in H.
    apply bind_ok in H. destruct H as (tip_ & _ & H).
    apply bind_ok in H. destruct H as (len & _ & H).
    apply bind_ok in H. destruct H as (m1 & H1 & H). inversion H; subst.
    apply asign_add_spec; [exact Hw|].
    destruct (seqb len s0).
    - inversion H1; subst. apply keeps_refl, Hw.
    - destruct at_start; apply bind_ok in H1; destruct H1 as (x & _ & H1);
        apply (IHp _ _ _ _ Hw H1). }
  assert (T : forall m m' r, wf m -> pop_tips (S n) m = Ok (m', r) -> popped m m' r).
  { intros m m' r Hw H. rewrite pop_tips_S in H.
    apply bind_ok in H. destruct H as (se & _ & H).
    apply bind_ok in H. destruct H as (m1 & H1 & H). inversion H; subst.
    split; [|reflexivity]. apply (IHp _ _ _ _ (wf_detach Hw) H1). }
  split; [|split; [exact P | split; [exact T | exact A]]].
  intros m f a m' Hw H. rewrite scale_S in H.
  assert (Plain : keeps m (Mobject_scale m f a)) by (apply keeps_apf, Hw).
  destruct (cls m) eqn:Hcls; try (inversion H; subst; exact Plain).
  apply bind_ok in H. destruct H as (len & _ & H).
  destruct (seqb len s0); [inversion H; subst; apply keeps_refl, Hw|].
  apply bind_ok in H. destruct H as ([m0 old] & Hpop & H).
  apply bind_ok in H. destruct H as (m1 & Hstroke & H).
  apply bind_ok in H. destruct H as (m2 & Hadd & H).
  pose proof Hw as (w1 & w2 & w3 & w4).
  destruct (detach_spec m w1) as (d1 & d2 & d3 & d4 & d5 & d6 & d7 & d8).
  assert (K0 : keeps (fst (detach m)) m0
               /\ (has_tip m || has_start_tip m = true -> old = snd (detach m))).
  { destruct (has_tip m || has_start_tip m) eqn:E.
    - destruct (IHt _ _ _ Hw Hpop) as [K E']. split; [exact K | intros _; exact E'].
    - inversion Hpop; subst. apply orb_false_iff in E. destruct E as [E1 E2].
      unfold detach. rewrite E1, E2. cbn [fst]. split; [apply keeps_refl, w1 | discriminate]. }
  destruct K0 as [K0 Hold].
  assert (K1 : keeps (fst (detach m)) m1).
  { eapply keeps_trans; [exact K0|].
    eapply keeps_trans; [apply keeps_apf; apply K0|].
    apply keeps_stroke; [|exact Hstroke]. apply K0. }
  pose proof (wf_keeps (wf_detach Hw) K1) as Hw1.
  assert (M1 : forall j, In j (submobjects m1) <->
                 In j (submobjects m) /\ ~ (has_tip m = true /\ tip m = Some j)
                 /\ ~ (has_start_tip m = true /\ start_tip m = Some j)).
  { intro j. destruct K1 as (_ & _ & _ & k4 & _). rewrite k4. apply d6. }
  assert (T1 : tip m1 = tip m) by (destruct K1 as (_ & k2 & _); congruence).
  assert (S1 : start_tip m1 = start_tip m) by (destruct K1 as (_ & _ & k3 & _); congruence).
  assert (C1 : cls m1 = cls m) by (destruct K1 as (k1 & _); congruence).
  assert (F1 : fresh_id (heap m) <= fresh_id (heap m1))
    by (destruct K1 as (_ & _ & _ & _ & _ & k6); rewrite d4 in k6; exact k6).
  (* the end tip *)
  assert (K2 : wf m2 /\ cls m2 = cls m /\ tip m2 = tip m /\ start_tip m2 = start_tip m
               /\ fresh_id (heap m) <= fresh_id (heap m2)
               /\ (forall j, In j (submobjects m2) <->
                     (In j (submobjects m)
                      /\ ~ (has_tip m = true /\ tip m = Some j)
                      /\ ~ (has_start_tip m = true /\ start_tip m = Some j))
                     \/ (has_tip m = true /\ tip m = Some j))).
  { destruct (has_tip m) eqn:Ht.
    - apply bind_ok in Hadd. destruct Hadd as (m2' & Hadd & Hre).
      apply bind_ok in Hre. destruct Hre as (old0 & Hidx & Hre).
      injection Hre as Hre. subst m2.
      repeat match goal with
      | |- context [add ?x old0] => change (add x old0) with (readd m2' old0 false)
      | H0 : context [add ?x old0] |- _ =>
          change (add x old0) with (readd m2' old0 false) in H0
      end.
      destruct (detach_tips_0 m Ht) as (t & Et & Hidx').
      rewrite (Hold eq_refl) in Hidx. rewrite Hidx' in Hidx. inversion Hidx; subst.
      pose proof (IHa _ _ _ _ Hw1 Hadd) as Had.
      assert (Hnin : ~ In old0 (submobjects m1)).
      { intro Hin. apply M1 in Hin. tauto. }
      assert (Hx : tip m1 = Some old0) by congruence.
      destruct (@readd_spec m1 m2' old0 false Hw1 Had Hx Hnin)
        as (r1 & r2 & r3 & r4 & r5 & r6).
      split; [exact r1|]. split; [congruence|]. split; [congruence|].
      split; [congruence|]. split; [lia|].
      intro j. rewrite r5, M1. split.
      + intros [X|X]; [left; exact X | right; split; [reflexivity | congruence]].
      + intros [X|[_ X]]; [left; exact X | right; congruence].
    - inversion Hadd; subst. split; [exact Hw1|]. split; [exact C1|].
      split; [exact T1|]. split; [exact S1|]. split; [exact F1|].
      intro j. rewrite M1. split; [tauto|]. intros [X|[X _]]; [exact X | discriminate]. }
  destruct K2 as (Hw2 & C2 & T2 & S2 & F2 & M2).
  assert (Final : forall j, In j (submobjects m) ->
            ~ (has_tip m = true /\ tip m = Some j) ->
            (has_tip m = true -> False) \/ True) by (intros; right; exact I).
  clear Final.
  destruct (has_start_tip m) eqn:Hs.
  - apply bind_ok in H. destruct H as (m3 & Hadd3 & Hre).
    apply bind_ok in Hre. destruct Hre as (old1 & Hidx & Hre).
    injection Hre as Hre. subst m'.
    repeat match goal with
    | |- context [add ?x old1] => change (add x old1) with (readd m3 old1 true)
    end.
    assert (Hor : has_tip m || true = true) by apply orb_true_r.
    rewrite (Hold Hor) in Hidx.
    destruct (@detach_tips_1 m old1 w1 Hidx) as (Ht & _ & Es & Hne).
    pose proof (IHa _ _ _ _ Hw2 Hadd3) as Had.
    assert (Hnin : ~ In old1 (submobjects m2)).
    { intro Hin. apply M2 in Hin. destruct Hin as [Hin|[_ Hin]]; [tauto | congruence]. }
    assert (Hx : start_tip m2 = Some old1) by congruence.
    destruct (@readd_spec m2 m3 old1 true Hw2 Had Hx Hnin)
      as (r1 & r2 & r3 & r4 & r5 & r6).
    unfold keeps. split; [congruence|]. split; [congruence|]. split; [congruence|].
    split; [|split; [apply r1 | lia]].
    intro j. rewrite r5, M2. split.
    + intros [[H|[_ H]]|H].
      * tauto.
      * apply has_tip_true in Ht. destruct Ht as (t & Et & Hin). congruence.
      * subst. apply has_start_tip_true in Hs. destruct Hs as (t & Et & Hin). congruence.
    + intro Hin.
      destruct (Nat.eq_dec j old1) as [E|E]; [right; exact E|]. left.
      destruct (tip m) as [t|] eqn:Et.
      * destruct (Nat.eq_dec j t) as [E'|E'].
        -- right. split; [exact Ht | congruence].
        -- left. split; [exact Hin|]. split; intros [_ X]; congruence.
      * left. split; [exact Hin|]. split; intros [_ X]; congruence.
  - inversion H; subst.
    unfold keeps. split; [congruence|]. split; [congruence|]. split; [congruence|].
    split; [|split; [apply Hw2 | lia]].
    intro j. rewrite M2. split.
    + intros [H1|[Ht H1]]; [tauto|].
      apply has_tip_true in Ht. destruct Ht as (t & Et & Hin). congruence.
    + intro Hin. destruct (has_tip m) eqn:Ht.
      * destruct (tip m) as [t|] eqn:Et.
        -- destruct (Nat.eq_dec j t) as [E'|E'].
           ++ right. split; [reflexivity | congruence].
           ++ left. split; [exact Hin|]. split; intros [X Y]; congruence.
        -- left. split; [exact Hin|]. split; intros [X Y]; congruence.
      * left. split; [exact Hin|]. split; intros [X Y]; congruence.
Qed.

End Structure.

(** ** Ideal arithmetic: comparisons, norms and arguments *)

Section RealArithmetic.
Local Open Scope R_scope.
Local Abbreviation mobR := (@mob R).
Implicit Types m : mobR.

Lemma Reqb_true x y : x = y -> Reqb x y = true.
Proof. intros; unfold Reqb; destruct (Req_dec_T x y); congruence. Qed.
Lemma Reqb_false x y : x <> y -> Reqb x y = false.
Proof. intros; unfold Reqb; destruct (Req_dec_T x y); congruence. Qed.
Lemma Reqb_eq x y : Reqb x y = true <-> x = y.
Proof. unfold Reqb; destruct (Req_dec_T x y); split; congruence. Qed.
Lemma Reqb_neq x y : Reqb x y = false <-> x <> y.
Proof. unfold Reqb; destruct (Req_dec_T x y); split; congruence. Qed.
Lemma Rltb_true x y : x < y -> Rltb x y = true.
Proof. intros; unfold Rltb; destruct (Rlt_dec x y); tauto. Qed.
Lemma Rltb_false x y : ~ x < y -> Rltb x y = false.
Proof. intros; unfold Rltb; destruct (Rlt_dec x y); tauto. Qed.
Lemma Rltb_lt x y : Rltb x y = true <-> x < y.
Proof. unfold Rltb; destruct (Rlt_dec x y); split; (congruence || tauto). Qed.
Lemma Rleb_true x y : x <= y -> Rleb x y = true.
Proof. intros; unfold Rleb; destruct (Rle_dec x y); tauto. Qed.
Lemma Rleb_false x y : ~ x <= y -> Rleb x y = false.
Proof. intros; unfold Rleb; destruct (Rle_dec x y); tauto. Qed.

Lemma vec_eq (a b : vec R) : vx a = vx b -> vy a = vy b -> a = b.
Proof. destruct a, b; simpl; intros; subst; reflexivity. Qed.

Lemma veqb_eq (a b : vec R) : veqb a b = true <-> a = b.
Proof.
  unfold veqb. unsc. rewrite andb_true_iff, !Reqb_eq. split.
  - intros [H1 H2]. apply vec_eq; assumption.
  - intro; subst; auto.
Qed.

Lemma veqb_neq (a b : vec R) : veqb a b = false <-> a <> b.
Proof. rewrite <- not_true_iff_false, veqb_eq. tauto. Qed.

Lemma norm_pos x y : (x <> 0 \/ y <> 0) -> 0 < sqrt (x * x + y * y).
Proof.
  intros H. apply sqrt_lt_R0.
  destruct H as [H|H].
  - assert (0 < x * x) by (destruct (Rtotal_order x 0) as [?|[?|?]]; [nra|lra|nra]). nra.
  - assert (0 < y * y) by (destruct (Rtotal_order y 0) as [?|[?|?]]; [nra|lra|nra]). nra.
Qed.

Lemma norm_sqr x y : sqrt (x * x + y * y) * sqrt (x * x + y * y) = x * x + y * y.
Proof. apply sqrt_sqrt. nra. Qed.

Lemma unit_bound x y : (x <> 0 \/ y <> 0) -> -1 <= x / sqrt (x * x + y * y) <= 1.
Proof.
  intros H. pose proof (norm_pos H) as Hp. pose proof (norm_sqr x y) as Hs.
  set (n := sqrt (x * x + y * y)) in *.
  assert (Habs : x * x <= n * n) by nra.
  assert (-n <= x <= n) by (split; nra).
  split.
  - apply Rmult_le_reg_r with n; [lra|]. unfold Rdiv. rewrite Rmult_assoc, Rinv_l by lra. lra.
  - apply Rmult_le_reg_r with n; [lra|]. unfold Rdiv. rewrite Rmult_assoc, Rinv_l by lra. lra.
Qed.

Lemma cos_Rarg x y : (x <> 0 \/ y <> 0) -> cos (Rarg x y) = x / sqrt (x * x + y * y).
Proof.
  intros H. unfold Rarg. destruct (Rle_dec 0 y).
  - apply cos_acos, unit_bound, H.
  - rewrite cos_neg. apply cos_acos, unit_bound, H.
Qed.

Lemma sin_Rarg x y : (x <> 0 \/ y <> 0) -> sin (Rarg x y) = y / sqrt (x * x + y * y).
Proof.
  intros H. pose proof (norm_pos H) as Hp. pose proof (norm_sqr x y) as Hs.
  pose proof (unit_bound H) as Hb.
  set (n := sqrt (x * x + y * y)) in *.
  assert (Hsq : 1 - (x / n)² = (y / n)²).
  { unfold Rsqr. replace 1 with ((x * x + y * y) / (n * n)) by (rewrite <- Hs; field; lra).
    field. lra. }
  unfold Rarg. fold n. destruct (Rle_dec 0 y).
  - rewrite sin_acos by exact Hb. rewrite Hsq. apply sqrt_Rsqr.
    apply Rmult_le_pos; [lra|]. left. apply Rinv_0_lt_compat. lra.
  - rewrite sin_neg, sin_acos by exact Hb. rewrite Hsq.
    rewrite (Rsqr_neg (y / n)). rewrite sqrt_Rsqr; [lra|].
    assert (0 < - y) by lra. assert (0 < / n) by (apply Rinv_0_lt_compat; lra).
    unfold Rdiv. nra.
Qed.

Lemma vec_nonzero (v : vec R) : v <> ORIGIN -> vx v <> 0 \/ vy v <> 0.
Proof.
  intro H. destruct (Req_dec_T (vx v) 0) as [E|E]; [|left; exact E].
  right. intro E2. apply H. apply vec_eq; assumption.
Qed.

(** cosine and sine of [angle_of_vector] *)
Lemma cos_angle_of_vector (v : vec R) :
  v <> ORIGIN -> cos (angle_of_vector v) = vx v / get_norm v.
Proof.
  intro H. pose proof (vec_nonzero H) as Hn.
  unfold angle_of_vector, get_norm. unsc.
  destruct (Reqb (vx v) 0 && Reqb (vy v) 0) eqn:E.
  - apply andb_true_iff in E. rewrite !Reqb_eq in E. tauto.
  - apply cos_Rarg, Hn.
Qed.

Lemma sin_angle_of_vector (v : vec R) :
  v <> ORIGIN -> sin (angle_of_vector v) = vy v / get_norm v.
Proof.
  intro H. pose proof (vec_nonzero H) as Hn.
  unfold angle_of_vector, get_norm. unsc.
  destruct (Reqb (vx v) 0 && Reqb (vy v) 0) eqn:E.
  - apply andb_true_iff in E. rewrite !Reqb_eq in E. tauto.
  - apply sin_Rarg, Hn.
Qed.

Lemma angle_of_vector_ORIGIN : angle_of_vector (ORIGIN : vec R) = 0.
Proof.
  unfold angle_of_vector, ORIGIN. unsc. cbn [vx vy].
  rewrite !Reqb_true by reflexivity. reflexivity.
Qed.

Lemma get_norm_pos (v : vec R) : v <> ORIGIN -> 0 < get_norm v.
Proof. intro H. unfold get_norm. unsc. apply norm_pos, vec_nonzero, H. Qed.

Lemma get_norm_sqr (v : vec R) : get_norm v * get_norm v = vx v * vx v + vy v * vy v.
Proof. unfold get_norm. unsc. apply norm_sqr. Qed.

Lemma get_norm_ORIGIN : get_norm (ORIGIN : vec R) = 0.
Proof.
  unfold get_norm, ORIGIN. unsc. cbn [vx vy].
  replace (0 * 0 + 0 * 0) with 0 by ring. apply sqrt_0.
Qed.

(** The three moves of [put_start_and_end_on], on one point. *)
Lemma puts_point (a c s t p : vec R) :
  c <> ORIGIN ->
  vadd (vadd (rot (angle_of_vector t - angle_of_vector c)
                (vsub (vadd (vscale (get_norm t / get_norm c) (vsub p a)) a) a)) a)
       (vsub s a)
  = similarity a c s t p.
Proof.
  intro Hc. pose proof (get_norm_pos Hc) as Hcp. pose proof (get_norm_sqr c) as Hcs.
  assert (Hcn : vx c * vx c + vy c * vy c <> 0) by nra.
  destruct (Req_dec_T (vx t) 0) as [Ex|Ex]; [destruct (Req_dec_T (vy t) 0) as [Ey|Ey]|].
  - (* t = 0 *)
    assert (Et : t = ORIGIN) by (apply vec_eq; assumption). subst t.
    rewrite get_norm_ORIGIN.
    unfold similarity, cmul, cdiv, vadd, vsub, vscale, rot, ORIGIN. unsc. cbn [vx vy].
    apply vec_eq; cbn [vx vy]; field; lra.
  - assert (Ht : t <> ORIGIN) by (intro E; subst; apply Ey; reflexivity).
    pose proof (get_norm_pos Ht) as Htp. pose proof (get_norm_sqr t) as Hts.
    unfold similarity, cmul, cdiv, vadd, vsub, vscale, rot. unsc. cbn [vx vy].
    rewrite cos_minus, sin_minus.
    rewrite !cos_angle_of_vector, !sin_angle_of_vector by assumption.
    rewrite <- Hcs.
    apply vec_eq; cbn [vx vy]; field; lra.
  - assert (Ht : t <> ORIGIN) by (intro E; subst; apply Ex; reflexivity).
    pose proof (get_norm_pos Ht) as Htp. pose proof (get_norm_sqr t) as Hts.
    unfold similarity, cmul, cdiv, vadd, vsub, vscale, rot. unsc. cbn [vx vy].
    rewrite cos_minus, sin_minus.
    rewrite !cos_angle_of_vector, !sin_angle_of_vector by assumption.
    rewrite <- Hcs.
    apply vec_eq; cbn [vx vy]; field; lra.
Qed.

End RealArithmetic.

(** ** The shape of an arrow tip *)

Section TipShape.
Local Open Scope R_scope.
Local Abbreviation mobR := (@mob R).
Implicit Types m : mobR.

Lemma sqrt3_pos : 0 < sqrt 3.
Proof. apply sqrt_lt_R0. lra. Qed.

Lemma sqrt3_sqr : sqrt 3 * sqrt 3 = 3.
Proof. apply sqrt_sqrt. lra. Qed.

Lemma cos_4PI3 : cos (4 * (PI / 3)) = - (1 / 2).
Proof.
  replace (4 * (PI / 3)) with (PI / 3 + PI) by field.
  rewrite neg_cos, cos_PI3. reflexivity.
Qed.

Lemma sin_4PI3 : sin (4 * (PI / 3)) = - (sqrt 3 / 2).
Proof.
  replace (4 * (PI / 3)) with (PI / 3 + PI) by field.
  rewrite neg_sin, sin_PI3. reflexivity.
Qed.

Lemma compass_directions_3 :
  compass_directions 3 (rotate_vector (RIGHT : vec R) PI) = tri_vertices.
Proof.
  unfold compass_directions, rotate_vector, rot, RIGHT, TAU, tri_vertices.
  cbn [seq map sofnat]. unsc. cbn [vx vy].
  rewrite cos_PI, sin_PI.
  replace (0 * (2 * PI / (1 + 1 + 1))) with 0 by field.
  replace (1 * (2 * PI / (1 + 1 + 1))) with (2 * (PI / 3)) by field.
  replace ((1 + 1) * (2 * PI / (1 + 1 + 1))) with (4 * (PI / 3)) by field.
  rewrite cos_0, sin_0, cos_2PI3, sin_2PI3, cos_4PI3, sin_4PI3.
  repeat (f_equal; try (apply vec_eq; cbn [vx vy]; lra)).
Qed.

Lemma py_max_Rmax (a b : R) : py_max a b = Rmax a b.
Proof.
  unfold py_max. unsc. unfold Rltb, Rmax.
  destruct (Rlt_dec a b), (Rle_dec a b); try reflexivity; lra.
Qed.

Lemma py_min_Rmin (a b : R) : py_min a b = Rmin a b.
Proof.
  unfold py_min. unsc. unfold Rltb, Rmin.
  destruct (Rlt_dec b a), (Rle_dec a b); try reflexivity; lra.
Qed.

Lemma fold_max_eq (l : list R) (x M : R) :
  In M (x :: l) -> Forall (fun y => y <= M) (x :: l) -> fold_left py_max l x = M.
Proof.
  revert x. induction l as [|y l IH]; intros x Hin Hall; cbn [fold_left].
  - destruct Hin as [E|[]]. exact E.
  - inversion Hall as [|? ? Hx Hall']; subst. inversion Hall' as [|? ? Hy Hall'']; subst.
    apply IH.
    + rewrite py_max_Rmax. destruct Hin as [E|[E|Hin]].
      * subst. left. apply Rmax_left. exact Hy.
      * subst. left. apply Rmax_right. exact Hx.
      * right. exact Hin.
    + constructor; [|exact Hall'']. rewrite py_max_Rmax. apply Rmax_lub; assumption.
Qed.

Lemma fold_min_eq (l : list R) (x M : R) :
  In M (x :: l) -> Forall (fun y => M <= y) (x :: l) -> fold_left py_min l x = M.
Proof.
  revert x. induction l as [|y l IH]; intros x Hin Hall; cbn [fold_left].
  - destruct Hin as [E|[]]. exact E.
  - inversion Hall as [|? ? Hx Hall']; subst. inversion Hall' as [|? ? Hy Hall'']; subst.
    apply IH.
    + rewrite py_min_Rmin. destruct Hin as [E|[E|Hin]].
      * subst. left. apply Rmin_left. exact Hy.
      * subst. left. apply Rmin_right. exact Hx.
      * right. exact Hin.
    + constructor; [|exact Hall'']. rewrite py_min_Rmin. apply Rmin_glb; assumption.
Qed.

Lemma np_max_eq (l : list R) (d M : R) :
  In M l -> Forall (fun y => y <= M) l -> np_max l d = M.
Proof. destruct l; [intros []|]. apply fold_max_eq. Qed.

Lemma np_min_eq (l : list R) (d M : R) :
  In M l -> Forall (fun y => M <= y) l -> np_min l d = M.
Proof. destruct l; [intros []|]. apply fold_min_eq. Qed.

End TipShape.

Ltac in_list := cbn [In]; first [left; (lra || nra) | right; in_list].
Ltac all_le := repeat (constructor; [lra || nra|]); constructor.

Section TipShape2.
Local Open Scope R_scope.
Local Abbreviation mobR := (@mob R).
Implicit Types m : mobR.

Lemma ArrowTip_shape (L : R) : 0 < L -> ArrowTip L = Ok (tip_shape L).
Proof.
  intro HL. pose proof sqrt3_pos as H3. pose proof sqrt3_sqr as H33.
  assert (HL3 : 0 < L * sqrt 3) by nra.
  unfold ArrowTip. unsc. rewrite compass_directions_3.
  unfold Polygon_points. cbn [tri_vertices bind]. fold tri_vertices. fold tri_points.
  assert (Hw : set_width tri_points L
               = scale_points (L / (3 / 2)) (V (- (1 / 4)) 0) tri_points).
  { unfold set_width, length_over_dim, bbox_center.
    unfold tri_points, tri_vertices.
    cbn [app set_points_as_corners map get_anchors get_anchors_aux length
         interpolate vadd vscale vx vy]. unsc.
    rewrite (@np_max_eq _ 0 (1 / 2)) by (in_list || all_le).
    rewrite (@np_min_eq _ 0 (-1)) by (in_list || all_le).
    rewrite Reqb_false by lra.
    rewrite (@np_max_eq _ 0 (1 / 2)) by (in_list || all_le).
    rewrite (@np_min_eq _ 0 (-1)) by (in_list || all_le).
    rewrite (@np_max_eq _ 0 (sqrt 3 / 2)) by (in_list || all_le).
    rewrite (@np_min_eq _ 0 (- (sqrt 3 / 2))) by (in_list || all_le).
    f_equal; [field | apply vec_eq; cbn [vx vy]; field]. }
  rewrite Hw. f_equal.
  unfold set_height_stretch, length_over_dim, bbox_center, stretch_points, scale_points.
  unfold tri_points, tri_vertices, tip_shape, tip_A, tip_B, tip_C.
  cbn [app set_points_as_corners map get_anchors get_anchors_aux length
       interpolate vadd vsub vscale vx vy]. unsc.
  rewrite (@np_max_eq _ 0 (L * sqrt 3 / 3)) by (in_list || all_le).
  rewrite (@np_min_eq _ 0 (- (L * sqrt 3 / 3))) by (in_list || all_le).
  rewrite Reqb_false by lra.
  rewrite (@np_max_eq _ 0 (- (1 / 4) + L / 2)) by (in_list || all_le).
  rewrite (@np_min_eq _ 0 (- (1 / 4) - L / 2)) by (in_list || all_le).
  rewrite (@np_max_eq _ 0 (L * sqrt 3 / 3)) by (in_list || all_le).
  rewrite (@np_min_eq _ 0 (- (L * sqrt 3 / 3))) by (in_list || all_le).
  assert (Hk : L / (L * sqrt 3 / 3 - - (L * sqrt 3 / 3)) = sqrt 3 / 2).
  { replace (L * sqrt 3 / 3 - - (L * sqrt 3 / 3)) with (2 * L * sqrt 3 / 3) by field.
    replace L with (L * (sqrt 3 * sqrt 3) / 3) at 1 by (rewrite H33; field).
    field. split; lra. }
  rewrite Hk. unfold interpolate, vadd, vscale. unsc. cbn [vx vy].
  repeat (f_equal; try (apply vec_eq; cbn [vx vy]; [lra | nra])).
Qed.

End TipShape2.

(** ** Point maps applied to a whole family *)

Section Moves.
Context {F : Type} {SC : Scalar F} {TR : Trig F}.
Local Abbreviation vec := (vec F).
Local Abbreviation mob := (@mob F).
Implicit Types m : mob.

Lemma same_config_refl m : same_config m m.
Proof. unfold same_config; repeat split. Qed.

Lemma same_config_trans m1 m2 m3 :
  same_config m1 m2 -> same_config m2 m3 -> same_config m1 m3.
Proof.
  unfold same_config.
  intros (a1&a2&a3&a4&a5&a6&a7&a8&a9&a10&a11&a12)
         (b1&b2&b3&b4&b5&b6&b7&b8&b9&b10&b11&b12).
  repeat split; congruence.
Qed.

Lemma fold_heap_get (f : list vec -> list vec) (l : list nat) :
  NoDup l -> forall (h : list (nat * list vec)) i,
  heap_get (fold_left (fun h i => heap_set h i (f (heap_get h i))) l h) i =
  if mem i l then f (heap_get h i) else heap_get h i.
Proof.
  induction l as [|j l IH]; intros Hn h i; cbn [fold_left].
  - reflexivity.
  - inversion Hn as [|? ? Hj Hn']; subst. rewrite (IH Hn').
    unfold mem. cbn [existsb]. fold (mem i l).
    rewrite !heap_get_set.
    destruct (Nat.eqb i j) eqn:E; cbn [orb].
    + apply Nat.eqb_eq in E. subst.
      destruct (mem j l) eqn:M; [apply mem_In in M; contradiction | reflexivity].
    + reflexivity.
Qed.

Lemma moved_apf (g : vec -> vec) m :
  NoDup (submobjects m) -> moved g m (apply_points_function (map g) m).
Proof.
  intro Hn. split; [reflexivity|]. intro i.
  unfold apply_points_function. cbn [heap with_heap with_points submobjects].
  apply fold_heap_get. exact Hn.
Qed.

Lemma same_config_apf f m : same_config m (apply_points_function f m).
Proof. unfold same_config; repeat split. Qed.

Lemma mem_keeps m m' i : keeps m m' -> mem i (submobjects m') = mem i (submobjects m).
Proof.
  intros (_ & _ & _ & k4 & _).
  destruct (mem i (submobjects m)) eqn:E.
  - apply mem_In. apply k4. apply mem_In. exact E.
  - apply not_true_iff_false. intro H. apply mem_In in H. apply k4 in H.
    apply mem_In in H. congruence.
Qed.

Lemma moved_trans (g h : vec -> vec) m1 m2 m3 :
  keeps m1 m2 -> moved g m1 m2 -> moved h m2 m3 ->
  moved (fun p => h (g p)) m1 m3.
Proof.
  intros K [p1 h1] [p2 h2]. split.
  - rewrite p2, p1, map_map. reflexivity.
  - intro i. rewrite h2, h1, (mem_keeps i K).
    destruct (mem i (submobjects m1)); [rewrite map_map|]; reflexivity.
Qed.

Lemma moved_ext (g h : vec -> vec) m m' :
  (forall p, g p = h p) -> moved g m m' -> moved h m m'.
Proof.
  intros E [p1 h1]. split.
  - rewrite p1. apply map_ext. exact E.
  - intro i. rewrite h1. destruct (mem i (submobjects m)); [apply map_ext; exact E | reflexivity].
Qed.

Lemma has_tip_keeps m m' : keeps m m' -> has_tip m' = has_tip m.
Proof.
  intros K. pose proof K as (_ & k2 & _). unfold has_tip, hasattr, is_child. rewrite k2.
  destruct (tip m) as [t|]; [|reflexivity]. cbn [andb]. apply mem_keeps, K.
Qed.

Lemma has_start_tip_keeps m m' : keeps m m' -> has_start_tip m' = has_start_tip m.
Proof.
  intros K. pose proof K as (_ & _ & k3 & _).
  unfold has_start_tip, hasattr, is_child. rewrite k3.
  destruct (start_tip m) as [t|]; [|reflexivity]. cbn [andb]. apply mem_keeps, K.
Qed.

Lemma VMobject_get_start_map (g : vec -> vec) pts p :
  VMobject_get_start pts = Ok p -> VMobject_get_start (map g pts) = Ok (g p).
Proof. destruct pts; cbn; [discriminate|]. intro H; inversion H; reflexivity. Qed.

Lemma last_map_nonempty (g : vec -> vec) (l : list vec) (d d' : vec) :
  l <> [] -> last (map g l) d' = g (last l d).
Proof.
  induction l as [|a l IH]; [congruence|]. intros _.
  destruct l as [|b l]; [reflexivity|].
  change (last (map g (b :: l)) d' = g (last (b :: l) d)).
  apply IH. discriminate.
Qed.

Lemma VMobject_get_end_map (g : vec -> vec) pts p :
  VMobject_get_end pts = Ok p -> VMobject_get_end (map g pts) = Ok (g p).
Proof.
  destruct pts as [|q pts]; [discriminate|]. intro H.
  unfold VMobject_get_end in *. cbn [map]. injection H as H. rewrite <- H.
  f_equal. apply (@last_map_nonempty g (q :: pts) ORIGIN ORIGIN). discriminate.
Qed.

Lemma moved_get_start (g : vec -> vec) m m' p :
  keeps m m' -> moved g m m' -> get_start m = Ok p -> get_start m' = Ok (g p).
Proof.
  intros K [p1 h1]. unfold get_start. rewrite (has_start_tip_keeps K).
  pose proof K as (_ & _ & k3 & _).
  destruct (has_start_tip m) eqn:E.
  - apply has_start_tip_true in E. destruct E as (t & Et & Hin).
    unfold deref. rewrite k3, Et, h1.
    apply mem_In in Hin. rewrite Hin. apply VMobject_get_start_map.
  - rewrite p1. apply VMobject_get_start_map.
Qed.

Lemma moved_get_end (g : vec -> vec) m m' p :
  keeps m m' -> moved g m m' -> get_end m = Ok p -> get_end m' = Ok (g p).
Proof.
  intros K [p1 h1]. unfold get_end. rewrite (has_tip_keeps K).
  pose proof K as (_ & k2 & _).
  destruct (has_tip m) eqn:E.
  - apply has_tip_true in E. destruct E as (t & Et & Hin).
    unfold deref. rewrite k2, Et, h1.
    apply mem_In in Hin. rewrite Hin. apply VMobject_get_start_map.
  - rewrite p1. apply VMobject_get_end_map.
Qed.

Lemma moved_get_start_and_end (g : vec -> vec) m m' s e :
  keeps m m' -> moved g m m' -> get_start_and_end m = Ok (s, e) ->
  get_start_and_end m' = Ok (g s, g e).
Proof.
  intros K M H. unfold get_start_and_end in *.
  apply bind_ok in H. destruct H as (s' & Hs & H).
  apply bind_ok in H. destruct H as (e' & He & H). injection H as -> ->.
  rewrite (moved_get_start K M Hs). cbn [bind].
  rewrite (moved_get_end K M He). reflexivity.
Qed.

Lemma scale_bare n m f a s e :
  NoDup (submobjects m) -> bare m ->
  get_start_and_end m = Ok (s, e) ->
  seqb (get_norm (vsub s e)) s0 = false ->
  exists m',
    scale (S n) m f a = Ok m'
    /\ moved (fun p => vadd (vscale f (vsub p (about_or_center m a))) (about_or_center m a)) m m'
    /\ keeps m m' /\ same_config m m'.
Proof.
  intros Hn Hb Hse Hlen. rewrite scale_S.
  set (g := fun p => vadd (vscale f (vsub p (about_or_center m a))) (about_or_center m a)).
  assert (M : moved g m (Mobject_scale m f a)) by (apply moved_apf; exact Hn).
  assert (K : keeps m (Mobject_scale m f a)) by (apply keeps_apf; exact Hn).
  assert (C : same_config m (Mobject_scale m f a)) by apply same_config_apf.
  destruct (cls m) eqn:Hc; try (eexists; split; [reflexivity | auto]).
  destruct Hb as [Hb|[Hb1 Hb2]]; [congruence|].
  unfold get_length. rewrite Hse. cbn [bind fst snd]. rewrite Hlen.
  rewrite Hb1, Hb2. cbn [orb bind].
  unfold set_stroke_width_from_length, get_length.
  rewrite (moved_get_start_and_end K M Hse). cbn [bind].
  eexists. split; [reflexivity|]. split; [|split].
  - destruct M as [M1 M2]. split; [exact M1 | exact M2].
  - eapply keeps_trans; [exact K|]. apply keeps_with_stroke_width. apply K.
  - exact C.
Qed.

End Moves.

(** ** put_start_and_end_on as a similarity *)

Section Repositioning.
Local Open Scope R_scope.
Local Abbreviation mobR := (@mob R).
Implicit Types m : mobR.

Lemma vsub_eq_ORIGIN (a b : vec R) : vsub a b = ORIGIN <-> a = b.
Proof.
  unfold vsub, ORIGIN. unsc. split.
  - intro H. injection H as H1 H2. apply vec_eq; lra.
  - intro; subst. f_equal; lra.
Qed.

Lemma norm_nonzero (s e : vec R) :
  s <> e -> seqb (get_norm (vsub s e)) s0 = false.
Proof.
  intro H. unsc. apply Reqb_false.
  assert (vsub s e <> ORIGIN) by (rewrite vsub_eq_ORIGIN; exact H).
  pose proof (get_norm_pos H0). lra.
Qed.

Lemma similarity_start (cs ce s e : vec R) :
  similarity cs (vsub ce cs) s (vsub e s) cs = s.
Proof.
  unfold similarity, cmul, cdiv, vadd, vsub. unsc. cbn [vx vy].
  apply vec_eq; cbn [vx vy]; ring.
Qed.

Lemma similarity_end (cs ce s e : vec R) :
  cs <> ce -> similarity cs (vsub ce cs) s (vsub e s) ce = e.
Proof.
  intro H.
  assert (Hc : vsub ce cs <> ORIGIN) by (rewrite vsub_eq_ORIGIN; congruence).
  pose proof (get_norm_pos Hc) as Hp. pose proof (get_norm_sqr (vsub ce cs)) as Hs.
  set (n := get_norm (vsub ce cs)) in *.
  unfold vsub in Hs. unsc. cbn [vx vy] in Hs.
  assert (Hn : (vx ce - vx cs) * (vx ce - vx cs) + (vy ce - vy cs) * (vy ce - vy cs) <> 0)
    by nra.
  unfold similarity, cmul, cdiv, vadd, vsub. unsc. cbn [vx vy].
  apply vec_eq; cbn [vx vy]; field; exact Hn.
Qed.

Lemma Mobject_puts_spec (scale : mobR -> R -> option (vec R) -> result mobR)
    m (s e cs ce : vec R) :
  NoDup (submobjects m) ->
  get_start_and_end m = Ok (cs, ce) -> cs <> ce ->
  (forall f a, exists m1,
      scale m f a = Ok m1
      /\ moved (fun p => vadd (vscale f (vsub p (about_or_center m a))) (about_or_center m a)) m m1
      /\ keeps m m1 /\ same_config m m1) ->
  exists m',
    Mobject_put_start_and_end_on scale m s e = Ok m'
    /\ moved (similarity cs (vsub ce cs) s (vsub e s)) m m'
    /\ keeps m m' /\ same_config m m'.
Proof.
  intros Hn Hse Hne Hscale. unfold Mobject_put_start_and_end_on.
  rewrite Hse. cbn [bind fst snd].
  assert (Hc : vsub ce cs <> ORIGIN) by (rewrite vsub_eq_ORIGIN; congruence).
  rewrite (proj2 (veqb_neq _ _) Hc).
  destruct (Hscale (get_norm (vsub e s) / get_norm (vsub ce cs))%sc (Some cs))
    as (m1 & H1 & M1 & K1 & C1).
  rewrite H1. cbn [bind]. eexists. split; [reflexivity|].
  set (th := (angle_of_vector (vsub e s) - angle_of_vector (vsub ce cs))%sc).
  assert (N1 : NoDup (submobjects m1)) by apply K1.
  assert (K2 : keeps m1 (Mobject_rotate m1 th (Some cs))) by (apply keeps_apf; exact N1).
  assert (M2 : moved (fun p => vadd (rot th (vsub p cs)) cs) m1 (Mobject_rotate m1 th (Some cs)))
    by (apply moved_apf; exact N1).
  set (m2 := Mobject_rotate m1 th (Some cs)) in *.
  assert (N2 : NoDup (submobjects m2)) by apply K2.
  assert (K3 : keeps m2 (Mobject_shift m2 (vsub s cs))) by (apply keeps_apf; exact N2).
  assert (M3 : moved (fun p => vadd p (vsub s cs)) m2 (Mobject_shift m2 (vsub s cs)))
    by (apply moved_apf; exact N2).
  split; [|split].
  - eapply moved_ext; [|eapply moved_trans; [|eapply moved_trans; [exact K1 | exact M1 | exact M2] | exact M3]].
    + intro p. cbn beta. cbn [about_or_center]. unfold th. unsc.
      apply puts_point. exact Hc.
    + eapply keeps_trans; eassumption.
  - eapply keeps_trans; [exact K1|]. eapply keeps_trans; eassumption.
  - eapply same_config_trans; [exact C1|].
    eapply same_config_trans; apply same_config_apf.
Qed.

Lemma puts_spec n m (s e cs ce : vec R) :
  NoDup (submobjects m) -> bare m ->
  get_start_and_end m = Ok (cs, ce) -> cs <> ce ->
  exists m',
    put_start_and_end_on (S (S n)) m s e = Ok m'
    /\ moved (similarity cs (vsub ce cs) s (vsub e s)) m m'
    /\ keeps m m' /\ same_config m m'.
Proof.
  intros Hn Hb Hse Hne.
  assert (G : exists m',
             Mobject_put_start_and_end_on (scale (S n)) m s e = Ok m'
             /\ moved (similarity cs (vsub ce cs) s (vsub e s)) m m'
             /\ keeps m m' /\ same_config m m').
  { apply Mobject_puts_spec; auto. intros f a.
    apply scale_bare with (s := cs) (e := ce); auto. apply norm_nonzero. exact Hne. }
  rewrite put_start_and_end_on_S.
  destruct (cls m); try exact G;
    rewrite Hse; cbn [bind fst snd];
    rewrite (proj2 (veqb_neq _ _) Hne); cbn [bind]; exact G.
Qed.

Lemma puts_endpoints n m (s e cs ce : vec R) :
  NoDup (submobjects m) -> bare m ->
  get_start_and_end m = Ok (cs, ce) -> cs <> ce ->
  exists m',
    put_start_and_end_on (S (S n)) m s e = Ok m'
    /\ get_start_and_end m' = Ok (s, e)
    /\ moved (similarity cs (vsub ce cs) s (vsub e s)) m m'
    /\ keeps m m' /\ same_config m m'.
Proof.
  intros Hn Hb Hse Hne.
  destruct (puts_spec n s e Hn Hb Hse Hne) as (m' & H & M & K & C).
  exists m'. split; [exact H|]. split; [|auto].
  rewrite (moved_get_start_and_end K M Hse).
  rewrite similarity_start, similarity_end by exact Hne. reflexivity.
Qed.

End Repositioning.

(** ** create_tip: where the tip lands and how long it is *)

Section TipCreation.
Context {F : Type} {SC : Scalar F} {TR : Trig F}.
Local Abbreviation vec := (vec F).
Local Abbreviation mob := (@mob F).
Implicit Types m : mob.

Lemma set_width_length (pts : list vec) L : length (set_width pts L) = length pts.
Proof.
  unfold set_width. destruct (seqb _ _); [reflexivity|].
  unfold scale_points. apply length_map.
Qed.

Lemma set_height_stretch_length (pts : list vec) L :
  length (set_height_stretch pts L) = length pts.
Proof.
  unfold set_height_stretch. destruct (seqb _ _); [reflexivity|].
  unfold stretch_points. apply length_map.
Qed.

Lemma ArrowTip_ok (L : F) : exists pts, ArrowTip L = Ok pts /\ length pts = 12%nat.
Proof.
  unfold ArrowTip, compass_directions, Polygon_points. cbn [seq map bind app].
  eexists. split; [reflexivity|].
  rewrite set_height_stretch_length, set_width_length. reflexivity.
Qed.

End TipCreation.

Section TipCreation2.
Local Open Scope R_scope.
Local Abbreviation mobR := (@mob R).
Implicit Types m : mobR.

(** the tip's base, for a buffer of twelve points *)
Lemma ArrowTip_get_base_12 (p0 p1 p2 p3 p4 p5 p6 p7 p8 p9 p10 p11 : vec R) :
  ArrowTip_get_base [p0; p1; p2; p3; p4; p5; p6; p7; p8; p9; p10; p11]
  = V (vx p4 / 8 + 3 * vx p5 / 8 + 3 * vx p6 / 8 + vx p7 / 8)
      (vy p4 / 8 + 3 * vy p5 / 8 + 3 * vy p6 / 8 + vy p7 / 8).
Proof.
  unfold ArrowTip_get_base, point_from_proportion, get_num_curves, integer_interpolate.
  cbn [length Nat.div Nat.divmod fst sofnat]. unsc.
  rewrite Rleb_false by lra. rewrite Rleb_false by lra.
  cbn [int_below sofnat]. unsc.
  rewrite Rleb_false by lra. rewrite Rleb_true by lra.
  unfold get_nth_curve_points. cbn [Nat.mul Nat.add skipn firstn].
  unfold bezier, vsum. cbn [length Nat.sub bernstein_terms choose Nat.add sofnat spow fold_left].
  unfold vadd, vscale, ORIGIN. unsc. cbn [vx vy].
  apply vec_eq; cbn [vx vy]; field.
Qed.

Lemma norm_rot (th : R) (v : vec R) : get_norm (rot th v) = get_norm v.
Proof.
  unfold get_norm, rot. unsc. cbn [vx vy]. f_equal.
  pose proof (sin2_cos2 th) as H. unfold Rsqr in H.
  set (c := cos th) in *. set (s := sin th) in *.
  replace ((c * vx v - s * vy v) * (c * vx v - s * vy v)
           + (s * vx v + c * vy v) * (s * vx v + c * vy v))
    with ((s * s + c * c) * (vx v * vx v + vy v * vy v)) by ring.
  rewrite H. ring.
Qed.

Lemma position_tip_spec (m : @mob R) (p0 : vec R) (rest : list (vec R)) (at_start : bool) anchor handle :
  (if at_start then get_start m else get_end m) = Ok anchor ->
  (if at_start then get_first_handle m else get_last_handle m) = Ok handle ->
  position_tip m (p0 :: rest) at_start
  = Ok (map (place anchor p0
               (angle_of_vector (vsub handle anchor) - PI
                - angle_of_vector (vsub p0 (ArrowTip_get_base (p0 :: rest)))))
          (p0 :: rest)).
Proof.
  intros Ha Hh. unfold position_tip.
  replace (if at_start
           then anchor0 <- get_start m;; handle0 <- get_first_handle m;; Ok (anchor0, handle0)
           else handle0 <- get_last_handle m;; anchor0 <- get_end m;; Ok (anchor0, handle0))
    with (Ok (anchor, handle) : result (vec R * vec R))
    by (destruct at_start; rewrite Ha, Hh; reflexivity).
  cbn [bind]. unfold ArrowTip_get_angle, ArrowTip_get_vector, ArrowTip_get_tip_point.
  cbn [bind]. unsc.
  set (th := angle_of_vector (vsub handle anchor) - PI
             - angle_of_vector (vsub p0 (ArrowTip_get_base (p0 :: rest)))).
  set (c := bbox_center (get_anchors (p0 :: rest))).
  unfold rotate_points. cbn [map bind]. unfold shift_points.
  f_equal. change (?a :: map ?g rest) with (map g (p0 :: rest)).
  rewrite map_map. apply map_ext. intro p.
  unfold place, vadd, vsub, rot. unsc. cbn [vx vy].
  apply vec_eq; cbn [vx vy]; ring.
Qed.

Lemma place_start anchor p0 th : place anchor p0 th p0 = anchor.
Proof.
  unfold place, vadd, vsub, rot. unsc. cbn [vx vy].
  apply vec_eq; cbn [vx vy]; ring.
Qed.

Lemma ArrowTip_get_base_place anchor q th (pts : list (vec R)) :
  length pts = 12%nat ->
  ArrowTip_get_base (map (place anchor q th) pts)
  = place anchor q th (ArrowTip_get_base pts).
Proof.
  intro H.
  do 12 (destruct pts as [|? pts]; [discriminate|]).
  destruct pts; [|discriminate]. cbn [map].
  rewrite !ArrowTip_get_base_12.
  unfold place, vadd, vsub, rot. unsc. cbn [vx vy].
  apply vec_eq; cbn [vx vy]; field.
Qed.

Lemma ArrowTip_get_length_place anchor th (p0 : vec R) rest :
  length (p0 :: rest) = 12%nat ->
  ArrowTip_get_length (map (place anchor p0 th) (p0 :: rest))
  = ArrowTip_get_length (p0 :: rest).
Proof.
  intro H. unfold ArrowTip_get_length, ArrowTip_get_vector.
  rewrite ArrowTip_get_base_place by exact H.
  cbn [map ArrowTip_get_tip_point bind]. f_equal.
  rewrite <- (norm_rot th (vsub p0 (ArrowTip_get_base (p0 :: rest)))).
  f_equal. unfold place, vadd, vsub, rot. unsc. cbn [vx vy].
  apply vec_eq; cbn [vx vy]; ring.
Qed.

Lemma tip_shape_length (L : R) : 0 <= L -> ArrowTip_get_length (tip_shape L) = Ok L.
Proof.
  intro HL. unfold tip_shape, tip_A, tip_B, tip_C.
  cbn [set_points_as_corners]. unfold ArrowTip_get_length, ArrowTip_get_vector.
  rewrite ArrowTip_get_base_12. cbn [ArrowTip_get_tip_point bind]. f_equal.
  unfold get_norm, vsub, interpolate, vadd, vscale. unsc. cbn [vx vy].
  replace (_ + _) with (L * L) by field. apply sqrt_square. exact HL.
Qed.

Lemma tip_shape_base (L : R) :
  ArrowTip_get_base (tip_shape L) = V (- (1 / 4) + L / 2) 0.
Proof.
  unfold tip_shape, tip_A, tip_B, tip_C. cbn [set_points_as_corners].
  rewrite ArrowTip_get_base_12.
  unfold interpolate, vadd, vscale. unsc. cbn [vx vy].
  apply vec_eq; cbn [vx vy]; field.
Qed.

Lemma tip_shape_head (L : R) :
  exists rest, tip_shape L = tip_A L :: rest.
Proof.
  unfold tip_shape. cbn [set_points_as_corners]. eexists. f_equal.
  unfold interpolate, vadd, vscale, tip_A, tip_B. unsc. cbn [vx vy].
  apply vec_eq; cbn [vx vy]; ring.
Qed.

Lemma angle_of_vector_left (L : R) : 0 < L -> angle_of_vector (V (- L) 0) = PI.
Proof.
  intro HL. unfold angle_of_vector. unsc. cbn [vx vy].
  rewrite (Reqb_false (x := - L)) by lra. cbn [andb].
  unfold Rarg. destruct (Rle_dec 0 0) as [_|H]; [|lra].
  replace (- L * - L + 0 * 0) with (L * L) by ring.
  rewrite sqrt_square by lra.
  replace (- L / L) with (- (1)) by (field; lra).
  rewrite acos_opp, acos_1. ring.
Qed.

Lemma rot_two_PI (phi : R) (v : vec R) : rot (phi - PI - PI) v = rot phi v.
Proof.
  unfold rot. unsc.
  assert (C : cos (phi - PI - PI) = cos phi).
  { rewrite !cos_minus, !sin_minus, cos_PI, sin_PI. ring. }
  assert (S : sin (phi - PI - PI) = sin phi).
  { rewrite !sin_minus, !cos_minus, cos_PI, sin_PI. ring. }
  rewrite C, S. reflexivity.
Qed.

Lemma create_tip_spec (m : @mob R) tl (at_start : bool) anchor handle L :
  anchor_of m at_start = Ok anchor ->
  handle_of m at_start = Ok handle ->
  resolve_tip_length m tl = Ok L ->
  exists tp,
    create_tip m tl at_start = Ok tp
    /\ length tp = 12%nat
    /\ VMobject_get_start tp = Ok anchor
    /\ (0 < L -> ArrowTip_get_length tp = Ok L)
    /\ (0 < L -> handle <> anchor ->
        ArrowTip_get_base tp
        = vadd anchor (vscale (L / get_norm (vsub handle anchor)) (vsub handle anchor))).
Proof.
  intros Ha Hh HL. unfold create_tip, get_unpositioned_tip.
  change (match tl with None => get_default_tip_length m | Some t => Ok t end)
    with (resolve_tip_length m tl).
  rewrite HL. cbn [bind].
  destruct (ArrowTip_ok L) as (pts & Hp & Hlen). rewrite Hp. cbn [bind].
  destruct pts as [|p0 rest]; [discriminate|].
  rewrite (position_tip_spec m p0 rest at_start Ha Hh).
  eexists. split; [reflexivity|]. split; [rewrite length_map; exact Hlen|].
  split; [|split].
  - cbn [map VMobject_get_start]. rewrite place_start. reflexivity.
  - intro Hpos. rewrite ArrowTip_get_length_place by exact Hlen.
    assert (E : p0 :: rest = tip_shape L)
      by (rewrite (ArrowTip_shape Hpos) in Hp; congruence).
    rewrite E. apply tip_shape_length. lra.
  - intros Hpos Hne.
    assert (E : p0 :: rest = tip_shape L)
      by (rewrite (ArrowTip_shape Hpos) in Hp; congruence).
    rewrite ArrowTip_get_base_place by exact Hlen.
    destruct (tip_shape_head L) as (rest' & E').
    assert (E0 : p0 = tip_A L) by congruence.
    rewrite E, tip_shape_base. subst p0.
    replace (vsub (tip_A L) (V (- (1 / 4) + L / 2) 0)) with (V (- L) 0)
      by (unfold vsub, tip_A; unsc; cbn [vx vy]; apply vec_eq; cbn [vx vy]; field).
    rewrite angle_of_vector_left by exact Hpos.
    unfold place. rewrite rot_two_PI.
    assert (Hd : vsub handle anchor <> ORIGIN).
    { intro X. apply Hne. unfold vsub, ORIGIN in X. unsc. injection X as X1 X2.
      apply vec_eq; lra. }
    pose proof (get_norm_pos Hd) as Hn.
    unfold rot. unsc. rewrite (cos_angle_of_vector Hd), (sin_angle_of_vector Hd).
    set (nn := get_norm (vsub handle anchor)) in *.
    unfold vadd, vsub, vscale, tip_A. unsc. cbn [vx vy].
    apply vec_eq; cbn [vx vy]; field; lra.
Qed.

End TipCreation2.

(** ** add_tip and pop_tips *)

Section TipProtocol.
Context {F : Type} {SC : Scalar F} {TR : Trig F}.
Local Abbreviation vec := (vec F).
Local Abbreviation mob := (@mob F).
Implicit Types m : mob.

Lemma attach_heap m tp at_start j :
  heap_get (heap (attach m tp at_start)) j
  = if Nat.eqb j (fresh_id (heap m)) then tp else heap_get (heap m) j.
Proof.
  unfold attach, asign_tip_attr, add. cbn [fst snd].
  destruct at_start; cbn [heap with_submobjects with_tip with_start_tip with_heap];
    apply heap_get_set.
Qed.

Lemma attach_submobjects m tp at_start :
  wf m ->
  submobjects (attach m tp at_start) = submobjects m ++ [fresh_id (heap m)].
Proof.
  intros (w1 & w2 & _). unfold attach, asign_tip_attr, add. cbn [fst snd].
  assert (E : filter (fun j => negb (Nat.eqb j (fresh_id (heap m)))) (submobjects m)
              = submobjects m).
  { apply forallb_filter_id. apply forallb_forall. intros x Hx.
    apply negb_true_iff, Nat.eqb_neq. apply w2 in Hx. lia. }
  destruct at_start; cbn [submobjects with_submobjects with_tip with_start_tip with_heap];
    rewrite E; reflexivity.
Qed.

Lemma attach_other_child m tp at_start (a : option nat) :
  wf m -> (forall j, a = Some j -> j < fresh_id (heap m)) ->
  is_child (attach m tp at_start) a = is_child m a
  /\ deref (attach m tp at_start) a = deref m a.
Proof.
  intros Hw Ha. unfold is_child, deref. destruct a as [j|]; [|split; reflexivity].
  specialize (Ha j eq_refl).
  rewrite attach_submobjects by exact Hw. rewrite attach_heap.
  assert (E : Nat.eqb j (fresh_id (heap m)) = false) by (apply Nat.eqb_neq; lia).
  rewrite E. split; [|reflexivity].
  unfold mem. rewrite existsb_app. cbn [existsb]. rewrite E. cbn [orb].
  apply orb_false_r.
Qed.

Lemma attach_end m tp :
  wf m ->
  let m1 := attach m tp false in
  tip m1 = Some (fresh_id (heap m)) /\ start_tip m1 = start_tip m
  /\ has_tip m1 = true
  /\ get_end m1 = VMobject_get_start tp /\ get_start m1 = get_start m
  /\ points m1 = points m /\ same_config m m1 /\ cls m1 = cls m.
Proof.
  intro Hw. cbv zeta.
  assert (T : tip (attach m tp false) = Some (fresh_id (heap m))) by reflexivity.
  assert (S : start_tip (attach m tp false) = start_tip m) by reflexivity.
  assert (Hin : mem (fresh_id (heap m)) (submobjects (attach m tp false)) = true).
  { apply mem_In. rewrite attach_submobjects by exact Hw.
    apply in_app_iff. right. left. reflexivity. }
  assert (HT : has_tip (attach m tp false) = true).
  { unfold has_tip, hasattr, is_child. rewrite T. exact Hin. }
  split; [exact T|]. split; [exact S|]. split; [exact HT|].
  split; [|split; [|split; [reflexivity | split; [|reflexivity]]]].
  - unfold get_end. rewrite HT. unfold deref. rewrite T, attach_heap, Nat.eqb_refl.
    reflexivity.
  - unfold get_start, has_start_tip. rewrite S.
    destruct Hw as (w1 & w2 & w3 & w4).
    destruct (@attach_other_child m tp false (start_tip m) (conj w1 (conj w2 (conj w3 w4))) w4)
      as [E1 E2].
    rewrite E1, E2. reflexivity.
  - unfold same_config; repeat split.
Qed.

Lemma attach_start m tp :
  wf m ->
  let m1 := attach m tp true in
  start_tip m1 = Some (fresh_id (heap m)) /\ tip m1 = tip m
  /\ has_start_tip m1 = true
  /\ get_start m1 = VMobject_get_start tp /\ get_end m1 = get_end m
  /\ points m1 = points m /\ same_config m m1 /\ cls m1 = cls m.
Proof.
  intro Hw. cbv zeta.
  assert (T : start_tip (attach m tp true) = Some (fresh_id (heap m))) by reflexivity.
  assert (S : tip (attach m tp true) = tip m) by reflexivity.
  assert (Hin : mem (fresh_id (heap m)) (submobjects (attach m tp true)) = true).
  { apply mem_In. rewrite attach_submobjects by exact Hw.
    apply in_app_iff. right. left. reflexivity. }
  assert (HT : has_start_tip (attach m tp true) = true).
  { unfold has_start_tip, hasattr, is_child. rewrite T. exact Hin. }
  split; [exact T|]. split; [exact S|]. split; [exact HT|].
  split; [|split; [|split; [reflexivity | split; [|reflexivity]]]].
  - unfold get_start. rewrite HT. unfold deref. rewrite T, attach_heap, Nat.eqb_refl.
    reflexivity.
  - unfold get_end, has_tip. rewrite S.
    destruct Hw as (w1 & w2 & w3 & w4).
    destruct (@attach_other_child m tp true (tip m) (conj w1 (conj w2 (conj w3 w4))) w3)
      as [E1 E2].
    rewrite E1, E2. reflexivity.
  - unfold same_config; repeat split.
Qed.

End TipProtocol.

Section TipProtocol2.
Local Open Scope R_scope.
Local Abbreviation mobR := (@mob R).
Implicit Types m : mobR.

Lemma get_start_and_end_inv (m : @mob R) s e :
  get_start_and_end m = Ok (s, e) -> get_start m = Ok s /\ get_end m = Ok e.
Proof.
  unfold get_start_and_end. intro H.
  apply bind_ok in H. destruct H as (s' & Hs & H).
  apply bind_ok in H. destruct H as (e' & He & H).
  injection H as -> ->. auto.
Qed.

Lemma get_start_and_end_intro (m : @mob R) s e :
  get_start m = Ok s -> get_end m = Ok e -> get_start_and_end m = Ok (s, e).
Proof. unfold get_start_and_end. intros -> ->. reflexivity. Qed.

Lemma add_tip_spec n (m : @mob R) tl (at_start : bool) s e handle L :
  wf m -> bare m -> get_start_and_end m = Ok (s, e) -> s <> e ->
  handle_of m at_start = Ok handle -> resolve_tip_length m tl = Ok L ->
  exists tp m',
    create_tip m tl at_start = Ok tp
    /\ length tp = 12%nat
    /\ VMobject_get_start tp = Ok (if at_start then s else e)
    /\ (0 < L -> ArrowTip_get_length tp = Ok L)
    /\ (0 < L -> handle <> (if at_start then s else e) ->
        ArrowTip_get_base tp
        = vadd (if at_start then s else e)
            (vscale (L / get_norm (vsub handle (if at_start then s else e)))
               (vsub handle (if at_start then s else e))))
    /\ put_start_and_end_on (S (S n)) m
         (if at_start then ArrowTip_get_base tp else s)
         (if at_start then e else ArrowTip_get_base tp) = Ok m'
    /\ add_tip (S (S (S n))) m tl at_start = Ok (attach m' tp at_start)
    /\ keeps m m' /\ same_config m m'
    /\ moved (similarity s (vsub e s)
                (if at_start then ArrowTip_get_base tp else s)
                (vsub (if at_start then e else ArrowTip_get_base tp)
                      (if at_start then ArrowTip_get_base tp else s))) m m'
    /\ get_start_and_end (attach m' tp at_start) = Ok (s, e).
Proof.
  intros Hw Hb Hse Hne Hh HL.
  destruct (get_start_and_end_inv _ Hse) as [Hs He].
  assert (Ha : anchor_of m at_start = Ok (if at_start then s else e))
    by (destruct at_start; assumption).
  destruct (create_tip_spec m tl at_start Ha Hh HL)
    as (tp & Hc & Hlen & Hfirst & Hlength & Hbase).
  set (s' := if at_start then ArrowTip_get_base tp else s).
  set (e' := if at_start then e else ArrowTip_get_base tp).
  destruct (puts_endpoints n s' e' (proj1 Hw) Hb Hse Hne) as (m' & Hp & Hse' & M & K & C).
  exists tp, m'.
  split; [exact Hc|]. split; [exact Hlen|]. split; [exact Hfirst|].
  split; [exact Hlength|]. split; [exact Hbase|]. split; [exact Hp|].
  split; [|split; [exact K | split; [exact C | split; [exact M|]]]].
  - rewrite add_tip_S, Hc. cbn [bind]. unfold get_length. rewrite Hse. cbn [bind fst snd].
    rewrite (norm_nonzero Hne).
    replace (if at_start
             then e0 <- get_end m;; put_start_and_end_on (S (S n)) m (ArrowTip_get_base tp) e0
             else s1 <- get_start m;; put_start_and_end_on (S (S n)) m s1 (ArrowTip_get_base tp))
      with (put_start_and_end_on (S (S n)) m s' e')
      by (unfold s', e'; destruct at_start; [rewrite He | rewrite Hs]; reflexivity).
    rewrite Hp. reflexivity.
  - pose proof (wf_keeps Hw K) as Hw'.
    destruct (get_start_and_end_inv _ Hse') as [Hs' He'].
    destruct at_start.
    + destruct (attach_start tp Hw') as (_ & _ & _ & G1 & G2 & _).
      apply get_start_and_end_intro; [rewrite G1; exact Hfirst | rewrite G2; exact He'].
    + destruct (attach_end tp Hw') as (_ & _ & _ & G1 & G2 & _).
      apply get_start_and_end_intro; [rewrite G2; exact Hs' | rewrite G1; exact Hfirst].
Qed.

Lemma remove_attr_points (m : @mob R) a :
  points (remove_attr m a) = points m /\ same_config m (remove_attr m a).
Proof.
  destruct a; cbn [remove_attr remove];
    (split; [reflexivity | unfold same_config; repeat split]).
Qed.

Lemma detach_points (m : @mob R) :
  points (fst (detach m)) = points m /\ same_config m (fst (detach m)).
Proof.
  unfold detach.
  destruct (has_tip m);
    match goal with |- context [has_start_tip ?x] => destruct (has_start_tip x) end;
    cbn [fst].
  - destruct (remove_attr_points m (tip m)) as [p1 c1].
    destruct (remove_attr_points (remove_attr m (tip m))
                (start_tip (remove_attr m (tip m)))) as [p2 c2].
    split; [congruence | eapply same_config_trans; eassumption].
  - apply remove_attr_points.
  - apply remove_attr_points.
  - split; [reflexivity | apply same_config_refl].
Qed.

Lemma bare_get_start_and_end (m : @mob R) bs be :
  has_tip m = false -> has_start_tip m = false ->
  VMobject_get_start (points m) = Ok bs -> VMobject_get_end (points m) = Ok be ->
  get_start_and_end m = Ok (bs, be).
Proof.
  intros H1 H2 Hs He. unfold get_start_and_end, get_start, get_end.
  rewrite H1, H2, Hs, He. reflexivity.
Qed.

Lemma bare_endpoints_inv (m : @mob R) s e :
  has_tip m = false -> has_start_tip m = false ->
  get_start_and_end m = Ok (s, e) ->
  VMobject_get_start (points m) = Ok s /\ VMobject_get_end (points m) = Ok e.
Proof.
  intros H1 H2 H. apply get_start_and_end_inv in H. destruct H as [Hs He].
  unfold get_start, get_end in *. rewrite H1 in He. rewrite H2 in Hs. auto.
Qed.

Lemma pop_tips_spec n (m : @mob R) s e bs be :
  wf m -> get_start_and_end m = Ok (s, e) ->
  VMobject_get_start (points m) = Ok bs -> VMobject_get_end (points m) = Ok be ->
  bs <> be ->
  exists m2,
    pop_tips (S (S (S n))) m = Ok (m2, snd (detach m))
    /\ get_start_and_end m2 = Ok (s, e)
    /\ VMobject_get_start (points m2) = Ok s /\ VMobject_get_end (points m2) = Ok e
    /\ has_tip m2 = false /\ has_start_tip m2 = false
    /\ keeps (fst (detach m)) m2 /\ same_config m m2
    /\ moved (similarity bs (vsub be bs) s (vsub e s)) (fst (detach m)) m2.
Proof.
  intros Hw Hse Hbs Hbe Hne.
  destruct (detach_spec m (proj1 Hw)) as (d1 & d2 & d3 & d4 & d5 & d6 & d7 & d8).
  destruct (detach_points m) as [dp dc].
  set (md := fst (detach m)) in *.
  assert (Hmd : get_start_and_end md = Ok (bs, be)).
  { apply bare_get_start_and_end; auto; rewrite dp; assumption. }
  assert (Hb : bare md) by (right; auto).
  destruct (puts_endpoints n s e d5 Hb Hmd Hne) as (m2 & Hp & Hse2 & M & K & C).
  exists m2. rewrite pop_tips_S, Hse. cbn [bind fst snd]. fold md.
  rewrite Hp. cbn [bind].
  assert (T2 : has_tip m2 = false) by (rewrite (has_tip_keeps K); exact d7).
  assert (S2 : has_start_tip m2 = false) by (rewrite (has_start_tip_keeps K); exact d8).
  destruct (bare_endpoints_inv m2 T2 S2 Hse2) as [E1 E2].
  split; [reflexivity|]. split; [exact Hse2|]. split; [exact E1|]. split; [exact E2|].
  split; [exact T2|]. split; [exact S2|]. split; [exact K|].
  split; [eapply same_config_trans; eassumption | exact M].
Qed.

End TipProtocol2.

(** ** add_tip followed by pop_tips *)

Section RoundTrip.
Local Open Scope R_scope.
Local Abbreviation mobR := (@mob R).
Implicit Types m : mobR.

Lemma similarity_inj (a c s t p q : vec R) :
  c <> ORIGIN -> t <> ORIGIN ->
  similarity a c s t p = similarity a c s t q -> p = q.
Proof.
  intros Hc Ht H.
  pose proof (get_norm_pos Hc) as Hcp. pose proof (get_norm_sqr c) as Hcs.
  pose proof (get_norm_pos Ht) as Htp. pose proof (get_norm_sqr t) as Hts.
  set (nc := get_norm c) in *. set (nt := get_norm t) in *.
  assert (Hcn : vx c * vx c + vy c * vy c <> 0) by nra.
  unfold similarity, cmul, cdiv, vadd, vsub in H. unsc. cbn [vx vy] in H.
  injection H as H1 H2.
  set (n := vx c * vx c + vy c * vy c) in *.
  set (z1 := (vx t * vx c + vy t * vy c) / n) in *.
  set (z2 := (vy t * vx c - vx t * vy c) / n) in *.
  assert (Hz : z1 * z1 + z2 * z2 = (nt * nt) / n).
  { unfold z1, z2. rewrite Hts. unfold n. field. exact Hcn. }
  assert (Hzp : 0 < z1 * z1 + z2 * z2).
  { rewrite Hz. apply Rdiv_lt_0_compat; nra. }
  set (u := vx p - vx q). set (v := vy p - vy q).
  assert (E1 : z1 * u - z2 * v = 0) by (unfold u, v; lra).
  assert (E2 : z1 * v + z2 * u = 0) by (unfold u, v; lra).
  assert (Eu : (z1 * z1 + z2 * z2) * u = 0).
  { replace ((z1 * z1 + z2 * z2) * u) with (z1 * (z1 * u - z2 * v) + z2 * (z1 * v + z2 * u)) by ring.
    rewrite E1, E2. ring. }
  assert (Ev : (z1 * z1 + z2 * z2) * v = 0).
  { replace ((z1 * z1 + z2 * z2) * v) with (z1 * (z1 * v + z2 * u) - z2 * (z1 * u - z2 * v)) by ring.
    rewrite E1, E2. ring. }
  apply Rmult_integral in Eu. apply Rmult_integral in Ev.
  apply vec_eq; unfold u, v in *; [destruct Eu; lra | destruct Ev; lra].
Qed.

Lemma last_handle_exists (m : @mob R) (bs be : vec R) :
  VMobject_get_start (points m) = Ok bs -> VMobject_get_end (points m) = Ok be ->
  bs <> be -> exists h, get_last_handle m = Ok h.
Proof.
  unfold get_last_handle. intros Hs He Hne.
  destruct (points m) as [|p [|q l]].
  - discriminate.
  - cbn in Hs, He. congruence.
  - assert (L : (2 <= length (rev (p :: q :: l)))%nat)
      by (rewrite length_rev; cbn [length]; lia).
    destruct (rev (p :: q :: l)) as [|x [|y r]]; cbn [length] in L; try lia.
    eexists. reflexivity.
Qed.

Lemma handle_exists (m : @mob R) (at_start : bool) (bs be : vec R) :
  VMobject_get_start (points m) = Ok bs -> VMobject_get_end (points m) = Ok be ->
  bs <> be -> exists h, handle_of m at_start = Ok h.
Proof.
  intros Hs He Hne. destruct at_start; cbn [handle_of].
  - unfold get_first_handle. destruct (points m) as [|p [|q l]].
    + discriminate.
    + cbn in Hs, He. congruence.
    + eexists. reflexivity.
  - eapply last_handle_exists; eassumption.
Qed.

Lemma resolve_tip_length_ok (m : @mob R) (tl : option R) (s e : vec R) :
  get_start_and_end m = Ok (s, e) -> exists L, resolve_tip_length m tl = Ok L.
Proof.
  intro Hse. destruct tl as [t|]; cbn [resolve_tip_length]; [eexists; reflexivity|].
  unfold get_default_tip_length, get_length. rewrite Hse. cbn [bind].
  destruct (cls m); eexists; reflexivity.
Qed.

(** The round trip, in exact arithmetic.  A tip is attached at either end
    of a curve whose logical endpoints [s], [e] are distinct and whose body
    has two distinct ends, and the base of the tip does not fall on the
    curve's other endpoint (so the body keeps a nonzero extent).  Then
    [add_tip] succeeds, [pop_tips] succeeds after it, no tip is attached any
    more and the curve's start and end points are again [s] and [e].  The
    curve is any tipable curve but an Arrow that already carries a tip. *)
Theorem add_tip_pop_tips_round_trip n (m : @mob R) tl (at_start : bool) s e bs be :
  wf m -> bare m -> get_start_and_end m = Ok (s, e) -> s <> e ->
  VMobject_get_start (points m) = Ok bs -> VMobject_get_end (points m) = Ok be ->
  bs <> be ->
  (forall tp, create_tip m tl at_start = Ok tp ->
              ArrowTip_get_base tp <> (if at_start then e else s)) ->
  exists m1 m2 tips,
    add_tip (S (S (S n))) m tl at_start = Ok m1
    /\ pop_tips (S (S (S n))) m1 = Ok (m2, tips)
    /\ get_start_and_end m2 = Ok (s, e)
    /\ VMobject_get_start (points m2) = Ok s
    /\ VMobject_get_end (points m2) = Ok e
    /\ has_tip m2 = false /\ has_start_tip m2 = false.
Proof.
  intros Hw Hb Hse Hne Hbs Hbe Hbne Hbase.
  destruct (handle_exists m at_start Hbs Hbe Hbne) as (handle & Hh).
  destruct (resolve_tip_length_ok m tl Hse) as (L & HL).
  destruct (add_tip_spec n tl at_start Hw Hb Hse Hne Hh HL)
    as (tp & m' & Hc & Hlen & Hfirst & _ & _ & Hp & Hadd & K & C & M & Hse1).
  specialize (Hbase tp Hc).
  set (m1 := attach m' tp at_start) in *.
  assert (Hw1 : wf m1).
  { eapply added_wf; [exact Hw|].
    apply (proj2 (proj2 (proj2 (protocol_inv (S (S (S n)))))) _ _ _ _ Hw Hadd). }
  assert (Hpts : points m1 = points m').
  { unfold m1. pose proof (wf_keeps Hw K) as Hw'.
    destruct at_start; [apply (attach_start tp Hw') | apply (attach_end tp Hw')]. }
  set (s' := if at_start then ArrowTip_get_base tp else s) in *.
  set (e' := if at_start then e else ArrowTip_get_base tp) in *.
  assert (Hse' : s' <> e').
  { unfold s', e'. destruct at_start; [exact Hbase | congruence]. }
  destruct M as [Mp _].
  assert (Hbs1 : VMobject_get_start (points m1)
                 = Ok (similarity s (vsub e s) s' (vsub e' s') bs)).
  { rewrite Hpts, Mp. apply VMobject_get_start_map. exact Hbs. }
  assert (Hbe1 : VMobject_get_end (points m1)
                 = Ok (similarity s (vsub e s) s' (vsub e' s') be)).
  { rewrite Hpts, Mp. apply VMobject_get_end_map. exact Hbe. }
  assert (Hne1 : similarity s (vsub e s) s' (vsub e' s') bs
                 <> similarity s (vsub e s) s' (vsub e' s') be).
  { intro X. apply Hbne. eapply similarity_inj; [| |exact X].
    - rewrite vsub_eq_ORIGIN. congruence.
    - rewrite vsub_eq_ORIGIN. congruence. }
  destruct (pop_tips_spec n Hw1 Hse1 Hbs1 Hbe1 Hne1)
    as (m2 & Hpop & G1 & G2 & G3 & G4 & G5 & _).
  exists m1, m2, (snd (detach m1)). auto 10.
Qed.

End RoundTrip.

(** ** Straight lines *)

Section StraightLines.
Local Open Scope R_scope.
Local Abbreviation mobR := (@mob R).
Implicit Types m : mobR.

Lemma interpolate_0 (a b : vec R) : interpolate a b 0 = a.
Proof.
  unfold interpolate, vadd, vscale. unsc. apply vec_eq; cbn [vx vy]; ring.
Qed.

Lemma interpolate_1 (a b : vec R) : interpolate a b 1 = b.
Proof.
  unfold interpolate, vadd, vscale. unsc. apply vec_eq; cbn [vx vy]; ring.
Qed.

Lemma corners_two (a b : vec R) :
  set_points_as_corners [a; b]
  = [a; interpolate a b (1 / 3); interpolate a b (2 / 3); b].
Proof.
  cbn [set_points_as_corners]. unsc. rewrite interpolate_0, interpolate_1. reflexivity.
Qed.

Lemma Line_straight (a b : vec R) :
  Line a b 0 None = Ok (straight (Line_attrs a b 0 None) a b).
Proof.
  unfold Line, Line_generate_points. cbn [truthy path_arc Line_attrs bind].
  unfold account_for_buff. cbn [buff with_points Line_attrs]. unsc.
  rewrite Reqb_true by reflexivity. reflexivity.
Qed.

Lemma straight_facts (m : @mob R) (a b : vec R) :
  submobjects m = [] -> tip m = None -> start_tip m = None ->
  let l := straight m a b in
  wf l /\ get_start_and_end l = Ok (a, b)
  /\ VMobject_get_start (points l) = Ok a /\ VMobject_get_end (points l) = Ok b
  /\ get_last_handle l = Ok (interpolate a b (2 / 3))
  /\ get_first_handle l = Ok (interpolate a b (1 / 3))
  /\ has_tip l = false /\ has_start_tip l = false.
Proof.
  intros H1 H2 H3. cbv zeta. unfold straight.
  assert (P : points (with_points m (set_points_as_corners [a; b]))
              = [a; interpolate a b (1 / 3); interpolate a b (2 / 3); b])
    by (cbn [points with_points]; apply corners_two).
  assert (HT : has_tip (with_points m (set_points_as_corners [a; b])) = false)
    by (unfold has_tip; cbn [tip with_points]; rewrite H2; reflexivity).
  assert (HS : has_start_tip (with_points m (set_points_as_corners [a; b])) = false)
    by (unfold has_start_tip; cbn [start_tip with_points]; rewrite H3; reflexivity).
  split.
  { unfold wf. cbn [submobjects tip start_tip with_points]. rewrite H1, H2, H3.
    split; [constructor|]. split; [intros j []|]. split; intros j X; discriminate. }
  split.
  { unfold get_start_and_end, get_start, get_end. rewrite HT, HS, P. reflexivity. }
  split; [rewrite P; reflexivity|]. split; [rewrite P; reflexivity|].
  split; [unfold get_last_handle; rewrite P; reflexivity|].
  split; [unfold get_first_handle; rewrite P; reflexivity|].
  split; assumption.
Qed.

Lemma get_norm_horizontal (x : R) : get_norm (V x 0) = Rabs x.
Proof.
  unfold get_norm. unsc. cbn [vx vy].
  replace (x * x + 0 * 0) with (x²) by (unfold Rsqr; ring). apply sqrt_Rsqr_abs.
Qed.

(** The round trip on the line from (0,0) to (4,0), with a unit tip at the
    end. *)
Lemma add_tip_pop_tips_round_trip_witness :
  exists m m1 m2 tips,
    Line (V 0 0) (V 4 0) 0 None = Ok m
    /\ add_tip 3 m (Some 1) false = Ok m1
    /\ pop_tips 3 m1 = Ok (m2, tips)
    /\ get_start_and_end m2 = Ok (V 0 0, V 4 0)
    /\ VMobject_get_start (points m2) = Ok (V 0 0)
    /\ VMobject_get_end (points m2) = Ok (V 4 0)
    /\ has_tip m2 = false /\ has_start_tip m2 = false.
Proof.
  rewrite Line_straight.
  set (l := straight (Line_attrs (V 0 0) (V 4 0) 0 None) (V 0 0) (V 4 0)).
  destruct (@straight_facts (Line_attrs (V 0 0) (V 4 0) 0 None) (V 0 0) (V 4 0)
              eq_refl eq_refl eq_refl)
    as (Hw & Hse & Hbs & Hbe & Hlh & _ & _ & _).
  fold l in Hw, Hse, Hbs, Hbe, Hlh.
  assert (Hb : bare l) by (left; discriminate).
  assert (Hne : V 0 0 <> V 4 0 :> vec R) by (intro X; injection X; lra).
  assert (Hh : interpolate (V 0 0) (V 4 0) (2 / 3) = V (8 / 3) 0).
  { unfold interpolate, vadd, vscale. unsc. cbn [vx vy]. apply vec_eq; cbn [vx vy]; field. }
  rewrite Hh in Hlh.
  assert (Hd : vsub (V (8 / 3) 0) (V 4 0) = V (- (4 / 3)) 0).
  { unfold vsub. unsc. cbn [vx vy]. apply vec_eq; cbn [vx vy]; field. }
  assert (Hbase : forall tp, create_tip l (Some 1) false = Ok tp ->
                             ArrowTip_get_base tp <> V 0 0).
  { intros tp Htp.
    destruct (@create_tip_spec l (Some 1) false (V 4 0) (V (8 / 3) 0) 1)
      as (tp' & Hc & _ & _ & _ & Hb').
    - cbn [anchor_of]. apply (get_start_and_end_inv _ Hse).
    - exact Hlh.
    - reflexivity.
    - rewrite Hc in Htp. injection Htp as <-.
      rewrite Hb'; [|lra|intro X; injection X; lra].
      rewrite Hd, get_norm_horizontal. rewrite Rabs_left by lra.
      unfold vadd, vscale. unsc. cbn [vx vy]. intro X. injection X. intros _ X1.
      field_simplify in X1. lra. }
  destruct (@add_tip_pop_tips_round_trip 0 l (Some 1) false (V 0 0) (V 4 0) (V 0 0) (V 4 0)
              Hw Hb Hse Hne Hbs Hbe Hne Hbase)
    as (m1 & m2 & tips & H1 & H2 & H3 & H4 & H5 & H6 & H7).
  exists l, m1, m2, tips. auto 10.
Defined.

End StraightLines.

Ltac vsimpl :=
  unfold similarity, cmul, cdiv, interpolate, place;
  unfold vadd, vsub, vscale, rot; unfold LEFT, RIGHT, ORIGIN, UP;
  cbn [s0 s1 s2 s3 sadd ssub smul sdiv sopp ssqrt seqb sltb sleb Ideal
       sPI scos ssin sacos sarg IdealTrig vx vy].
Ltac veq := apply vec_eq; vsimpl.

(** ** An arc of angle zero *)

Section StraightArcs.
Local Open Scope R_scope.
Local Abbreviation mobR := (@mob R).
Implicit Types m : mobR.

Lemma plain_scale_spec (m : @mob R) f a :
  NoDup (submobjects m) ->
  exists m1,
    plain_scale m f a = Ok m1
    /\ moved (fun p => vadd (vscale f (vsub p (about_or_center m a))) (about_or_center m a)) m m1
    /\ keeps m m1 /\ same_config m m1.
Proof.
  intro Hn. eexists. split; [reflexivity|].
  split; [apply moved_apf; exact Hn|].
  split; [apply keeps_apf; exact Hn | apply same_config_apf].
Qed.

Lemma no_members (l : list nat) : (forall j, In j l <-> In j []) -> l = [].
Proof.
  destruct l as [|x l]; [reflexivity|]. intro H. exfalso.
  apply (proj1 (H x)). left. reflexivity.
Qed.

Lemma LEFT_RIGHT : (LEFT : vec R) <> RIGHT.
Proof. unfold LEFT, RIGHT. unsc. intro X. injection X. lra. Qed.

Lemma py_div_components (x : R) :
  py_div x (sofnat 9 - s1)%sc = Ok (x / (sofnat 9 - s1))%sc.
Proof.
  unfold py_div.
  assert (E : seqb (sofnat 9 - s1)%sc s0 = false).
  { cbn [sofnat]. unsc. apply Reqb_false. lra. }
  rewrite E. reflexivity.
Qed.

Lemma set_pre_positioned_points_ok (a b : R) :
  exists pts, set_pre_positioned_points a b 9 = Ok pts.
Proof.
  unfold set_pre_positioned_points. rewrite py_div_components. cbn [bind].
  eexists. reflexivity.
Qed.

Lemma Arc_generate_points_shape (m : @mob R) :
  radius m = None -> num_components m = 9%nat ->
  exists pts,
    Arc_generate_points m
    = Ok (Mobject_shift
            (Mobject_scale (with_radius (with_points m pts) (Some (Finite 1)))
               1 (Some ORIGIN))
            (arc_center m)).
Proof.
  intros Hr Hn. unfold Arc_generate_points. rewrite Hn.
  destruct (set_pre_positioned_points_ok (start_angle m) (angle m)) as (pts & Hp).
  rewrite Hp. cbn [bind]. exists pts.
  cbn [radius with_points]. rewrite Hr. cbn [radius with_radius]. reflexivity.
Qed.

(** [ArcBetweenPoints(a, b, angle=0)]: the straight path from [a] to [b]. *)
Lemma ABP_straight (a b : vec R) :
  exists m,
    ArcBetweenPoints a b 0 None = Ok m
    /\ cls m = KArcBetweenPoints
    /\ submobjects m = [] /\ tip m = None /\ start_tip m = None
    /\ radius m = Some (Finite 1)
    /\ tip_length m = DEFAULT_ARROW_TIP_LENGTH
    /\ points m = map (similarity LEFT (vsub RIGHT LEFT) a (vsub b a))
                    (set_points_as_corners [LEFT; RIGHT]).
Proof.
  unfold ArcBetweenPoints.
  set (m0 := ArcBetweenPoints_attrs a b 0 None).
  change (radius m0) with (@None (radius_t R)). cbn [bind].
  destruct (@Arc_generate_points_shape m0 eq_refl eq_refl) as (pts & Hg).
  rewrite Hg. cbn [bind]. clear Hg.
  set (inner := Mobject_shift
                  (Mobject_scale (with_radius (with_points m0 pts) (Some (Finite 1)))
                     1 (Some ORIGIN)) (arc_center m0)).
  assert (Ha : seqb (angle inner) s0 = true) by (apply Reqb_true; reflexivity).
  rewrite Ha.
  change (with_points inner (set_points_as_corners [LEFT; RIGHT]))
    with (straight inner LEFT RIGHT).
  destruct (@straight_facts inner LEFT RIGHT eq_refl eq_refl eq_refl)
    as (Hw & Hse & _).
  set (m3 := straight inner LEFT RIGHT) in *.
  destruct (@Mobject_puts_spec plain_scale m3 a b LEFT RIGHT (proj1 Hw) Hse LEFT_RIGHT)
    as (m4 & Hp & M & K & C).
  { intros f p. apply plain_scale_spec. apply Hw. }
  change (start m3) with a. change (end_ m3) with b.
  rewrite Hp. cbn [bind].
  assert (Hr : radius m4 = Some (Finite 1)).
  { destruct C as (_ & c2 & _). rewrite c2. reflexivity. }
  rewrite Hr. exists m4. split; [reflexivity|].
  destruct K as (k1 & k2 & k3 & k4 & _).
  split; [rewrite k1; reflexivity|].
  split; [apply no_members; exact k4|].
  split; [rewrite k2; reflexivity|]. split; [rewrite k3; reflexivity|].
  split; [exact Hr|].
  split; [destruct C as (c1 & _); rewrite c1; reflexivity|].
  apply M.
Qed.

End StraightArcs.

(** ** Which tips a curve knows *)

Section TipBookkeeping.
Context {F : Type} {SC : Scalar F} {TR : Trig F}.
Local Abbreviation vec := (vec F).
Local Abbreviation mob := (@mob F).
Implicit Types m : mob.

Lemma add_tip_children_spec
    (n : nat) m (tl : option F) (at_start : bool) m' :
  wf m -> add_tip n m tl at_start = Ok m' ->
  exists i,
    attr m' at_start = Some i
    /\ In i (submobjects m') /\ ~ In i (submobjects m)
    /\ attr m at_start <> Some i
    /\ (forall j, In j (submobjects m) -> In j (submobjects m')).
Proof.
  intros Hw H.
  destruct (proj2 (proj2 (proj2 (protocol_inv n))) _ _ _ _ Hw H)
    as (_ & i & l & Hi1 & Hi2 & Hattr & Hsub & Hil & Hnl & Hl).
  exists i. destruct Hw as (w1 & w2 & w3 & w4).
  split; [unfold attr; destruct at_start; apply Hattr|].
  split; [rewrite Hsub; apply in_app_iff; right; left; reflexivity|].
  split; [intro X; apply Hl in X; contradiction|].
  split.
  - unfold attr. intro X. destruct at_start; [apply w4 in X | apply w3 in X]; lia.
  - intros j Hj. rewrite Hsub. apply in_app_iff. left. apply Hl. exact Hj.
Qed.

(** C6 (amended).  A tip attached at an end becomes the object that the
    end's attribute names (so each end names at most one tip) and a new
    child of the curve; every child the curve already had, a tip attached
    earlier at that end included, remains a child. *)
Theorem add_tip_keeps_previous_children
    (n : nat) m (tl : option F) (at_start : bool) m' :
  wf m -> add_tip n m tl at_start = Ok m' ->
  exists i,
    attr m' at_start = Some i
    /\ In i (submobjects m') /\ ~ In i (submobjects m)
    /\ attr m at_start <> Some i
    /\ (forall j, In j (submobjects m) -> In j (submobjects m')).
Proof. apply add_tip_children_spec. Qed.

(** No tip attribute was ever assigned: [get_tip] raises. *)
Lemma get_tip_no_attribute m :
  tip m = None -> start_tip m = None ->
  get_tip m = Raise (Exception "tip not found").
Proof. intros H1 H2. unfold get_tip, get_tips. rewrite H1, H2. reflexivity. Qed.

(** A tip attribute survives the detachment of the tip. *)
Lemma get_tip_stale m t :
  tip m = Some t -> get_tip m = Ok t.
Proof.
  intro H. unfold get_tip, get_tips. rewrite H. cbn [hasattr vgroup_add filter app].
  destruct (start_tip m) as [st|]; cbn [hasattr vgroup_add filter]; [|reflexivity].
  destruct (negb (Nat.eqb t st)) eqn:E; cbn [app]; [reflexivity|].
  apply negb_false_iff, Nat.eqb_eq in E. subst. reflexivity.
Qed.

End TipBookkeeping.

Section TipBookkeeping2.
Local Open Scope R_scope.
Local Abbreviation mobR := (@mob R).
Implicit Types m : mobR.

Lemma get_last_handle_map (g : vec R -> vec R) (m m' : @mob R) h :
  points m' = map g (points m) -> get_last_handle m = Ok h ->
  get_last_handle m' = Ok (g h).
Proof.
  unfold get_last_handle. intros -> H. rewrite <- map_rev.
  destruct (rev (points m)) as [|a [|b l]]; try discriminate.
  injection H as <-. reflexivity.
Qed.

Lemma line04_tipped :
  exists m1 t1,
    Line (V 0 0) (V 4 0) 0 None = Ok line04
    /\ get_tip line04 = Raise (Exception "tip not found")
    /\ add_tip 3 line04 (Some 1) false = Ok m1
    /\ wf m1 /\ cls m1 = KLine
    /\ tip m1 = Some t1 /\ In t1 (submobjects m1) /\ start_tip m1 = None
    /\ get_start_and_end m1 = Ok (V 0 0, V 4 0)
    /\ (exists h, get_last_handle m1 = Ok h)
    /\ VMobject_get_start (points m1) = Ok (V 0 0)
    /\ VMobject_get_end (points m1) = Ok (V 3 0).
Proof.
  destruct (@straight_facts (Line_attrs (V 0 0) (V 4 0) 0 None) (V 0 0) (V 4 0)
              eq_refl eq_refl eq_refl)
    as (Hw & Hse & Hbs & Hbe & Hlh & _ & _ & _).
  fold line04 in Hw, Hse, Hbs, Hbe, Hlh.
  assert (Hb : bare line04) by (left; discriminate).
  assert (Hne : V 0 0 <> V 4 0 :> vec R) by (intro X; injection X; lra).
  destruct (@add_tip_spec 0 line04 (Some 1) false (V 0 0) (V 4 0) _ 1
              Hw Hb Hse Hne Hlh eq_refl)
    as (tp & m' & Hct & Hlen & Hfirst & _ & Hbase & Hput & Hadd & K & C & M & Hse1).
  pose proof (wf_keeps Hw K) as Hw'.
  destruct (attach_end tp Hw') as (A1 & A2 & A3 & A4 & A5 & A6 & A7 & A8).
  assert (Hbv : ArrowTip_get_base tp = V 3 0).
  { rewrite Hbase; [|lra|].
    - cbv iota.
      replace (vsub (interpolate (V 0 0) (V 4 0) (2 / 3)) (V 4 0)) with (V (- (4 / 3)) 0 : vec R)
        by (veq; field).
      rewrite get_norm_horizontal, Rabs_left by lra. veq; field.
    - cbv iota. intro X. apply (f_equal (@vx R)) in X. revert X. vsimpl. lra. }
  exists (attach m' tp false), (fresh_id (heap m')).
  split; [apply Line_straight|].
  split; [apply get_tip_no_attribute; reflexivity|].
  split; [exact Hadd|].
  split.
  { eapply added_wf; [exact Hw|].
    apply (proj2 (proj2 (proj2 (protocol_inv 3))) _ _ _ _ Hw Hadd). }
  split; [rewrite A8; destruct K as (k1 & _); rewrite k1; reflexivity|].
  split; [exact A1|].
  split.
  { apply has_tip_true in A3. destruct A3 as (t & Et & Hin). congruence. }
  split; [rewrite A2; destruct K as (_ & _ & k3 & _); rewrite k3; reflexivity|].
  split; [exact Hse1|].
  destruct M as [Mp _]. cbv iota in Mp. rewrite Hbv in Mp.
  split.
  { eexists. eapply get_last_handle_map; [|exact Hlh]. rewrite A6. exact Mp. }
  split.
  - rewrite A6, Mp. erewrite VMobject_get_start_map by exact Hbs.
    rewrite similarity_start. reflexivity.
  - rewrite A6, Mp. erewrite VMobject_get_end_map by exact Hbe.
    rewrite similarity_end by exact Hne. reflexivity.
Qed.

(** C6, as stated, fails.  A second tip attached at the end of the line: the
    attribute names the new tip, and the first tip is still a child. *)
Lemma second_tip_keeps_first :
  exists m1 m2 t1 t2,
    add_tip 3 line04 (Some 1) false = Ok m1 /\ tip m1 = Some t1
    /\ add_tip 3 m1 (Some 1) false = Ok m2 /\ tip m2 = Some t2
    /\ t1 <> t2
    /\ In t1 (submobjects m2) /\ In t2 (submobjects m2).
Proof.
  destruct line04_tipped
    as (m1 & t1 & _ & _ & Hadd & Hw1 & Hc1 & Ht1 & Hin1 & _ & Hse1 & (h & Hh) & _ & _).
  assert (Hb : bare m1) by (left; rewrite Hc1; discriminate).
  assert (Hne : V 0 0 <> V 4 0 :> vec R) by (intro X; injection X; lra).
  destruct (@add_tip_spec 0 m1 (Some 1) false (V 0 0) (V 4 0) h 1
              Hw1 Hb Hse1 Hne Hh eq_refl)
    as (tp & m' & _ & _ & _ & _ & _ & _ & Hadd2 & _).
  destruct (add_tip_children_spec 3 (Some 1) false Hw1 Hadd2)
    as (t2 & Ha & Hin2 & Hnin & Hne2 & Hkeep).
  exists m1, (attach m' tp false), t1, t2.
  split; [exact Hadd|]. split; [exact Ht1|]. split; [exact Hadd2|].
  split; [exact Ha|].
  split; [intro X; subst; contradiction|].
  split; [apply Hkeep; exact Hin1 | exact Hin2].
Qed.

(** C8.  On the fresh line [get_tip] raises.  After a tip was attached and
    [pop_tips] has detached it, no tip is attached ([has_tip] and
    [has_start_tip] are false), and [get_tip] does not raise: it returns the
    detached tip. *)
Theorem get_tip_after_pop_tips :
  exists m1 m2 tips t,
    get_tip line04 = Raise (Exception "tip not found")
    /\ add_tip 3 line04 (Some 1) false = Ok m1
    /\ pop_tips 3 m1 = Ok (m2, tips)
    /\ has_tip m2 = false /\ has_start_tip m2 = false
    /\ get_tip m2 = Ok t.
Proof.
  destruct line04_tipped
    as (m1 & t1 & _ & Hg & Hadd & Hw1 & Hc1 & Ht1 & Hin1 & _ & Hse1 & _ & Hbs & Hbe).
  assert (Hne : V 0 0 <> V 3 0 :> vec R) by (intro X; injection X; lra).
  destruct (pop_tips_spec 0 Hw1 Hse1 Hbs Hbe Hne)
    as (m2 & Hpop & _ & _ & _ & T2 & S2 & K & _).
  exists m1, m2, (snd (detach m1)), t1.
  split; [exact Hg|]. split; [exact Hadd|]. split; [exact Hpop|].
  split; [exact T2|]. split; [exact S2|].
  apply get_tip_stale.
  destruct K as (_ & k2 & _). rewrite k2.
  destruct (detach_spec m1 (proj1 Hw1)) as (_ & d2 & _). rewrite d2. exact Ht1.
Qed.

(** The first tip attached to the line from (0,0) to (4,0). *)
Lemma add_tip_keeps_previous_children_witness :
  exists m1 i,
    add_tip 3 line04 (Some 1) false = Ok m1
    /\ attr m1 false = Some i
    /\ In i (submobjects m1) /\ ~ In i (submobjects line04).
Proof.
  destruct line04_tipped as (m1 & t1 & _ & _ & Hadd & _).
  destruct (@straight_facts (Line_attrs (V 0 0) (V 4 0) 0 None) (V 0 0) (V 4 0)
              eq_refl eq_refl eq_refl) as (Hw & _).
  destruct (add_tip_keeps_previous_children 3 (Some 1) false Hw Hadd)
    as (i & H1 & H2 & H3 & _).
  exists m1, i. auto.
Defined.

End TipBookkeeping2.

(** ** get_arc_center and the radius on record *)

Section ArcCentre.
Context {F : Type} {SC : Scalar F} {TR : Trig F}.
Local Abbreviation vec := (vec F).
Local Abbreviation mob := (@mob F).
Implicit Types m : mob.

Lemma same_config_Mobject_puts_plain m (s e : vec) m' :
  Mobject_put_start_and_end_on plain_scale m s e = Ok m' -> same_config m m'.
Proof.
  unfold Mobject_put_start_and_end_on. intro H.
  apply bind_ok in H. destruct H as (se & _ & H).
  destruct (veqb _ _); [discriminate|].
  unfold plain_scale in H. cbn [bind] in H. injection H as <-.
  unfold Mobject_shift, Mobject_rotate, Mobject_scale.
  eapply same_config_trans; [|apply same_config_apf].
  eapply same_config_trans; [|apply same_config_apf].
  apply same_config_apf.
Qed.

Lemma Arc_generate_points_radius m m' :
  radius m = None -> Arc_generate_points m = Ok m' ->
  radius m' = Some (Finite s1) /\ failed_to_get_center m' = failed_to_get_center m
  /\ start m' = start m /\ end_ m' = end_ m.
Proof.
  intros Hr H. unfold Arc_generate_points in H.
  apply bind_ok in H. destruct H as (pts & _ & H).
  cbn [radius with_points] in H. rewrite Hr in H. cbn [radius with_radius] in H.
  injection H as <-. repeat split.
Qed.

Lemma ABP_by_angle_radius (s e : vec) (a : F) m :
  ArcBetweenPoints s e a None = Ok m ->
  radius m = Some (Finite s1) /\ failed_to_get_center m = false.
Proof.
  unfold ArcBetweenPoints. intro H.
  cbn [radius ArcBetweenPoints_attrs new_mob option_map bind] in H.
  apply bind_ok in H. destruct H as (m1 & Hg & H).
  apply Arc_generate_points_radius in Hg; [|reflexivity].
  destruct Hg as (Hr & Hf & _).
  apply bind_ok in H. destruct H as (m2 & Hp & H).
  apply same_config_Mobject_puts_plain in Hp.
  destruct Hp as (_ & c2 & _ & _ & _ & _ & c7 & _).
  assert (R2 : radius m2 = Some (Finite s1)).
  { rewrite c2. destruct (seqb (angle m1) s0); exact Hr. }
  assert (F2 : failed_to_get_center m2 = false).
  { rewrite c7. destruct (seqb (angle m1) s0); cbn; rewrite Hf; reflexivity. }
  rewrite R2 in H. injection H as <-. split; assumption.
Qed.

End ArcCentre.

Section ArcCentre2.
Local Open Scope R_scope.
Local Abbreviation mobR := (@mob R).
Implicit Types m : mobR.

Lemma quarter_turn_spec (t : vec R) : quarter_turn t = V (- vy t) (vx t).
Proof.
  unfold quarter_turn, rotate_vector, rot, TAU. cbn [sofnat]. unsc.
  replace (2 * PI / (1 + 1 + 1 + 1)) with (PI / 2) by field.
  rewrite cos_PI2, sin_PI2. apply vec_eq; cbn [vx vy]; ring.
Qed.

Lemma get_arc_center_parallel (m : @mob R) a1 h1 h2 a2 rest :
  points m = a1 :: h1 :: h2 :: a2 :: rest ->
  parallel (quarter_turn (vsub h1 a1)) (quarter_turn (vsub h2 a2)) ->
  get_arc_center m = Ok (ORIGIN, with_failed_to_get_center m true).
Proof.
  intros Hp Hpar. unfold get_arc_center. rewrite Hp.
  fold (quarter_turn (vsub h1 a1)). fold (quarter_turn (vsub h2 a2)).
  unfold parallel in Hpar.
  set (n1 := quarter_turn (vsub h1 a1)) in *.
  set (n2 := quarter_turn (vsub h2 a2)) in *.
  unfold line_intersection.
  assert (E : seqb (det (ssub (vx (fst (a1, vadd a1 n1))) (vx (snd (a1, vadd a1 n1))),
                         ssub (vx (fst (a2, vadd a2 n2))) (vx (snd (a2, vadd a2 n2))))
                        (ssub (vy (fst (a1, vadd a1 n1))) (vy (snd (a1, vadd a1 n1))),
                         ssub (vy (fst (a2, vadd a2 n2))) (vy (snd (a2, vadd a2 n2))))) s0
              = true).
  { apply Reqb_true. unfold det, vadd. cbn [fst snd vx vy]. unsc.
    cbn [s0 ssub smul Ideal] in Hpar. lra. }
  cbv zeta. rewrite E. reflexivity.
Qed.

Lemma straight_parallel (s e : vec R) :
  exists a1 h1 h2 a2,
    map (similarity LEFT (vsub RIGHT LEFT) s (vsub e s))
      (set_points_as_corners [LEFT; RIGHT]) = [a1; h1; h2; a2]
    /\ parallel (quarter_turn (vsub h1 a1)) (quarter_turn (vsub h2 a2)).
Proof.
  rewrite corners_two. cbn [map].
  do 4 eexists. split; [reflexivity|].
  rewrite !quarter_turn_spec. unfold parallel. vsimpl. field.
Qed.

(** C5.  Centre inference on an arc path whose two normals are parallel
    does not raise: [get_arc_center] returns the origin and raises the flag
    [_failed_to_get_center].  ArcBetweenPoints built from an angle, with no
    radius given, never reaches that fallback: [Arc.generate_points] has
    already replaced the missing radius by 1.0, so the radius recorded is 1,
    never infinite, and the flag stays down -- also for the straight
    segment produced by angle 0, whose normals are parallel. *)
Theorem straight_arc_radius_not_infinite :
  (forall (m : @mob R) a1 h1 h2 a2 rest,
      points m = a1 :: h1 :: h2 :: a2 :: rest ->
      parallel (quarter_turn (vsub h1 a1)) (quarter_turn (vsub h2 a2)) ->
      get_arc_center m = Ok (ORIGIN, with_failed_to_get_center m true))
  /\ (forall (s e : vec R) (a : R) m,
      ArcBetweenPoints s e a None = Ok m ->
      radius m = Some (Finite 1) /\ failed_to_get_center m = false)
  /\ (forall s e : vec R, exists m a1 h1 h2 a2,
      ArcBetweenPoints s e 0 None = Ok m
      /\ points m = [a1; h1; h2; a2]
      /\ parallel (quarter_turn (vsub h1 a1)) (quarter_turn (vsub h2 a2))
      /\ get_arc_center m = Ok (ORIGIN, with_failed_to_get_center m true)
      /\ radius m = Some (Finite 1)).
Proof.
  split; [intros; eapply get_arc_center_parallel; eassumption|].
  split; [intros s e a m H; exact (@ABP_by_angle_radius _ _ _ _ _ _ _ H)|].
  intros s e.
  destruct (ABP_straight s e) as (m & Hm & _ & _ & _ & _ & Hr & _ & Hp).
  destruct (straight_parallel s e) as (a1 & h1 & h2 & a2 & Hl & Hpar).
  exists m, a1, h1, h2, a2.
  rewrite Hl in Hp.
  split; [exact Hm|]. split; [exact Hp|]. split; [exact Hpar|].
  split; [eapply get_arc_center_parallel; eassumption | exact Hr].
Qed.

End ArcCentre2.

(** ** The ends of an Arc and the chord between them *)

Section Chords.
Local Open Scope R_scope.
Local Abbreviation mobR := (@mob R).
Implicit Types m : mobR.

Lemma pre_positioned_ends (sa th : R) :
  exists pts,
    set_pre_positioned_points sa th 9 = Ok pts
    /\ VMobject_get_start pts = Ok (circle_point ORIGIN 1 sa)
    /\ VMobject_get_end pts = Ok (circle_point ORIGIN 1 (sa + th))
    /\ length pts = 32%nat.
Proof.
  unfold set_pre_positioned_points. rewrite py_div_components. cbn [bind].
  eexists. split; [reflexivity|].
  unfold linspace.
  cbn [seq map app removelast tl combine set_anchors_and_handles fst snd
       VMobject_get_start VMobject_get_end last length].
  split; [|split; [|reflexivity]].
  - f_equal. unfold circle_point.
    assert (E : (sofnat 0 * ((sa + th - sa) / sofnat 8) + sa)%sc = sa).
    { cbn [sofnat]. unsc. field. }
    rewrite E. veq; ring.
  - f_equal. unfold circle_point. veq; ring.
Qed.

Lemma Arc_generate_points_ends (m : @mob R) (r : R) :
  radius m = Some (Finite r) -> num_components m = 9%nat ->
  NoDup (submobjects m) ->
  exists m',
    Arc_generate_points m = Ok m'
    /\ VMobject_get_start (points m')
       = Ok (circle_point (arc_center m) r (start_angle m))
    /\ VMobject_get_end (points m')
       = Ok (circle_point (arc_center m) r (start_angle m + angle m))
    /\ length (points m') = 32%nat
    /\ keeps m m' /\ same_config m m'
    /\ submobjects m' = submobjects m /\ start m' = start m /\ end_ m' = end_ m.
Proof.
  intros Hr Hn Hd. unfold Arc_generate_points. rewrite Hn.
  destruct (pre_positioned_ends (start_angle m) (angle m)) as (pts & Hp & Hs & He & Hl).
  rewrite Hp. cbn [bind radius with_points]. rewrite Hr.
  change (radius (with_points m pts)) with (radius m). rewrite Hr.
  eexists. split; [reflexivity|].
  change (arc_center (Mobject_scale (with_points m pts) r (Some ORIGIN)))
    with (arc_center m).
  set (m1 := Mobject_scale (with_points m pts) r (Some ORIGIN)).
  assert (P : points (Mobject_shift m1 (arc_center m))
              = map (fun p => vadd p (arc_center m))
                  (map (fun p => vadd (vscale r (vsub p ORIGIN)) ORIGIN) pts))
    by reflexivity.
  rewrite P.
  split.
  { rewrite (VMobject_get_start_map _ _ (VMobject_get_start_map _ _ Hs)).
    f_equal. unfold circle_point. veq; ring. }
  split.
  { rewrite (VMobject_get_end_map _ _ (VMobject_get_end_map _ _ He)).
    f_equal. unfold circle_point. veq; ring. }
  split; [rewrite !length_map; exact Hl|].
  split.
  { eapply keeps_trans; [|apply keeps_apf; exact Hd].
    eapply keeps_trans; [apply keeps_with_points; exact Hd|].
    apply keeps_apf. exact Hd. }
  split.
  { eapply same_config_trans; [|apply same_config_apf].
    eapply same_config_trans; [|apply same_config_apf].
    unfold same_config. repeat split. }
  repeat split.
Qed.

Lemma chord_sqr (a th : R) :
  (cos a - cos (a + th)) * (cos a - cos (a + th))
  + (sin a - sin (a + th)) * (sin a - sin (a + th))
  = 4 * (sin (th / 2) * sin (th / 2)).
Proof.
  assert (C : cos th = 1 - 2 * sin (th / 2) * sin (th / 2)).
  { replace th with (2 * (th / 2)) at 1 by field. apply cos_2a_sin. }
  rewrite cos_plus, sin_plus.
  pose proof (sin2_cos2 a) as Pa. pose proof (sin2_cos2 th) as Pt.
  unfold Rsqr in *.
  assert (Q : sin th * sin th = 1 - cos th * cos th) by lra.
  transitivity (2 - 2 * cos th); [|rewrite C; ring].
  transitivity ((cos a * cos a + sin a * sin a) *
                (1 - 2 * cos th + (cos th * cos th + sin th * sin th))); [ring|].
  rewrite Q.
  replace (cos a * cos a + sin a * sin a) with 1 by lra. ring.
Qed.

Lemma chord_length (c : vec R) (r a th : R) :
  0 <= r ->
  get_norm (vsub (circle_point c r a) (circle_point c r (a + th)))
  = 2 * r * Rabs (sin (th / 2)).
Proof.
  intro Hr. unfold get_norm, circle_point, vsub. cbn [vx vy]. unsc.
  apply sqrt_lem_1.
  - apply Rplus_le_le_0_compat; apply Rle_0_sqr.
  - pose proof (Rabs_pos (sin (th / 2))). nra.
  - pose proof (chord_sqr a th) as Hc.
    assert (A : Rabs (sin (th / 2)) * Rabs (sin (th / 2))
                = sin (th / 2) * sin (th / 2)).
    { rewrite <- Rabs_mult. apply Rabs_right. nra. }
    transitivity (r * r * (4 * (Rabs (sin (th / 2)) * Rabs (sin (th / 2))))); [ring|].
    rewrite A, <- Hc. ring.
Qed.

End Chords.

(** ** ArcBetweenPoints with an explicit radius *)

Section ArcRadius.
Local Open Scope R_scope.
Local Abbreviation mobR := (@mob R).
Implicit Types m : mobR.

Lemma ABP_finish (m3 : @mob R) (cs ce : vec R) x :
  submobjects m3 = [] -> tip m3 = None -> start_tip m3 = None ->
  VMobject_get_start (points m3) = Ok cs ->
  VMobject_get_end (points m3) = Ok ce ->
  cs <> ce -> radius m3 = Some x ->
  exists m4,
    Mobject_put_start_and_end_on plain_scale m3 (start m3) (end_ m3) = Ok m4
    /\ radius m4 = Some x
    /\ VMobject_get_start (points m4) = Ok (start m3)
    /\ VMobject_get_end (points m4) = Ok (end_ m3).
Proof.
  intros Hsub Ht Hst Hs He Hne Hr.
  assert (Hd : NoDup (submobjects m3)) by (rewrite Hsub; constructor).
  assert (Hse : get_start_and_end m3 = Ok (cs, ce)).
  { apply bare_get_start_and_end; try assumption.
    - unfold has_tip. rewrite Ht. reflexivity.
    - unfold has_start_tip. rewrite Hst. reflexivity. }
  destruct (@Mobject_puts_spec plain_scale m3 (start m3) (end_ m3) cs ce Hd Hse Hne)
    as (m4 & Hp & M & K & C).
  { intros f p. apply plain_scale_spec. exact Hd. }
  exists m4. split; [exact Hp|].
  split; [destruct C as (_ & c2 & _); rewrite c2; exact Hr|].
  destruct M as (Mp & _). rewrite Mp.
  split.
  - rewrite (VMobject_get_start_map _ _ Hs). f_equal. apply similarity_start.
  - rewrite (VMobject_get_end_map _ _ He). f_equal. apply similarity_end. exact Hne.
Qed.

Lemma halfdist_nonneg (p1 p2 : vec R) : 0 <= halfdist p1 p2.
Proof.
  unfold halfdist, get_norm. unsc.
  pose proof (sqrt_pos (vx (vsub p1 p2) * vx (vsub p1 p2)
                        + vy (vsub p1 p2) * vy (vsub p1 p2))).
  lra.
Qed.

Lemma radius_branch_spec (m0 : @mob R) (r sign : R) :
  0 <= r ->
  (if (r <?
       get_norm
         (vsub (start (with_radius m0 (Some (Finite r))))
            (end_ (with_radius m0 (Some (Finite r))))) / s2)%sc
   then
     Raise
       (ValueError
          "ArcBetweenPoints called with a radius that is
                            smaller than half the distance between the points.")
   else
     root <-
       math_sqrt
         (spow r 2 -
          spow
            (get_norm
               (vsub (start (with_radius m0 (Some (Finite r))))
                  (end_ (with_radius m0 (Some (Finite r))))) / s2) 2)%sc ;;
     q <- py_div (r - (r - root))%sc r ;;
     ac <- math_acos q ;;
     Ok (with_angle (with_radius m0 (Some (Finite r))) (ac * sign)%sc))
  = if Rlt_dec r (halfdist (start m0) (end_ m0))
    then Raise
       (ValueError
          "ArcBetweenPoints called with a radius that is
                            smaller than half the distance between the points.")
    else if Req_dec_T r 0 then Raise ZeroDivisionError
    else Ok (with_angle (with_radius m0 (Some (Finite r)))
               (radius_angle (start m0) (end_ m0) r sign)).
Proof.
  intros Hr0.
  change (start (with_radius m0 (Some (Finite r)))) with (start m0).
  change (end_ (with_radius m0 (Some (Finite r)))) with (end_ m0).
  change (get_norm (vsub (start m0) (end_ m0)) / s2)%sc
    with (halfdist (start m0) (end_ m0)).
  pose proof (halfdist_nonneg (start m0) (end_ m0)) as Hh0.
  set (h := halfdist (start m0) (end_ m0)) in *.
  destruct (Rlt_dec r h) as [Hlt | Hge].
  { assert (E1 : sltb r h = true) by (apply Rltb_true; exact Hlt).
    rewrite E1. reflexivity. }
  assert (E1 : sltb r h = false) by (apply Rltb_false; exact Hge).
  rewrite E1.
  assert (E2 : (spow r 2 - spow h 2)%sc = r * r - h * h).
  { cbn [spow]. unsc. ring. }
  rewrite E2.
  assert (Hd : 0 <= r * r - h * h) by nra.
  unfold math_sqrt.
  assert (E3 : sltb (r * r - h * h) s0 = false) by (apply Rltb_false; unsc; lra).
  rewrite E3. cbn [bind]. unsc.
  set (root := sqrt (r * r - h * h)).
  unfold py_div.
  destruct (Req_dec_T r 0) as [Hz | Hnz].
  { assert (E4 : seqb r s0 = true) by (apply Reqb_true; exact Hz).
    rewrite E4. reflexivity. }
  assert (Hr : 0 < r) by lra.
  assert (Hroot : 0 <= root) by apply sqrt_pos.
  assert (Hroot1 : root <= r).
  { unfold root. apply Rle_trans with (sqrt (r * r)).
    - apply sqrt_le_1; nra.
    - rewrite sqrt_square; lra. }
  assert (E4 : seqb r s0 = false) by (apply Reqb_false; unsc; lra).
  rewrite E4. cbn [bind]. unsc.
  assert (E5 : (r - (r - root)) / r = root / r) by (field; lra).
  rewrite E5.
  assert (Hq : 0 <= root / r <= 1).
  { split.
    - apply Rmult_le_pos; [exact Hroot|]. left. apply Rinv_0_lt_compat. exact Hr.
    - apply (Rmult_le_reg_r r); [exact Hr|].
      unfold Rdiv. rewrite Rmult_assoc, Rinv_l by lra. lra. }
  unfold math_acos.
  assert (E6 : sltb (root / r) (sopp s1) = false) by (apply Rltb_false; unsc; lra).
  assert (E7 : sltb s1 (root / r) = false) by (apply Rltb_false; unsc; lra).
  rewrite E6, E7. cbn [orb bind]. unsc. reflexivity.
Qed.

Lemma circle_points_distinct (r th : R) :
  0 < r -> sin (th / 2) <> 0 ->
  circle_point ORIGIN r 0 <> circle_point ORIGIN r (0 + th).
Proof.
  intros Hr Hs E.
  pose proof (@chord_length ORIGIN r 0 th (Rlt_le _ _ Hr)) as Hc.
  rewrite <- E in Hc.
  assert (Z : vsub (circle_point ORIGIN r 0) (circle_point ORIGIN r 0) = ORIGIN)
    by (apply vsub_eq_ORIGIN; reflexivity).
  rewrite Z, get_norm_ORIGIN in Hc.
  assert (A : 0 < Rabs (sin (th / 2))) by (apply Rabs_pos_lt; exact Hs).
  nra.
Qed.

Lemma ABP_tail (m1 : @mob R) (r : R) :
  0 < r -> radius m1 = Some (Finite r) -> num_components m1 = 9%nat ->
  submobjects m1 = [] -> tip m1 = None -> start_tip m1 = None ->
  start_angle m1 = 0 -> arc_center m1 = ORIGIN ->
  (angle m1 <> 0 -> sin (angle m1 / 2) <> 0) ->
  exists m,
    (m <- Arc_generate_points m1 ;;
     let m := if (angle m ==? s0)%sc
              then with_points m (set_points_as_corners [LEFT; RIGHT])
              else m in
     m <- Mobject_put_start_and_end_on plain_scale m (start m) (end_ m) ;;
     match radius m with
     | None =>
         cm <- get_arc_center m ;;
         let '(center, m) := cm in
         if negb (failed_to_get_center m)
         then Ok (with_radius m (Some (Finite (get_norm (vsub (start m) center)))))
         else Ok (with_radius m (Some Infinite))
     | Some _ => Ok m
     end) = Ok m
    /\ VMobject_get_start (points m) = Ok (start m1)
    /\ VMobject_get_end (points m) = Ok (end_ m1).
Proof.
  intros Hr Hrad Hn Hsub Ht Hst Hsa Hc Hsin.
  assert (Hd : NoDup (submobjects m1)) by (rewrite Hsub; constructor).
  destruct (Arc_generate_points_ends m1 Hrad Hn Hd)
    as (m2 & Hg & Hs & He & _ & K & C & Hsub2 & Hst2 & Hen2).
  rewrite Hg. cbn [bind]. cbv zeta.
  rewrite Hsub in Hsub2.
  destruct K as (_ & k2 & k3 & _). rewrite Ht in k2. rewrite Hst in k3.
  destruct C as (_ & c2 & _ & _ & _ & c6 & _). rewrite Hrad in c2.
  rewrite Hsa, Hc in Hs, He.
  destruct (seqb (angle m2) s0) eqn:Ea.
  - destruct (@straight_facts m2 LEFT RIGHT Hsub2 k2 k3) as (_ & _ & Hs3 & He3 & _).
    destruct (@ABP_finish (straight m2 LEFT RIGHT) LEFT RIGHT (Finite r))
      as (m4 & Hp & Hr4 & Hs4 & He4); try assumption; try apply LEFT_RIGHT.
    unfold straight in *. rewrite Hp. cbn [bind]. rewrite Hr4.
    exists m4. split; [reflexivity|].
    rewrite Hs4, He4. cbn [start end_ with_points]. rewrite Hst2, Hen2. split; reflexivity.
  - destruct (@ABP_finish m2 _ _ (Finite r) Hsub2 k2 k3 Hs He)
      as (m4 & Hp & Hr4 & Hs4 & He4); try assumption.
    { apply circle_points_distinct; [exact Hr|].
      apply Hsin. rewrite <- c6.
      apply Reqb_neq. exact Ea. }
    rewrite Hp. cbn [bind]. rewrite Hr4.
    exists m4. split; [reflexivity|].
    rewrite Hs4, He4, Hst2, Hen2. split; reflexivity.
Qed.

Lemma sin_acos_nonzero (q : R) :
  0 <= q <= 1 -> acos q <> 0 -> sin (acos q) <> 0.
Proof.
  intros Hq Hn.
  pose proof (acos_bound q) as Hb.
  assert (Hpi : acos q <> PI).
  { intro E. pose proof (cos_acos q) as Hc. rewrite E, cos_PI in Hc. lra. }
  assert (0 < sin (acos q)) by (apply sin_gt_0; lra).
  lra.
Qed.

Lemma radius_angle_turns (p1 p2 : vec R) (r sign : R) :
  0 < r -> halfdist p1 p2 <= r -> sign = 2 \/ sign = - 2 ->
  radius_angle p1 p2 r sign <> 0 -> sin (radius_angle p1 p2 r sign / 2) <> 0.
Proof.
  intros Hr Hh Hs. unfold radius_angle.
  pose proof (halfdist_nonneg p1 p2) as Hh0.
  set (h := halfdist p1 p2) in *.
  set (q := sqrt (r * r - h * h) / r).
  assert (Hq : 0 <= q <= 1).
  { assert (Hroot : 0 <= sqrt (r * r - h * h)) by apply sqrt_pos.
    assert (Hroot1 : sqrt (r * r - h * h) <= r).
    { apply Rle_trans with (sqrt (r * r)).
      - apply sqrt_le_1; nra.
      - rewrite sqrt_square; lra. }
    unfold q. split.
    - apply Rmult_le_pos; [exact Hroot|]. left. apply Rinv_0_lt_compat. exact Hr.
    - apply (Rmult_le_reg_r r); [exact Hr|].
      unfold Rdiv. rewrite Rmult_assoc, Rinv_l by lra. lra. }
  intro Hn.
  assert (Ha : acos q <> 0).
  { intro E. apply Hn. rewrite E. ring. }
  pose proof (sin_acos_nonzero Hq Ha) as Hsin.
  destruct Hs as [-> | ->].
  - replace (acos q * 2 / 2) with (acos q) by field. exact Hsin.
  - replace (acos q * - 2 / 2) with (- acos q) by field.
    rewrite sin_neg. lra.
Qed.

Lemma ABP_radius_spec (p1 p2 : vec R) (a r0 : R) :
  (Rabs r0 < halfdist p1 p2 ->
   ArcBetweenPoints p1 p2 a (Some r0)
   = Raise (ValueError
       "ArcBetweenPoints called with a radius that is
                            smaller than half the distance between the points."))
  /\ (halfdist p1 p2 <= Rabs r0 -> r0 <> 0 ->
      exists m,
        ArcBetweenPoints p1 p2 a (Some r0) = Ok m
        /\ VMobject_get_start (points m) = Ok p1
        /\ VMobject_get_end (points m) = Ok p2)
  /\ (halfdist p1 p2 <= Rabs r0 -> r0 = 0 ->
      ArcBetweenPoints p1 p2 a (Some r0) = Raise ZeroDivisionError).
Proof.
  unfold ArcBetweenPoints.
  set (m0 := ArcBetweenPoints_attrs p1 p2 a (Some r0)).
  change (radius m0) with (Some (Finite r0)). cbv beta iota.
  pose proof (halfdist_nonneg p1 p2) as Hh0.
  destruct (Rlt_dec r0 0) as [Hneg | Hpos].
  - assert (E : sltb r0 s0 = true) by (apply Rltb_true; exact Hneg).
    rewrite E. cbv beta iota.
    rewrite Rabs_left by exact Hneg.
    assert (Hr : 0 <= (r0 * - s1)%sc) by (unsc; lra).
    rewrite (@radius_branch_spec m0 _ (- s2)%sc Hr).
    change (halfdist (start m0) (end_ m0)) with (halfdist p1 p2).
    change (r0 * - s1)%sc with (r0 * - 1).
    destruct (Rlt_dec (r0 * - 1) (halfdist p1 p2)) as [Hlt | Hge].
    { split; [reflexivity|]. split; intros; exfalso; lra. }
    destruct (Req_dec_T (r0 * - 1) 0) as [Hz | Hnz]; [exfalso; lra|].
    split; [intro; exfalso; lra|]. split; [|intros; exfalso; lra].
    intros _ _. cbn [bind].
    match goal with |- context [Arc_generate_points ?x] =>
      apply (@ABP_tail x (r0 * - 1)) end; try reflexivity; [lra|].
    apply radius_angle_turns; [lra | exact (Rnot_lt_le _ _ Hge) | right; reflexivity].
  - assert (E : sltb r0 s0 = false) by (apply Rltb_false; exact Hpos).
    rewrite E. cbv beta iota.
    rewrite Rabs_right by lra.
    assert (Hr : 0 <= r0) by lra.
    rewrite (@radius_branch_spec m0 _ s2 Hr).
    change (halfdist (start m0) (end_ m0)) with (halfdist p1 p2).
    destruct (Rlt_dec r0 (halfdist p1 p2)) as [Hlt | Hge].
    { split; [reflexivity|]. split; intros; exfalso; lra. }
    destruct (Req_dec_T r0 0) as [Hz | Hnz].
    { split; [intro; exfalso; lra|]. split; [intros; exfalso; lra|].
      reflexivity. }
    split; [intro; exfalso; lra|]. split; [|intros; exfalso; lra].
    intros _ _. cbn [bind].
    match goal with |- context [Arc_generate_points ?x] =>
      apply (@ABP_tail x r0) end; try reflexivity; [lra|].
    apply radius_angle_turns; [lra | exact (Rnot_lt_le _ _ Hge) | left; reflexivity].
Qed.

Lemma halfdist_same (p : vec R) : halfdist p p = 0.
Proof.
  unfold halfdist.
  replace (vsub p p) with (ORIGIN : vec R)
    by (symmetry; apply vsub_eq_ORIGIN; reflexivity).
  rewrite get_norm_ORIGIN. lra.
Qed.

(** C1.  With an explicit radius r, ArcBetweenPoints(p1, p2, radius=r)
    raises ValueError when |r| is smaller than half the distance between
    p1 and p2; when |r| is at least that half distance and r is not 0 it
    succeeds, and the first and last points of the path are p1 and p2.
    The remaining case, r = 0 (so p1 = p2), satisfies the bound too, but
    the construction divides by the radius and raises ZeroDivisionError. *)
Theorem ArcBetweenPoints_radius_cases (p1 p2 : vec R) (a r : R) :
  (Rabs r < halfdist p1 p2 ->
   ArcBetweenPoints p1 p2 a (Some r)
   = Raise (ValueError
       "ArcBetweenPoints called with a radius that is
                            smaller than half the distance between the points."))
  /\ (halfdist p1 p2 <= Rabs r -> r <> 0 ->
      exists m,
        ArcBetweenPoints p1 p2 a (Some r) = Ok m
        /\ VMobject_get_start (points m) = Ok p1
        /\ VMobject_get_end (points m) = Ok p2)
  /\ (halfdist p1 p2 <= Rabs r -> r = 0 ->
      ArcBetweenPoints p1 p2 a (Some r) = Raise ZeroDivisionError)
  /\ halfdist p1 p1 <= Rabs 0
  /\ ArcBetweenPoints p1 p1 a (Some 0) = Raise ZeroDivisionError.
Proof.
  destruct (ABP_radius_spec p1 p2 a r) as (H1 & H2 & H3).
  split; [exact H1|]. split; [exact H2|]. split; [exact H3|].
  assert (Hb : halfdist p1 p1 <= Rabs 0).
  { rewrite halfdist_same, Rabs_R0. lra. }
  split; [exact Hb|].
  destruct (ABP_radius_spec p1 p1 a 0) as (_ & _ & H). apply H; [exact Hb | reflexivity].
Qed.

End ArcRadius.

(** ** account_for_buff *)

Section Buffers.
Local Open Scope R_scope.
Local Abbreviation mobR := (@mob R).
Implicit Types m : mobR.

Lemma bezier_straight (a b : vec R) (t : R) :
  bezier [a; interpolate a b (1 / 3); interpolate a b (2 / 3); b] t
  = interpolate a b t.
Proof.
  unfold bezier, vsum.
  cbn [length Nat.sub bernstein_terms fold_left choose Nat.add spow sofnat].
  veq; field.
Qed.

Lemma integer_interpolate_one (p : R) :
  0 < p < 1 -> integer_interpolate 1 p = (0%nat, p).
Proof.
  intros Hp. unfold integer_interpolate.
  assert (E1 : sleb s1 p = false) by (apply Rleb_false; unsc; lra).
  assert (E2 : sleb p s0 = false) by (apply Rleb_false; unsc; lra).
  rewrite E1, E2. cbn [int_below sofnat].
  assert (E3 : sleb s0 (s1 * p)%sc = true) by (apply Rleb_true; unsc; lra).
  rewrite E3. f_equal. cbn [sofnat]. unsc. ring.
Qed.

Lemma partial_straight (a b : vec R) (p q : R) :
  p <> 1 ->
  partial_bezier_points (set_points_as_corners [a; b]) p q
  = set_points_as_corners [interpolate a b p; interpolate a b q].
Proof.
  intro Hp. rewrite !corners_two. unfold partial_bezier_points.
  assert (E : seqb p s1 = false) by (apply Reqb_false; exact Hp).
  rewrite E. cbv zeta.
  cbn [tails map prefixes length seq firstn].
  unfold bezier, vsum.
  cbn [length Nat.sub bernstein_terms fold_left choose Nat.add spow sofnat].
  assert (Hd : 1 - p <> 0) by lra.
  do 3 (f_equal; [veq; field; exact Hd|]).
  f_equal; veq; field; exact Hd.
Qed.

Lemma tuples_straight (a b : vec R) :
  get_cubic_bezier_tuples (set_points_as_corners [a; b])
  = [set_points_as_corners [a; b]].
Proof. rewrite corners_two. reflexivity. Qed.

Lemma pointwise_become_partial_straight (a b : vec R) (p q : R) :
  0 < p < 1 -> 0 < q < 1 ->
  pointwise_become_partial (set_points_as_corners [a; b]) p q
  = set_points_as_corners [interpolate a b p; interpolate a b q].
Proof.
  intros Hp Hq. unfold pointwise_become_partial.
  assert (E1 : sleb p s0 = false) by (apply Rleb_false; unsc; lra).
  rewrite E1. cbn [andb]. rewrite tuples_straight. cbn [length].
  rewrite !integer_interpolate_one by assumption.
  cbn [Nat.eqb nth]. apply partial_straight. lra.
Qed.

Lemma point_from_proportion_straight (a b : vec R) (t : R) :
  0 <= t <= 1 ->
  point_from_proportion (set_points_as_corners [a; b]) t = interpolate a b t.
Proof.
  intros Ht. unfold point_from_proportion.
  assert (N : get_num_curves (set_points_as_corners [a; b]) = 1%nat)
    by (rewrite corners_two; reflexivity).
  rewrite N.
  assert (Q : get_nth_curve_points (set_points_as_corners [a; b]) 0
              = [a; interpolate a b (1 / 3); interpolate a b (2 / 3); b])
    by (rewrite corners_two; reflexivity).
  destruct (Req_dec_T t 1) as [-> | H1].
  { unfold integer_interpolate.
    assert (E : sleb s1 1 = true) by (apply Rleb_true; unsc; lra).
    rewrite E. cbn [Nat.sub]. rewrite Q. apply bezier_straight. }
  destruct (Req_dec_T t 0) as [-> | H0].
  { unfold integer_interpolate.
    assert (E1 : sleb s1 0 = false) by (apply Rleb_false; unsc; lra).
    assert (E2 : sleb 0 s0 = true) by (apply Rleb_true; unsc; lra).
    rewrite E1, E2. rewrite Q. apply bezier_straight. }
  rewrite integer_interpolate_one by lra. rewrite Q. apply bezier_straight.
Qed.

Lemma get_norm_vscale (k : R) (v : vec R) :
  0 <= k -> get_norm (vscale k v) = k * get_norm v.
Proof.
  intro Hk. unfold get_norm, vscale. cbn [vx vy]. unsc.
  replace (k * vx v * (k * vx v) + k * vy v * (k * vy v))
    with (k * k * (vx v * vx v + vy v * vy v)) by ring.
  rewrite sqrt_mult_alt by nra. rewrite sqrt_square by exact Hk. reflexivity.
Qed.

Lemma get_norm_sym (a b : vec R) : get_norm (vsub a b) = get_norm (vsub b a).
Proof.
  unfold get_norm, vsub. cbn [vx vy]. unsc. f_equal. ring.
Qed.

Lemma norm_interpolate_diff (a b : vec R) (t1 t2 : R) :
  t1 <= t2 ->
  get_norm (vsub (interpolate a b t2) (interpolate a b t1))
  = (t2 - t1) * get_norm (vsub b a).
Proof.
  intro Ht. rewrite <- get_norm_vscale by lra. f_equal. veq; ring.
Qed.

Lemma get_arc_length_straight (a b : vec R) :
  get_arc_length (set_points_as_corners [a; b]) = get_norm (vsub b a).
Proof.
  unfold get_arc_length.
  assert (N : get_num_curves (set_points_as_corners [a; b]) = 1%nat)
    by (rewrite corners_two; reflexivity).
  rewrite N. cbn [Nat.mul Nat.add linspace seq map app].
  rewrite !point_from_proportion_straight by (cbn [sofnat]; unsc; lra).
  cbn [diffs map fold_left].
  rewrite !norm_interpolate_diff by (cbn [sofnat]; unsc; lra).
  cbn [sofnat]. unsc. field.
Qed.

Lemma account_for_buff_zero (m : @mob R) :
  buff m = 0 -> account_for_buff m = Ok m.
Proof.
  intro H. unfold account_for_buff.
  assert (E : seqb (buff m) s0 = true) by (apply Reqb_true; exact H).
  rewrite E. reflexivity.
Qed.

Lemma account_for_buff_spec (m : @mob R) (len : R) :
  measured_length m = Ok len ->
  (len < 2 * buff m -> account_for_buff m = Ok m)
  /\ (buff m <> 0 -> 2 * buff m <= len ->
      account_for_buff m
      = Ok (with_points m
              (pointwise_become_partial (points m)
                 (buff m / len) (1 - buff m / len)))).
Proof.
  intro Hm. unfold measured_length in Hm. unfold account_for_buff.
  rewrite Hm. cbn [bind].
  destruct (Req_dec_T (buff m) 0) as [Hz | Hnz].
  - assert (E : seqb (buff m) s0 = true) by (apply Reqb_true; exact Hz).
    rewrite E. split; [reflexivity | intro; contradiction].
  - assert (E : seqb (buff m) s0 = false) by (apply Reqb_false; exact Hnz).
    rewrite E. split.
    + intro Hlt.
      assert (E2 : sltb len (s2 * buff m)%sc = true) by (apply Rltb_true; exact Hlt).
      rewrite E2. reflexivity.
    + intros _ Hge.
      assert (E2 : sltb len (s2 * buff m)%sc = false)
        by (apply Rltb_false; unsc; lra).
      rewrite E2. reflexivity.
Qed.

Lemma measured_length_straight (m : @mob R) (a b : vec R) :
  submobjects m = [] -> tip m = None -> start_tip m = None ->
  measured_length (straight m a b) = Ok (get_norm (vsub a b)).
Proof.
  intros Hs Ht Hst. unfold measured_length.
  destruct (@straight_facts m a b Hs Ht Hst) as (_ & Hse & _).
  destruct (is_zero (path_arc (straight m a b))).
  - unfold get_length. rewrite Hse. reflexivity.
  - unfold straight. cbn [points with_points].
    rewrite get_arc_length_straight, get_norm_sym. reflexivity.
Qed.

Lemma Line_generate_points_trimmed (m : @mob R) :
  path_arc m = None \/ path_arc m = Some 0 ->
  submobjects m = [] -> tip m = None -> start_tip m = None ->
  0 < buff m -> 2 * buff m <= get_norm (vsub (start m) (end_ m)) ->
  Line_generate_points m
  = Ok (straight m
          (interpolate (start m) (end_ m)
             (buff m / get_norm (vsub (start m) (end_ m))))
          (interpolate (start m) (end_ m)
             (1 - buff m / get_norm (vsub (start m) (end_ m))))).
Proof.
  intros Hpa Hsub Ht Hst Hbf Hlen. unfold Line_generate_points.
  assert (T : truthy (path_arc m) = false).
  { destruct Hpa as [-> | ->]; cbn [truthy]; [reflexivity|].
    assert (E : seqb 0 s0 = true) by (apply Reqb_true; reflexivity).
    rewrite E. reflexivity. }
  rewrite T. cbn [bind].
  change (with_points m (set_points_as_corners [start m; end_ m]))
    with (straight m (start m) (end_ m)).
  pose proof (@measured_length_straight m (start m) (end_ m) Hsub Ht Hst) as Hm.
  destruct (account_for_buff_spec _ Hm) as (_ & H).
  set (L := get_norm (vsub (start m) (end_ m))) in *.
  change (buff (straight m (start m) (end_ m))) with (buff m) in H.
  rewrite H by lra.
  unfold straight at 2 3. cbn [points with_points].
  assert (Hp : 0 < buff m / L < 1).
  { split.
    - apply Rdiv_lt_0_compat; lra.
    - apply (Rmult_lt_reg_r L); [lra|].
      unfold Rdiv. rewrite Rmult_assoc, Rinv_l by lra. lra. }
  rewrite pointwise_become_partial_straight by lra.
  reflexivity.
Qed.

Lemma Line_generate_points_unbuffered (m : @mob R) :
  path_arc m = None \/ path_arc m = Some 0 -> buff m = 0 ->
  Line_generate_points m = Ok (straight m (start m) (end_ m)).
Proof.
  intros Hpa Hbf. unfold Line_generate_points.
  assert (T : truthy (path_arc m) = false).
  { destruct Hpa as [-> | ->]; cbn [truthy]; [reflexivity|].
    assert (E : seqb 0 s0 = true) by (apply Reqb_true; reflexivity).
    rewrite E. reflexivity. }
  rewrite T. cbn [bind]. apply account_for_buff_zero. exact Hbf.
Qed.

Lemma Line_trimmed (a b : vec R) (bf : R) (pa : option R) :
  pa = None \/ pa = Some 0 ->
  0 < bf -> 2 * bf <= get_norm (vsub a b) ->
  Line a b bf pa
  = Ok (straight (Line_attrs a b bf pa)
          (interpolate a b (bf / get_norm (vsub a b)))
          (interpolate a b (1 - bf / get_norm (vsub a b)))).
Proof.
  intros Hpa Hbf Hlen.
  apply (@Line_generate_points_trimmed (Line_attrs a b bf pa));
    try reflexivity; assumption.
Qed.

Lemma straight_ends (m : @mob R) (a b : vec R) :
  VMobject_get_start (points (straight m a b)) = Ok a
  /\ VMobject_get_end (points (straight m a b)) = Ok b.
Proof.
  unfold straight. cbn [points with_points]. rewrite corners_two. split; reflexivity.
Qed.

Lemma norm_04 : get_norm (vsub (V 0 0) (V 4 0)) = 4.
Proof.
  unfold vsub. cbn [vx vy]. unsc.
  replace (0 - 4) with (- 4) by ring. replace (0 - 0) with 0 by ring.
  rewrite get_norm_horizontal. rewrite Rabs_left; lra.
Qed.

Lemma norm_01 : get_norm (vsub (V 0 0) (V 1 0)) = 1.
Proof.
  unfold vsub. cbn [vx vy]. unsc.
  replace (0 - 1) with (- 1) by ring. replace (0 - 0) with 0 by ring.
  rewrite get_norm_horizontal. rewrite Rabs_left; lra.
Qed.

(** The boundary of the guard: for the straight line from (0, 0) to (1, 0)
    with buffer 1/2, twice the buffer equals the length, and
    [account_for_buff] is not a no-op: both ends move to the midpoint. *)
Lemma boundary_buff_collapses_line :
  get_length (straight (Line_attrs (V 0 0) (V 1 0) (1 / 2) None) (V 0 0) (V 1 0))
  = Ok 1
  /\ measured_length (straight (Line_attrs (V 0 0) (V 1 0) (1 / 2) None) (V 0 0) (V 1 0))
     = Ok 1
  /\ 2 * buff (Line_attrs (V 0 0) (V 1 0) (1 / 2) None) >= 1
  /\ exists l,
      account_for_buff
        (straight (Line_attrs (V 0 0) (V 1 0) (1 / 2) None) (V 0 0) (V 1 0))
      = Ok l
      /\ Line (V 0 0) (V 1 0) (1 / 2) None = Ok l
      /\ VMobject_get_start (points l) = Ok (V (1 / 2) 0)
      /\ VMobject_get_end (points l) = Ok (V (1 / 2) 0)
      /\ VMobject_get_start
           (points (straight (Line_attrs (V 0 0) (V 1 0) (1 / 2) None) (V 0 0) (V 1 0)))
         = Ok (V 0 0).
Proof.
  set (l0 := straight (Line_attrs (V 0 0) (V 1 0) (1 / 2) None) (V 0 0) (V 1 0)).
  assert (Hm : measured_length l0 = Ok 1).
  { unfold l0. rewrite measured_length_straight by reflexivity.
    rewrite norm_01. reflexivity. }
  assert (Hg : get_length l0 = Ok 1).
  { unfold get_length.
    destruct (@straight_facts (Line_attrs (V 0 0) (V 1 0) (1 / 2) None) (V 0 0) (V 1 0)
                eq_refl eq_refl eq_refl) as (_ & Hse & _).
    fold l0 in Hse. rewrite Hse. cbn [bind fst snd]. rewrite norm_01. reflexivity. }
  split; [exact Hg|]. split; [exact Hm|].
  split; [cbn [buff Line_attrs]; lra|].
  assert (HL : Line (V 0 0) (V 1 0) (1 / 2) None
               = Ok (straight (Line_attrs (V 0 0) (V 1 0) (1 / 2) None)
                       (interpolate (V 0 0) (V 1 0) (1 / 2 / get_norm (vsub (V 0 0) (V 1 0))))
                       (interpolate (V 0 0) (V 1 0) (1 - 1 / 2 / get_norm (vsub (V 0 0) (V 1 0)))))).
  { apply Line_trimmed; [left; reflexivity | lra | rewrite norm_01; lra]. }
  rewrite norm_01 in HL.
  eexists. split; [|split; [exact HL|]].
  - pose proof HL as HL'. unfold Line, Line_generate_points in HL'.
    cbn [truthy path_arc Line_attrs bind] in HL'. exact HL'.
  - destruct (straight_ends (Line_attrs (V 0 0) (V 1 0) (1 / 2) None)
                (interpolate (V 0 0) (V 1 0) (1 / 2 / 1))
                (interpolate (V 0 0) (V 1 0) (1 - 1 / 2 / 1))) as (Hs & He).
    rewrite Hs, He.
    split; [f_equal; veq; field|]. split; [f_equal; veq; field|].
    apply straight_ends.
Qed.

End Buffers.

(** ** The tip length of an Arrow *)

Section ArrowTips.
Local Open Scope R_scope.
Local Abbreviation mobR := (@mob R).
Implicit Types m : mobR.

Lemma get_norm_vscale_abs (k : R) (v : vec R) :
  get_norm (vscale k v) = Rabs k * get_norm v.
Proof.
  destruct (Rle_dec 0 k) as [Hk | Hk].
  - rewrite Rabs_right by lra. apply get_norm_vscale. exact Hk.
  - rewrite Rabs_left by lra. rewrite <- get_norm_vscale by lra.
    unfold get_norm, vscale. cbn [vx vy]. unsc. f_equal. ring.
Qed.

Lemma scaled_chord (k : R) (c s e : vec R) :
  get_norm (vsub (vadd (vscale k (vsub s c)) c) (vadd (vscale k (vsub e c)) c))
  = Rabs k * get_norm (vsub s e).
Proof.
  rewrite <- get_norm_vscale_abs. f_equal. veq; ring.
Qed.

Lemma get_default_tip_length_Arrow (m : @mob R) (len : R) :
  cls m = KArrow -> get_length m = Ok len ->
  get_default_tip_length m
  = Ok (Rmin (tip_length m) (max_tip_length_to_length_ratio m * len)).
Proof.
  intros Hc Hl. unfold get_default_tip_length. rewrite Hc, Hl. cbn [bind].
  rewrite py_min_Rmin. reflexivity.
Qed.

Lemma readd_end_fields (m2 : @mob R) (old : nat) :
  tip (readd m2 old false) = Some old
  /\ start_tip (readd m2 old false) = start_tip m2
  /\ cls (readd m2 old false) = cls m2
  /\ heap (readd m2 old false) = heap_set (heap m2) old (deref m2 (tip m2))
  /\ points (readd m2 old false) = points m2
  /\ same_config m2 (readd m2 old false).
Proof.
  unfold readd, same_config. cbv zeta. cbn [tip with_heap].
  destruct (tip m2); cbn; repeat split.
Qed.

Lemma readd_end_has_tip (m2 : @mob R) (old : nat) :
  has_tip (readd m2 old false) = true.
Proof.
  apply has_tip_true. exists old. split; [apply readd_end_fields|].
  unfold readd. cbv zeta. unfold add. cbn [submobjects with_submobjects].
  apply in_or_app. right. left. reflexivity.
Qed.

Lemma Arrow_scale_tip n (m : @mob R) (k : R) (s e bs be : vec R) (t : nat) :
  wf m -> cls m = KArrow ->
  tip m = Some t -> In t (submobjects m) -> start_tip m = None ->
  get_start_and_end m = Ok (s, e) -> s <> e ->
  VMobject_get_start (points m) = Ok bs -> VMobject_get_end (points m) = Ok be ->
  bs <> be ->
  0 < tip_length m -> 0 < max_tip_length_to_length_ratio m -> k <> 0 ->
  exists m',
    scale (S (S (S (S n)))) m k None = Ok m'
    /\ tip m' = Some t /\ start_tip m' = None /\ cls m' = KArrow
    /\ ArrowTip_get_length (deref m' (tip m'))
       = Ok (Rmin (tip_length m)
               (max_tip_length_to_length_ratio m * (Rabs k * get_norm (vsub s e))))
    /\ get_length m' = Ok (Rabs k * get_norm (vsub s e))
    /\ tip_length m' = tip_length m
    /\ max_tip_length_to_length_ratio m' = max_tip_length_to_length_ratio m.
Proof.
  intros Hw Hc Ht Hin Hst Hse Hne Hbs Hbe Hbne Htl Hra Hk.
  assert (HT : has_tip m = true) by (apply has_tip_true; eauto).
  assert (HS : has_start_tip m = false) by (unfold has_start_tip; rewrite Hst; reflexivity).
  rewrite scale_S, Hc. unfold get_length at 1. rewrite Hse. cbn [bind fst snd].
  rewrite (norm_nonzero Hne). rewrite HT, HS. cbn [orb].
  destruct (@pop_tips_spec n m s e bs be Hw Hse Hbs Hbe Hbne)
    as (m0 & Hpop & Hse0 & Hs0 & He0 & HT0 & HS0 & K0 & C0 & M0).
  rewrite Hpop. cbn [bind].
  assert (Hw0 : wf m0) by (eapply wf_keeps; [apply wf_detach; exact Hw | exact K0]).
  destruct (detach_spec m (proj1 Hw)) as (d1 & d2 & d3 & _).
  assert (Hc0 : cls m0 = KArrow).
  { destruct K0 as (k1 & _). rewrite k1, d1. exact Hc. }
  assert (Hst0 : start_tip m0 = None).
  { destruct K0 as (_ & _ & k3 & _). rewrite k3, d3. exact Hst. }
  set (c := about_or_center m0 None).
  set (g := fun p => vadd (vscale k (vsub p c)) c).
  assert (M1 : moved g m0 (Mobject_scale m0 k None))
    by (apply moved_apf; apply Hw0).
  assert (K1 : keeps m0 (Mobject_scale m0 k None)) by (apply keeps_apf; apply Hw0).
  assert (C1 : same_config m0 (Mobject_scale m0 k None)) by apply same_config_apf.
  pose proof (moved_get_start_and_end K1 M1 Hse0) as Hse1.
  assert (Hlen1 : get_norm (vsub (g s) (g e)) = Rabs k * get_norm (vsub s e))
    by apply scaled_chord.
  unfold set_stroke_width_from_length at 1. unfold get_length at 1.
  rewrite Hse1. cbn [bind fst snd].
  match goal with |- context [with_stroke_width ?x ?w] =>
    set (m1 := with_stroke_width x w) end.
  assert (K1' : keeps m0 m1).
  { eapply keeps_trans; [exact K1|]. apply keeps_with_stroke_width. apply K1. }
  assert (Hw1 : wf m1) by (eapply wf_keeps; eassumption).
  assert (HT1 : has_tip m1 = false) by (rewrite (has_tip_keeps K1'); exact HT0).
  assert (HS1 : has_start_tip m1 = false)
    by (rewrite (has_start_tip_keeps K1'); exact HS0).
  assert (Hse1' : get_start_and_end m1 = Ok (g s, g e)) by exact Hse1.
  assert (Hpos : 0 < get_norm (vsub s e)).
  { apply get_norm_pos. intro X. apply Hne. apply vsub_eq_ORIGIN. exact X. }
  assert (Hgne : g s <> g e).
  { intro X. rewrite X in Hlen1.
    replace (vsub (g e) (g e)) with (ORIGIN : vec R) in Hlen1
      by (symmetry; apply vsub_eq_ORIGIN; reflexivity).
    rewrite get_norm_ORIGIN in Hlen1.
    pose proof (Rabs_pos_lt k Hk). nra. }
  destruct (bare_endpoints_inv m0 HT0 HS0 Hse0) as (Hb0s & Hb0e).
  destruct (@last_handle_exists m0 s e Hb0s Hb0e Hne) as (h0 & Hh0).
  assert (Hh1 : get_last_handle m1 = Ok (g h0)).
  { eapply get_last_handle_map; [|exact Hh0]. apply M1. }
  assert (Hc1 : cls m1 = KArrow).
  { destruct K1' as (k1 & _). rewrite k1. exact Hc0. }
  assert (Hcfg : tip_length m1 = tip_length m
                 /\ max_tip_length_to_length_ratio m1 = max_tip_length_to_length_ratio m).
  { destruct C0 as (a1 & _ & _ & _ & _ & _ & _ & _ & _ & _ & a11 & _).
    split; [exact a1 | exact a11]. }
  destruct Hcfg as (Htl1 & Hra1).
  set (L := Rmin (tip_length m)
              (max_tip_length_to_length_ratio m * (Rabs k * get_norm (vsub s e)))).
  assert (HL : resolve_tip_length m1 None = Ok L).
  { cbn [resolve_tip_length].
    rewrite (@get_default_tip_length_Arrow m1 (get_norm (vsub (g s) (g e))) Hc1).
    - rewrite Htl1, Hra1, Hlen1. reflexivity.
    - unfold get_length. rewrite Hse1'. reflexivity. }
  assert (HLpos : 0 < L).
  { unfold L. apply Rmin_glb_lt; [exact Htl|].
    pose proof (Rabs_pos_lt k Hk). apply Rmult_lt_0_compat; [exact Hra|].
    apply Rmult_lt_0_compat; assumption. }
  destruct (@add_tip_spec n m1 None false (g s) (g e) (g h0) L Hw1
              (or_intror (conj HT1 HS1)) Hse1' Hgne Hh1 HL)
    as (tp & m' & _ & _ & Htp0 & Hlen & _ & _ & Hadd & K' & C' & _ & Hse2).
  rewrite Hadd. cbn [bind].
  destruct (detach_tips_0 m HT) as (t' & Et' & Hidx).
  assert (t' = t) by congruence. subst t'.
  rewrite Hidx. cbn [bind].
  eexists. split; [reflexivity|].
  pose proof (wf_keeps Hw1 K') as Hw'.
  destruct (attach_end tp Hw') as (A1 & A2 & _ & _ & _ & _ & A7 & A8).
  destruct (readd_end_fields (attach m' tp false) t)
    as (R1 & R2 & R3 & R4 & R5 & R6).
  split; [exact R1|].
  assert (Hst2 : start_tip (attach m' tp false) = None).
  { rewrite A2. destruct K' as (_ & _ & k3 & _). rewrite k3.
    destruct K1' as (_ & _ & k3' & _). rewrite k3'. exact Hst0. }
  assert (D : deref (readd (attach m' tp false) t false)
                (tip (readd (attach m' tp false) t false)) = tp).
  { rewrite R1. cbn [deref]. rewrite R4.
    rewrite heap_get_set, Nat.eqb_refl. rewrite A1. cbn [deref].
    rewrite attach_heap, Nat.eqb_refl. reflexivity. }
  split; [rewrite R2; exact Hst2|].
  split.
  { rewrite R3, A8. destruct K' as (k1 & _). rewrite k1. exact Hc1. }
  split; [rewrite D; apply Hlen; exact HLpos|].
  split.
  { unfold get_length.
    assert (G : get_start_and_end (readd (attach m' tp false) t false)
                = Ok (g s, g e)).
    { apply get_start_and_end_intro.
      - unfold get_start, has_start_tip. rewrite R2, Hst2. cbn [hasattr andb].
        rewrite R5.
        destruct (get_start_and_end_inv _ Hse2) as (G1 & _).
        unfold get_start, has_start_tip in G1. rewrite Hst2 in G1. exact G1.
      - unfold get_end. rewrite readd_end_has_tip, D. exact Htp0. }
    rewrite G. cbn [bind fst snd]. rewrite Hlen1. reflexivity. }
  destruct R6 as (r1 & _ & _ & _ & _ & _ & _ & _ & _ & _ & r11 & _).
  destruct A7 as (a1 & _ & _ & _ & _ & _ & _ & _ & _ & _ & a11 & _).
  destruct C' as (c1 & _ & _ & _ & _ & _ & _ & _ & _ & _ & c11 & _).
  split; congruence.
Qed.

Lemma straight_base_off_start (a b : vec R) (L : R) :
  a <> b -> 0 < L < get_norm (vsub a b) ->
  vadd b (vscale (L / get_norm (vsub (interpolate a b (2 / 3)) b))
            (vsub (interpolate a b (2 / 3)) b)) <> a.
Proof.
  intros Hne HL.
  assert (Hv : vsub (interpolate a b (2 / 3)) b = vscale (1 / 3) (vsub a b))
    by (veq; field).
  rewrite Hv, get_norm_vscale by lra.
  set (d := get_norm (vsub a b)) in *.
  assert (Hd : 0 < d) by lra.
  intro X. apply Hne.
  assert (Q : L / (1 / 3 * d) * (1 / 3) = L / d) by (field; lra).
  assert (Hq : L / d < 1).
  { apply (Rmult_lt_reg_r d); [exact Hd|].
    unfold Rdiv. rewrite Rmult_assoc, Rinv_l by lra. lra. }
  pose proof (f_equal (@vx R) X) as Xx. pose proof (f_equal (@vy R) X) as Xy.
  revert Xx Xy. unfold vadd, vscale, vsub. cbn [vx vy]. unsc. intros Xx Xy.
  assert (Ex : (vx a - vx b) * (1 - L / d) = 0).
  { rewrite <- Q. lra. }
  assert (Ey : (vy a - vy b) * (1 - L / d) = 0).
  { rewrite <- Q. lra. }
  apply vec_eq; nra.
Qed.

Lemma Arrow_first_tip n (m : @mob R) (a b : vec R) :
  cls m = KArrow -> submobjects m = [] -> tip m = None -> start_tip m = None ->
  a <> b -> 0 < tip_length m ->
  0 < max_tip_length_to_length_ratio m < 1 ->
  exists M t be,
    (m1 <- add_tip (S (S (S n))) (straight m a b) None false ;;
     set_stroke_width_from_length m1) = Ok M
    /\ wf M /\ cls M = KArrow /\ tip M = Some t /\ In t (submobjects M)
    /\ start_tip M = None
    /\ get_start_and_end M = Ok (a, b)
    /\ VMobject_get_start (points M) = Ok a
    /\ VMobject_get_end (points M) = Ok be /\ a <> be
    /\ ArrowTip_get_length (deref M (tip M))
       = Ok (Rmin (tip_length m)
               (max_tip_length_to_length_ratio m * get_norm (vsub a b)))
    /\ tip_length M = tip_length m
    /\ max_tip_length_to_length_ratio M = max_tip_length_to_length_ratio m.
Proof.
  intros Hc Hsub Ht Hst Hne Htl Hra.
  destruct (@straight_facts m a b Hsub Ht Hst)
    as (Hw & Hse & Hbs & Hbe & Hlh & _ & HT & HS).
  set (l := straight m a b) in *.
  assert (Hpos : 0 < get_norm (vsub a b)).
  { apply get_norm_pos. intro X. apply Hne. apply vsub_eq_ORIGIN. exact X. }
  set (L := Rmin (tip_length m)
              (max_tip_length_to_length_ratio m * get_norm (vsub a b))).
  assert (HL : resolve_tip_length l None = Ok L).
  { cbn [resolve_tip_length].
    rewrite (@get_default_tip_length_Arrow l (get_norm (vsub a b))); [reflexivity|exact Hc|].
    unfold get_length. rewrite Hse. reflexivity. }
  assert (HLpos : 0 < L).
  { unfold L. apply Rmin_glb_lt; [exact Htl|]. apply Rmult_lt_0_compat; lra. }
  assert (HLlt : L < get_norm (vsub a b)).
  { unfold L. eapply Rle_lt_trans; [apply Rmin_r|]. nra. }
  destruct (@add_tip_spec n l None false a b _ L Hw (or_intror (conj HT HS))
              Hse Hne Hlh HL)
    as (tp & m' & _ & _ & _ & Hlen & Hbase & _ & Hadd & K & C & M & Hse1).
  rewrite Hadd. cbn [bind].
  unfold set_stroke_width_from_length, get_length. rewrite Hse1. cbn [bind fst snd].
  pose proof (wf_keeps Hw K) as Hw'.
  destruct (attach_end tp Hw') as (A1 & A2 & A3 & _ & _ & A6 & A7 & A8).
  eexists. exists (fresh_id (heap m')).
  exists (ArrowTip_get_base tp).
  split; [reflexivity|].
  split.
  { change (wf (attach m' tp false)). eapply added_wf; [exact Hw|].
    apply (proj2 (proj2 (proj2 (protocol_inv (S (S (S n)))))) _ _ _ _ Hw Hadd). }
  split.
  { change (cls (attach m' tp false) = KArrow). rewrite A8.
    destruct K as (k1 & _). rewrite k1. exact Hc. }
  split; [exact A1|].
  split.
  { apply has_tip_true in A3. destruct A3 as (t & Et & Hin).
    change (In (fresh_id (heap m')) (submobjects (attach m' tp false))).
    congruence. }
  split.
  { change (start_tip (attach m' tp false) = None). rewrite A2.
    destruct K as (_ & _ & k3 & _). rewrite k3. exact Hst. }
  split; [exact Hse1|].
  destruct M as [Mp _]. cbv iota in Mp.
  split.
  { change (VMobject_get_start (points (attach m' tp false)) = Ok a).
    rewrite A6, Mp. erewrite VMobject_get_start_map by exact Hbs.
    rewrite similarity_start. reflexivity. }
  split.
  { change (VMobject_get_end (points (attach m' tp false))
            = Ok (ArrowTip_get_base tp)).
    rewrite A6, Mp. erewrite VMobject_get_end_map by exact Hbe.
    rewrite similarity_end by exact Hne. reflexivity. }
  split.
  { intro X. symmetry in X. revert X. rewrite Hbase.
    - cbv iota. apply straight_base_off_start; [exact Hne | lra].
    - exact HLpos.
    - cbv iota. intro X.
      assert (Hv : vsub (interpolate a b (2 / 3)) b = vscale (1 / 3) (vsub a b))
        by (veq; field).
      apply vsub_eq_ORIGIN in X. rewrite Hv in X.
      pose proof (get_norm_vscale (vsub a b) (k := 1 / 3)) as Hn.
      rewrite X, get_norm_ORIGIN in Hn. lra. }
  split.
  { change (ArrowTip_get_length (deref (attach m' tp false) (tip (attach m' tp false)))
            = Ok L).
    rewrite A1. cbn [deref]. rewrite attach_heap, Nat.eqb_refl.
    apply Hlen. exact HLpos. }
  destruct A7 as (a1 & _ & _ & _ & _ & _ & _ & _ & _ & _ & a11 & _).
  destruct C as (c1 & _ & _ & _ & _ & _ & _ & _ & _ & _ & c11 & _).
  split.
  - change (tip_length (attach m' tp false) = tip_length m). rewrite a1, c1. reflexivity.
  - change (max_tip_length_to_length_ratio (attach m' tp false)
            = max_tip_length_to_length_ratio m). rewrite a11, c11. reflexivity.
Qed.

Lemma Arrow_constructed n (a b : vec R) (bf : R) (pa : option R)
    (tl sw ratio sr : R) :
  pa = None \/ pa = Some 0 ->
  0 <= bf -> 2 * bf < get_norm (vsub a b) ->
  0 < tl -> 0 < ratio < 1 ->
  exists M t s e be,
    Arrow (S (S (S n))) a b bf pa tl sw ratio sr = Ok M
    /\ wf M /\ cls M = KArrow /\ tip M = Some t /\ In t (submobjects M)
    /\ start_tip M = None
    /\ get_start_and_end M = Ok (s, e) /\ s <> e
    /\ get_norm (vsub s e) = get_norm (vsub a b) - 2 * bf
    /\ VMobject_get_start (points M) = Ok s
    /\ VMobject_get_end (points M) = Ok be /\ s <> be
    /\ ArrowTip_get_length (deref M (tip M))
       = Ok (Rmin tl (ratio * (get_norm (vsub a b) - 2 * bf)))
    /\ tip_length M = tl
    /\ max_tip_length_to_length_ratio M = ratio.
Proof.
  intros Hpa Hbf Hlen Htl Hra. unfold Arrow. cbv zeta.
  set (m := Arrow_attrs a b bf pa tl sw ratio sr).
  set (d := get_norm (vsub a b)) in *.
  set (p := bf / d).
  assert (Hd : 0 < d) by lra.
  assert (Hp : 0 <= p /\ 2 * p < 1).
  { unfold p. split.
    - apply Rmult_le_pos; [exact Hbf|]. left. apply Rinv_0_lt_compat. exact Hd.
    - apply (Rmult_lt_reg_r d); [exact Hd|].
      unfold Rdiv. replace (2 * (bf * / d) * d) with (2 * bf * (/ d * d)) by ring.
      rewrite Rinv_l by lra. lra. }
  assert (Hg : Line_generate_points m
               = Ok (straight m (interpolate a b p) (interpolate a b (1 - p)))).
  { destruct (Req_dec_T bf 0) as [Hz | Hnz].
    - rewrite (@Line_generate_points_unbuffered m Hpa Hz).
      assert (P0 : p = 0) by (unfold p; rewrite Hz; unfold Rdiv; ring).
      rewrite P0. replace (1 - 0) with 1 by ring.
      rewrite interpolate_0, interpolate_1. reflexivity.
    - apply (@Line_generate_points_trimmed m); try reflexivity; try assumption.
      + change (0 < bf). lra.
      + change (2 * bf <= d). lra. }
  rewrite Hg. cbn [bind].
  assert (Hn : get_norm (vsub (interpolate a b p) (interpolate a b (1 - p)))
               = d - 2 * bf).
  { rewrite get_norm_sym, norm_interpolate_diff by lra.
    rewrite (get_norm_sym b a). fold d. unfold p. field. lra. }
  assert (Hne : interpolate a b p <> interpolate a b (1 - p)).
  { intro X. rewrite X in Hn.
    replace (vsub (interpolate a b (1 - p)) (interpolate a b (1 - p)))
      with (ORIGIN : vec R) in Hn by (symmetry; apply vsub_eq_ORIGIN; reflexivity).
    rewrite get_norm_ORIGIN in Hn. lra. }
  destruct (@Arrow_first_tip n m (interpolate a b p) (interpolate a b (1 - p))
              eq_refl eq_refl eq_refl eq_refl Hne Htl Hra)
    as (M & t & be & HM & F1 & F2 & F3 & F4 & F5 & F6 & F7 & F8 & F9 & F10 & F11 & F12).
  exists M, t, (interpolate a b p), (interpolate a b (1 - p)), be.
  rewrite Hn in F10.
  split; [exact HM|]. repeat (split; [assumption|]). assumption.
Qed.

(** The tip length of an Arrow that carries a tip at its end and none at
    its start.  An Arrow's default tip length, the one a tip is made with
    when no length is passed, is the minimum of its configured [tip_length]
    and [max_tip_length_to_length_ratio] times its current length.  The tip
    made by the constructor of a straight Arrow has that length; so has the
    tip of an Arrow tipped at its end only after [scale] by a factor k, for
    the new length |k| * length: the configured length once the capped
    value reaches it, the ratio times the new length below. *)
Theorem Arrow_tip_length_policy :
  (forall (m : @mob R) (len : R),
      cls m = KArrow -> get_length m = Ok len ->
      get_default_tip_length m
      = Ok (Rmin (tip_length m) (max_tip_length_to_length_ratio m * len))
      /\ get_unpositioned_tip m None
         = ArrowTip (Rmin (tip_length m) (max_tip_length_to_length_ratio m * len)))
  /\ (forall n (a b : vec R) (bf : R) (pa : option R) (tl sw ratio sr : R),
      pa = None \/ pa = Some 0 ->
      0 <= bf -> 2 * bf < get_norm (vsub a b) -> 0 < tl -> 0 < ratio < 1 ->
      exists M len,
        Arrow (S (S (S n))) a b bf pa tl sw ratio sr = Ok M
        /\ get_length M = Ok len
        /\ ArrowTip_get_length (deref M (tip M)) = Ok (Rmin tl (ratio * len)))
  /\ (forall n (m : @mob R) (k : R) (s e bs be : vec R) (t : nat),
      wf m -> cls m = KArrow ->
      tip m = Some t -> In t (submobjects m) -> start_tip m = None ->
      get_start_and_end m = Ok (s, e) -> s <> e ->
      VMobject_get_start (points m) = Ok bs ->
      VMobject_get_end (points m) = Ok be -> bs <> be ->
      0 < tip_length m -> 0 < max_tip_length_to_length_ratio m -> k <> 0 ->
      exists m' len',
        scale (S (S (S (S n)))) m k None = Ok m'
        /\ get_length m' = Ok len'
        /\ len' = Rabs k * get_norm (vsub s e)
        /\ ArrowTip_get_length (deref m' (tip m'))
           = Ok (Rmin (tip_length m) (max_tip_length_to_length_ratio m * len'))
        /\ (tip_length m <= max_tip_length_to_length_ratio m * len' ->
            ArrowTip_get_length (deref m' (tip m')) = Ok (tip_length m))
        /\ (max_tip_length_to_length_ratio m * len' <= tip_length m ->
            ArrowTip_get_length (deref m' (tip m'))
            = Ok (max_tip_length_to_length_ratio m * len'))).
Proof.
  split.
  { intros m len Hc Hl. split; [apply get_default_tip_length_Arrow; assumption|].
    unfold get_unpositioned_tip.
    rewrite (get_default_tip_length_Arrow m Hc Hl). reflexivity. }
  split.
  - intros n a b bf pa tl sw ratio sr Hpa Hbf Hlen Htl Hra.
    destruct (@Arrow_constructed n a b bf pa tl sw ratio sr Hpa Hbf Hlen Htl Hra)
      as (M & t & s & e & be & HM & _ & _ & _ & _ & _ & Hse & _ & Hn & _ & _ & _ & HL & _).
    exists M, (get_norm (vsub a b) - 2 * bf).
    split; [exact HM|]. split; [|exact HL].
    unfold get_length. rewrite Hse. cbn [bind fst snd]. rewrite Hn. reflexivity.
  - intros n m k s e bs be t Hw Hc Ht Hin Hst Hse Hne Hbs Hbe Hbne Htl Hra Hk.
    destruct (@Arrow_scale_tip n m k s e bs be t Hw Hc Ht Hin Hst Hse Hne Hbs Hbe
                Hbne Htl Hra Hk)
      as (m' & Hsc & _ & _ & _ & HL & Hlen & _).
    exists m', (Rabs k * get_norm (vsub s e)).
    split; [exact Hsc|]. split; [exact Hlen|]. split; [reflexivity|].
    split; [exact HL|]. split; intro Hle; rewrite HL; f_equal.
    + apply Rmin_left. exact Hle.
    + apply Rmin_right. exact Hle.
Qed.

Lemma Arrow_tip_length_policy_witness :
  exists M M' len',
    Arrow 3 (V 0 0) (V 4 0) 0 None (35 / 100) 6 (1 / 4) 5 = Ok M
    /\ scale 4 M 2 None = Ok M'
    /\ get_length M' = Ok len'
    /\ ArrowTip_get_length (deref M' (tip M'))
       = Ok (Rmin (tip_length M) (max_tip_length_to_length_ratio M * len')).
Proof.
  destruct (@Arrow_constructed 0 (V 0 0) (V 4 0) 0 None (35 / 100) 6 (1 / 4) 5)
    as (M & t & s & e & be & HM & Hw & Hc & Ht & Hin & Hst & Hse & Hne & Hn
        & Hbs & Hbe & Hbne & _ & Htl & Hra);
    [left; reflexivity | lra | rewrite norm_04; lra | lra | lra |].
  destruct (proj2 (proj2 Arrow_tip_length_policy) 0%nat M 2 s e s be t
              Hw Hc Ht Hin Hst Hse Hne Hbs Hbe Hbne)
    as (M' & len' & Hsc & Hlen & _ & HL & _);
    [rewrite Htl; lra | rewrite Hra; lra | lra |].
  exists M, M', len'. split; [exact HM|]. split; [exact Hsc|].
  split; [exact Hlen | exact HL].
Defined.

End ArrowTips.

(** ** What pop_tips, add_tip and create_tip leave behind *)

Section Detaching.
Context {F : Type} {SC : Scalar F} {TR : Trig F}.
Local Abbreviation vec := (vec F).
Local Abbreviation mob := (@mob F).
Implicit Types m : mob.

Lemma detach_tips_In m t :
  NoDup (submobjects m) ->
  (In t (snd (detach m)) <->
   (has_tip m = true /\ tip m = Some t)
   \/ (has_start_tip m = true /\ start_tip m = Some t)).
Proof.
  intro Hn. unfold detach.
  destruct (has_tip m) eqn:Ht.
  - pose proof Ht as Ht'. apply has_tip_true in Ht'. destruct Ht' as (t0 & Et & Hin0).
    rewrite Et. cbn [remove_attr vgroup_add filter app].
    destruct (has_start_tip (remove m t0)) eqn:Hs.
    + pose proof Hs as Hs'. apply has_start_tip_true in Hs'.
      destruct Hs' as (st & Es & Hinst).
      change (start_tip (remove m t0)) with (start_tip m) in *.
      unfold remove in Hinst. cbn [submobjects with_submobjects] in Hinst.
      apply (In_remove_first t0 st Hn) in Hinst. destruct Hinst as (Hinst & Hne).
      assert (HS : has_start_tip m = true) by (apply has_start_tip_true; eauto).
      rewrite Es, HS. cbn [snd vgroup_add filter].
      assert (E : Nat.eqb t0 st = false) by (apply Nat.eqb_neq; congruence).
      rewrite E. cbn [negb app In]. split.
      * intros [<- | [<- | []]]; [left | right]; split; reflexivity.
      * intros [[_ X] | [_ X]]; injection X as <-; tauto.
    + cbn [snd In]. split.
      * intros [<- | []]. left. split; reflexivity.
      * intros [[_ X] | [HS X]]; [injection X as <-; tauto|].
        destruct (Nat.eq_dec t0 t) as [E | Hne]; [left; exact E|].
        exfalso. change (start_tip (remove m t0)) with (start_tip m) in Hs.
        pose proof (proj1 (has_start_tip_false (remove m t0)) Hs t X) as Hnot.
        apply has_start_tip_true in HS. destruct HS as (st & Es & Hinst).
        assert (st = t) by congruence. subst st.
        apply Hnot. unfold remove. cbn [submobjects with_submobjects].
        apply (In_remove_first t0 t Hn). split; [exact Hinst | congruence].
  - destruct (has_start_tip m) eqn:Hs.
    + pose proof Hs as Hs'. apply has_start_tip_true in Hs'.
      destruct Hs' as (st & Es & _). rewrite Es. cbn [snd vgroup_add filter app In].
      split.
      * intros [<- | []]. right. split; reflexivity.
      * intros [[X _] | [_ X]]; [discriminate | injection X as <-; tauto].
    + cbn [snd In]. split; [tauto|]. intros [[X _] | [X _]]; discriminate.
Qed.

(** [pop_tips] detaches every attached tip.  Whenever it returns, neither
    [has_tip] nor [has_start_tip] holds any more, the group returned holds
    exactly the tips that were attached, the children left are the former
    children without those tips, and the attributes [tip] and [start_tip]
    still name the detached objects. *)
Theorem pop_tips_detaches_every_tip n m m' tips :
  wf m -> pop_tips n m = Ok (m', tips) ->
  has_tip m' = false /\ has_start_tip m' = false
  /\ (forall t, In t tips <->
                (has_tip m = true /\ tip m = Some t)
                \/ (has_start_tip m = true /\ start_tip m = Some t))
  /\ (forall j, In j (submobjects m') <-> In j (submobjects m) /\ ~ In j tips)
  /\ tip m' = tip m /\ start_tip m' = start_tip m.
Proof.
  intros Hw Hp.
  destruct (proj1 (proj2 (proj2 (protocol_inv n))) m m' tips Hw Hp) as (K & ->).
  destruct (detach_spec m (proj1 Hw)) as (_ & d2 & d3 & _ & _ & d6 & d7 & d8).
  split; [rewrite (has_tip_keeps K); exact d7|].
  split; [rewrite (has_start_tip_keeps K); exact d8|].
  split; [intro t; apply detach_tips_In; apply Hw|].
  destruct K as (_ & k2 & k3 & k4 & _).
  split; [|split; congruence].
  intro j. rewrite k4, d6, (detach_tips_In m j (proj1 Hw)). tauto.
Qed.

End Detaching.

Section Detaching2.
Local Open Scope R_scope.
Local Abbreviation mobR := (@mob R).
Implicit Types m : mobR.

Lemma pop_tips_detaches_every_tip_witness :
  exists m1 m2 tips,
    add_tip 3 line04 (Some 1) false = Ok m1
    /\ pop_tips 3 m1 = Ok (m2, tips)
    /\ has_tip m2 = false /\ has_start_tip m2 = false
    /\ tip m2 = tip m1.
Proof.
  destruct line04_tipped
    as (m1 & t1 & _ & Hg & Hadd & Hw1 & Hc1 & Ht1 & Hin1 & _ & Hse1 & _ & Hbs & Hbe).
  assert (Hne : V 0 0 <> V 3 0 :> vec R) by (intro X; injection X; lra).
  destruct (pop_tips_spec 0 Hw1 Hse1 Hbs Hbe Hne) as (m2 & Hpop & _).
  destruct (pop_tips_detaches_every_tip 3 Hw1 Hpop) as (H1 & H2 & _ & _ & H5 & _).
  exists m1, m2, (snd (detach m1)). auto.
Defined.



(** [create_tip]: the tip is a path of twelve points; its first point, the
    tip point, lies on the end of the curve it is made for; it has the
    length asked for; and its base lies at that distance from the end, in
    the direction of the curve's last handle (first handle at the start). *)
Theorem create_tip_geometry (m : @mob R) tl (at_start : bool)
    (anchor handle : vec R) (L : R) :
  anchor_of m at_start = Ok anchor ->
  handle_of m at_start = Ok handle ->
  resolve_tip_length m tl = Ok L ->
  0 < L -> handle <> anchor ->
  exists tp,
    create_tip m tl at_start = Ok tp
    /\ length tp = 12%nat
    /\ ArrowTip_get_tip_point tp = Ok anchor
    /\ ArrowTip_get_length tp = Ok L
    /\ ArrowTip_get_base tp
       = vadd anchor (vscale (L / get_norm (vsub handle anchor)) (vsub handle anchor))
    /\ get_norm (vsub (ArrowTip_get_base tp) anchor) = L.
Proof.
  intros Ha Hh HL Hpos Hne.
  destruct (create_tip_spec m tl at_start Ha Hh HL)
    as (tp & Hc & Hlen & Hfirst & Hl & Hb).
  exists tp. split; [exact Hc|]. split; [exact Hlen|].
  split.
  { destruct tp; [discriminate|]. cbn in Hfirst |- *. exact Hfirst. }
  split; [apply Hl; exact Hpos|].
  specialize (Hb Hpos Hne). split; [exact Hb|].
  rewrite Hb.
  assert (Hn : 0 < get_norm (vsub handle anchor)).
  { apply get_norm_pos. intro X. apply Hne. apply vsub_eq_ORIGIN. exact X. }
  replace (vsub (vadd anchor (vscale (L / get_norm (vsub handle anchor))
                                (vsub handle anchor))) anchor)
    with (vscale (L / get_norm (vsub handle anchor)) (vsub handle anchor))
    by (veq; ring).
  rewrite get_norm_vscale.
  - field. lra.
  - apply Rmult_le_pos; [lra|]. left. apply Rinv_0_lt_compat. exact Hn.
Qed.

Lemma create_tip_geometry_witness :
  exists tp,
    create_tip line04 (Some 1) false = Ok tp
    /\ ArrowTip_get_tip_point tp = Ok (V 4 0)
    /\ ArrowTip_get_length tp = Ok 1.
Proof.
  destruct (@straight_facts (Line_attrs (V 0 0) (V 4 0) 0 None) (V 0 0) (V 4 0)
              eq_refl eq_refl eq_refl)
    as (_ & Hse & _ & _ & Hlh & _).
  fold line04 in Hse, Hlh.
  destruct (@create_tip_geometry line04 (Some 1) false (V 4 0)
              (interpolate (V 0 0) (V 4 0) (2 / 3)) 1)
    as (tp & H1 & _ & H3 & H4 & _).
  - cbn [anchor_of]. apply (get_start_and_end_inv _ Hse).
  - exact Hlh.
  - reflexivity.
  - lra.
  - intro X. apply (f_equal (@vx R)) in X. revert X. vsimpl. lra.
  - exists tp. auto.
Defined.

End Detaching2.

(** ** put_start_and_end_on, set_length and the zero-length guards *)

Section Endpoints.
Local Open Scope R_scope.
Local Abbreviation mobR := (@mob R).
Implicit Types m : mobR.

Lemma similarity_same (a c : vec R) (p : vec R) :
  c <> ORIGIN -> similarity a c a c p = p.
Proof.
  intro Hc. apply vec_nonzero in Hc.
  assert (Hn : vx c * vx c + vy c * vy c <> 0) by nra.
  veq; field; exact Hn.
Qed.

(** [put_start_and_end_on(start, end)] on a curve whose two ends differ:
    the call succeeds, the curve then starts on [start] and ends on [end],
    every point of the curve having moved by one and the same similarity,
    and the children and tip attributes are the ones it had. *)
Theorem put_start_and_end_on_places_ends n (m : @mob R) (s e cs ce : vec R) :
  NoDup (submobjects m) -> bare m ->
  get_start_and_end m = Ok (cs, ce) -> cs <> ce ->
  exists m',
    put_start_and_end_on (S (S n)) m s e = Ok m'
    /\ get_start_and_end m' = Ok (s, e)
    /\ get_length m' = Ok (get_norm (vsub s e))
    /\ points m' = map (similarity cs (vsub ce cs) s (vsub e s)) (points m)
    /\ keeps m m'.
Proof.
  intros Hn Hb Hse Hne.
  destruct (puts_endpoints n s e Hn Hb Hse Hne) as (m' & H & G & M & K & _).
  exists m'. split; [exact H|]. split; [exact G|].
  split; [unfold get_length; rewrite G; reflexivity|].
  split; [apply M | exact K].
Qed.

Lemma put_start_and_end_on_places_ends_witness :
  exists m',
    put_start_and_end_on 2 line04 (V 1 1) (V 1 3) = Ok m'
    /\ get_start_and_end m' = Ok (V 1 1, V 1 3).
Proof.
  destruct (@straight_facts (Line_attrs (V 0 0) (V 4 0) 0 None) (V 0 0) (V 4 0)
              eq_refl eq_refl eq_refl)
    as (Hw & Hse & _).
  fold line04 in Hw, Hse.
  assert (Hne : V 0 0 <> V 4 0 :> vec R) by (intro X; injection X; lra).
  assert (Hb : bare line04) by (left; discriminate).
  destruct (@put_start_and_end_on_places_ends 0 line04 (V 1 1) (V 1 3) (V 0 0) (V 4 0)
              (proj1 Hw) Hb Hse Hne)
    as (m' & H1 & H2 & _).
  exists m'. auto.
Defined.

(** A Line (or an Arrow) that carries no tip and whose start and end
    coincide is drawn anew instead: [put_start_and_end_on(start, end)]
    generates the straight path between the two points and succeeds. *)
Theorem put_start_and_end_on_regenerates_line n (m : @mob R) (s e p : vec R) :
  cls m = KLine \/ cls m = KArrow ->
  submobjects m = [] -> tip m = None -> start_tip m = None ->
  path_arc m = None \/ path_arc m = Some 0 -> buff m = 0 ->
  get_start_and_end m = Ok (p, p) -> s <> e ->
  exists m',
    put_start_and_end_on (S (S n)) m s e = Ok m'
    /\ points m' = set_points_as_corners [s; e]
    /\ get_start_and_end m' = Ok (s, e).
Proof.
  intros Hc Hsub Ht Hst Hpa Hbf Hse Hne.
  rewrite put_start_and_end_on_S.
  assert (E : veqb p p = true) by (apply veqb_eq; reflexivity).
  assert (G : Line_generate_points (with_start_end m s e)
              = Ok (straight (with_start_end m s e) s e)).
  { apply (@Line_generate_points_unbuffered (with_start_end m s e)); assumption. }
  set (m1 := straight (with_start_end m s e) s e) in *.
  destruct (@straight_facts (with_start_end m s e) s e Hsub Ht Hst)
    as (Hw1 & Hse1 & _ & _ & _ & _ & HT1 & HS1).
  fold m1 in Hw1, Hse1, HT1, HS1.
  destruct (@Mobject_puts_spec (scale (S n)) m1 s e s e (proj1 Hw1) Hse1 Hne)
    as (m' & Hp & M & K & C).
  { intros f a. apply scale_bare with (s := s) (e := e).
    - apply Hw1.
    - right. split; assumption.
    - exact Hse1.
    - apply norm_nonzero. exact Hne. }
  assert (R : (se <- get_start_and_end m ;;
               m0 <- (if veqb (fst se) (snd se)
                      then Line_generate_points (with_start_end m s e)
                      else Ok m) ;;
               Mobject_put_start_and_end_on (scale (S n)) m0 s e) = Ok m').
  { rewrite Hse. cbn [bind fst snd]. rewrite E, G. cbn [bind]. exact Hp. }
  exists m'. split; [destruct Hc as [-> | ->]; exact R|].
  assert (Hid : forall q, similarity s (vsub e s) s (vsub e s) q = q).
  { intro q. apply similarity_same. intro X. apply Hne. symmetry.
    apply vsub_eq_ORIGIN. exact X. }
  assert (Hpts : points m' = set_points_as_corners [s; e]).
  { destruct M as [Mp _]. rewrite Mp.
    rewrite (map_ext _ (fun q => q) Hid), map_id. reflexivity. }
  split; [exact Hpts|].
  rewrite (moved_get_start_and_end K M Hse1). rewrite !Hid. reflexivity.
Qed.

Lemma put_start_and_end_on_regenerates_line_witness :
  exists m',
    put_start_and_end_on 2 (straight (Line_attrs (V 0 0) (V 0 0) 0 None) (V 0 0) (V 0 0))
      (V 0 0) (V 1 0) = Ok m'
    /\ points m' = set_points_as_corners [V 0 0; V 1 0].
Proof.
  destruct (@put_start_and_end_on_regenerates_line 0
              (straight (Line_attrs (V 0 0) (V 0 0) 0 None) (V 0 0) (V 0 0))
              (V 0 0) (V 1 0) (V 0 0))
    as (m' & H1 & H2 & _); try reflexivity.
  - left. reflexivity.
  - left. reflexivity.
  - apply (@straight_facts (Line_attrs (V 0 0) (V 0 0) 0 None) (V 0 0) (V 0 0)
             eq_refl eq_refl eq_refl).
  - intro X. injection X. lra.
  - exists m'. auto.
Defined.

(** [set_length(length)] on a curve of nonzero length (a Line with or
    without tips, an Arrow without tip): the call succeeds, the new length
    is |length|, and every point has moved by the scaling of factor
    length / (old length) about the centre of the curve. *)
Theorem set_length_sets_length n (m : @mob R) (L : R) (s e : vec R) :
  NoDup (submobjects m) -> bare m ->
  get_start_and_end m = Ok (s, e) -> s <> e ->
  exists m',
    set_length (S n) m L = Ok m'
    /\ get_length m' = Ok (Rabs L)
    /\ points m'
       = map (fun p => vadd (vscale (L / get_norm (vsub s e))
                               (vsub p (get_center m))) (get_center m))
           (points m).
Proof.
  intros Hn Hb Hse Hne. unfold set_length, get_length at 1.
  rewrite Hse. cbn [bind fst snd].
  destruct (@scale_bare _ _ _ n m (L / get_norm (vsub s e))%sc None s e Hn Hb Hse
              (norm_nonzero Hne))
    as (m' & Hs & M & K & _).
  exists m'. split; [exact Hs|].
  assert (Hpos : 0 < get_norm (vsub s e)).
  { apply get_norm_pos. intro X. apply Hne. apply vsub_eq_ORIGIN. exact X. }
  split.
  - unfold get_length. rewrite (moved_get_start_and_end K M Hse).
    cbn [bind fst snd]. rewrite scaled_chord. f_equal.
    cbn [sdiv Ideal]. unfold Rdiv. rewrite Rabs_mult, Rabs_inv.
    rewrite (Rabs_right (get_norm (vsub s e))) by lra. field. lra.
  - apply M.
Qed.

Lemma set_length_sets_length_witness :
  exists m', set_length 1 line04 2 = Ok m' /\ get_length m' = Ok (Rabs 2).
Proof.
  destruct (@straight_facts (Line_attrs (V 0 0) (V 4 0) 0 None) (V 0 0) (V 4 0)
              eq_refl eq_refl eq_refl)
    as (Hw & Hse & _).
  fold line04 in Hw, Hse.
  assert (Hne : V 0 0 <> V 4 0 :> vec R) by (intro X; injection X; lra).
  assert (Hb : bare line04) by (left; discriminate).
  destruct (@set_length_sets_length 0 line04 2 (V 0 0) (V 4 0) (proj1 Hw) Hb Hse Hne)
    as (m' & H1 & H2 & _).
  exists m'. auto.
Defined.

End Endpoints.

Section Endpoints2.
Context {F : Type} {SC : Scalar F} {TR : Trig F}.
Local Abbreviation vec := (vec F).
Local Abbreviation mob := (@mob F).
Implicit Types m : mob.

(** [Arrow.scale] on an Arrow of length zero returns the Arrow as it is, in
    whatever arithmetic; so does [set_length], whose division by the length
    then has no effect on the geometry. *)
Theorem Arrow_scale_guards_zero_length n (m : mob) (len : F) :
  cls m = KArrow -> get_length m = Ok len -> seqb len s0 = true ->
  (forall k a, scale (S n) m k a = Ok m)
  /\ (forall L, set_length (S n) m L = Ok m).
Proof.
  intros Hc Hl Hz.
  assert (G : forall k a, scale (S n) m k a = Ok m).
  { intros k a. rewrite scale_S, Hc, Hl. cbn [bind]. rewrite Hz. reflexivity. }
  split; [exact G|].
  intro L. unfold set_length. rewrite Hl. cbn [bind]. apply G.
Qed.

End Endpoints2.

Section Endpoints3.
Local Open Scope R_scope.
Local Abbreviation mobR := (@mob R).
Implicit Types m : mobR.

Lemma Arrow_scale_guards_zero_length_witness :
  set_length 1
    (straight (Arrow_attrs (V 0 0) (V 0 0) 0 None (35 / 100) 6 (1 / 4) 5) (V 0 0) (V 0 0))
    2
  = Ok (straight (Arrow_attrs (V 0 0) (V 0 0) 0 None (35 / 100) 6 (1 / 4) 5) (V 0 0) (V 0 0)).
Proof.
  apply (proj2 (@Arrow_scale_guards_zero_length R _ _ 0
                  (straight (Arrow_attrs (V 0 0) (V 0 0) 0 None (35 / 100) 6 (1 / 4) 5)
                     (V 0 0) (V 0 0)) 0 eq_refl
                  ltac:(unfold get_length;
                        rewrite (proj1 (proj2 (@straight_facts
                          (Arrow_attrs (V 0 0) (V 0 0) 0 None (35 / 100) 6 (1 / 4) 5)
                          (V 0 0) (V 0 0) eq_refl eq_refl eq_refl)));
                        cbn [bind fst snd];
                        replace (vsub (V 0 0) (V 0 0)) with (ORIGIN : vec R)
                          by (symmetry; apply vsub_eq_ORIGIN; reflexivity);
                        rewrite get_norm_ORIGIN; reflexivity)
                  ltac:(apply Reqb_true; reflexivity))).
Defined.

End Endpoints3.

(** ** ArcBetweenPoints by angle and the curved arrows *)

Section CurvedArrows.
Local Open Scope R_scope.
Local Abbreviation mobR := (@mob R).
Implicit Types m : mobR.

Lemma Arc_generate_points_default_radius (m : @mob R) :
  radius m = None ->
  Arc_generate_points m = Arc_generate_points (with_radius m (Some (Finite 1))).
Proof.
  intro Hr. unfold Arc_generate_points.
  change (start_angle (with_radius m (Some (Finite 1)))) with (start_angle m).
  change (angle (with_radius m (Some (Finite 1)))) with (angle m).
  change (num_components (with_radius m (Some (Finite 1)))) with (num_components m).
  destruct (set_pre_positioned_points (start_angle m) (angle m) (num_components m));
    [|reflexivity].
  cbn [bind radius with_points with_radius]. rewrite Hr. reflexivity.
Qed.

Lemma ABP_by_angle_spec (s e : vec R) (a : R) :
  a = 0 \/ sin (a / 2) <> 0 ->
  exists m,
    ArcBetweenPoints s e a None = Ok m
    /\ VMobject_get_start (points m) = Ok s
    /\ VMobject_get_end (points m) = Ok e
    /\ submobjects m = [] /\ tip m = None /\ start_tip m = None
    /\ cls m = KArcBetweenPoints
    /\ tip_length m = DEFAULT_ARROW_TIP_LENGTH
    /\ (exists h, get_last_handle m = Ok h)
    /\ (exists h, get_first_handle m = Ok h).
Proof.
  intro Ha. unfold ArcBetweenPoints.
  set (m0 := ArcBetweenPoints_attrs s e a None).
  change (radius m0) with (@None (radius_t R)). cbn [bind].
  rewrite (@Arc_generate_points_default_radius m0 eq_refl).
  set (m1 := with_radius m0 (Some (Finite 1))).
  destruct (@Arc_generate_points_ends m1 1 eq_refl eq_refl (NoDup_nil _))
    as (m2 & Hg & Hs & He & Hlen & K & C & Hsub2 & Hst2 & Hen2).
  rewrite Hg. cbn [bind]. cbv zeta.
  change (submobjects m1) with (@nil nat) in Hsub2.
  destruct K as (k1 & k2 & k3 & _).
  change (tip m1) with (@None nat) in k2. change (start_tip m1) with (@None nat) in k3.
  change (cls m1) with KArcBetweenPoints in k1.
  destruct C as (c1 & c2 & _ & _ & _ & c6 & _).
  change (radius m1) with (Some (Finite 1)) in c2.
  change (angle m1) with a in c6.
  change (tip_length m1) with (@DEFAULT_ARROW_TIP_LENGTH R _) in c1.
  change (start m1) with s in Hst2. change (end_ m1) with e in Hen2.
  change (arc_center m1) with (ORIGIN : vec R) in Hs, He.
  change (start_angle m1) with 0 in Hs, He. change (angle m1) with a in He.
  assert (Fin : forall m3 cs ce,
             submobjects m3 = [] -> tip m3 = None -> start_tip m3 = None ->
             cls m3 = KArcBetweenPoints ->
             tip_length m3 = DEFAULT_ARROW_TIP_LENGTH ->
             radius m3 = Some (Finite 1) -> start m3 = s -> end_ m3 = e ->
             VMobject_get_start (points m3) = Ok cs ->
             VMobject_get_end (points m3) = Ok ce -> cs <> ce ->
             exists m,
               (m4 <- Mobject_put_start_and_end_on plain_scale m3 (start m3) (end_ m3) ;;
                match radius m4 with
                | None =>
                    cm <- get_arc_center m4 ;;
                    let '(center, m5) := cm in
                    if negb (failed_to_get_center m5)
                    then Ok (with_radius m5
                               (Some (Finite (get_norm (vsub (start m5) center)))))
                    else Ok (with_radius m5 (Some Infinite))
                | Some _ => Ok m4
                end) = Ok m
               /\ VMobject_get_start (points m) = Ok s
               /\ VMobject_get_end (points m) = Ok e
               /\ submobjects m = [] /\ tip m = None /\ start_tip m = None
               /\ cls m = KArcBetweenPoints
               /\ tip_length m = DEFAULT_ARROW_TIP_LENGTH
               /\ (exists h, get_last_handle m = Ok h)
               /\ (exists h, get_first_handle m = Ok h)).
  { intros m3 cs ce F1 F2 F3 F4 F5 F6 F7 F8 F9 F10 F11.
    assert (Hd : NoDup (submobjects m3)) by (rewrite F1; constructor).
    assert (Hse3 : get_start_and_end m3 = Ok (cs, ce)).
    { apply bare_get_start_and_end; try assumption.
      - unfold has_tip. rewrite F2. reflexivity.
      - unfold has_start_tip. rewrite F3. reflexivity. }
    destruct (@Mobject_puts_spec plain_scale m3 (start m3) (end_ m3) cs ce Hd Hse3 F11)
      as (m4 & Hp & M & K4 & C4).
    { intros f p. apply plain_scale_spec. exact Hd. }
    rewrite Hp. cbn [bind].
    destruct C4 as (d1 & d2 & _). rewrite d2, F6.
    exists m4. split; [reflexivity|].
    destruct M as (Mp & _). destruct K4 as (q1 & q2 & q3 & q4 & _).
    split; [rewrite Mp, (VMobject_get_start_map _ _ F9), similarity_start, F7; reflexivity|].
    split; [rewrite Mp, (VMobject_get_end_map _ _ F10), similarity_end, F8 by exact F11;
            reflexivity|].
    split; [apply no_members; intro j; rewrite q4, F1; tauto|].
    split; [congruence|]. split; [congruence|]. split; [congruence|].
    split; [congruence|].
    destruct (@last_handle_exists m3 cs ce F9 F10 F11) as (h & Hh).
    destruct (@handle_exists m3 true cs ce F9 F10 F11) as (h' & Hh').
    split.
    - exists (similarity cs (vsub ce cs) (start m3) (vsub (end_ m3) (start m3)) h).
      eapply get_last_handle_map; [exact Mp | exact Hh].
    - cbn [handle_of] in Hh'. unfold get_first_handle in Hh' |- *. rewrite Mp.
      destruct (points m3) as [|x [|y l]]; try discriminate.
      eexists. reflexivity. }
  destruct (seqb (angle m2) s0) eqn:Ea.
  - destruct (@straight_facts m2 LEFT RIGHT Hsub2 k2 k3) as (_ & _ & Hs3 & He3 & _).
    apply (Fin (with_points m2 (set_points_as_corners [LEFT; RIGHT])) LEFT RIGHT);
      try assumption; try apply LEFT_RIGHT.
  - apply (Fin m2 _ _ Hsub2 k2 k3 k1 c1 c2 Hst2 Hen2 Hs He).
    apply Reqb_neq in Ea. rewrite c6 in Ea. cbn [s0 Ideal] in Ea.
    destruct Ha as [Ha | Ha]; [contradiction|].
    apply circle_points_distinct; [lra | exact Ha].
Qed.

(** ArcBetweenPoints(start, end, angle=a), no radius given, for an angle
    that is 0 or not a multiple of a full turn: the construction succeeds
    and the path runs from [start] to [end], which are also the curve's
    start and end points. *)
Theorem ArcBetweenPoints_by_angle_joins_points (s e : vec R) (a : R) :
  a = 0 \/ sin (a / 2) <> 0 ->
  exists m,
    ArcBetweenPoints s e a None = Ok m
    /\ VMobject_get_start (points m) = Ok s
    /\ VMobject_get_end (points m) = Ok e
    /\ get_start_and_end m = Ok (s, e)
    /\ get_length m = Ok (get_norm (vsub s e))
    /\ has_tip m = false /\ has_start_tip m = false.
Proof.
  intro Ha.
  destruct (ABP_by_angle_spec s e Ha)
    as (m & Hm & Hs & He & Hsub & Ht & Hst & _).
  assert (HT : has_tip m = false) by (unfold has_tip; rewrite Ht; reflexivity).
  assert (HS : has_start_tip m = false)
    by (unfold has_start_tip; rewrite Hst; reflexivity).
  assert (Hse : get_start_and_end m = Ok (s, e))
    by (apply bare_get_start_and_end; assumption).
  exists m. split; [exact Hm|]. split; [exact Hs|]. split; [exact He|].
  split; [exact Hse|].
  split; [unfold get_length; rewrite Hse; reflexivity|]. split; assumption.
Qed.

Lemma ArcBetweenPoints_by_angle_joins_points_witness :
  exists m,
    ArcBetweenPoints (V 0 0) (V 1 0) (PI / 2) None = Ok m
    /\ VMobject_get_start (points m) = Ok (V 0 0)
    /\ VMobject_get_end (points m) = Ok (V 1 0).
Proof.
  destruct (@ArcBetweenPoints_by_angle_joins_points (V 0 0) (V 1 0) (PI / 2))
    as (m & H1 & H2 & H3 & _).
  - right. replace (PI / 2 / 2) with (PI / 4) by field.
    rewrite sin_PI4. apply Rgt_not_eq. apply Rdiv_lt_0_compat; [lra|].
    apply sqrt_lt_R0. lra.
  - exists m. auto.
Defined.

Lemma default_tip_length_pos : 0 < (DEFAULT_ARROW_TIP_LENGTH : R).
Proof. unfold DEFAULT_ARROW_TIP_LENGTH. cbn [sofnat]. unsc. lra. Qed.

Lemma CurvedArrow_spec n (s e : vec R) (a : R) :
  s <> e -> a = 0 \/ sin (a / 2) <> 0 ->
  exists m t tp,
    CurvedArrow (S (S (S n))) s e a None = Ok m
    /\ wf m /\ cls m = KArcBetweenPoints
    /\ tip m = Some t /\ has_tip m = true /\ deref m (tip m) = tp
    /\ length tp = 12%nat
    /\ start_tip m = None
    /\ get_start_and_end m = Ok (s, e)
    /\ VMobject_get_start tp = Ok e
    /\ ArrowTip_get_length tp = Ok DEFAULT_ARROW_TIP_LENGTH
    /\ tip_length m = DEFAULT_ARROW_TIP_LENGTH
    /\ (exists h, get_first_handle m = Ok h)
    /\ VMobject_get_start (points m) = Ok s.
Proof.
  intros Hne Ha. unfold CurvedArrow.
  destruct (ABP_by_angle_spec s e Ha)
    as (m & Hm & Hs & He & Hsub & Ht & Hst & Hc & Htl & (h & Hh) & (h1 & Hh1)).
  rewrite Hm. cbn [bind].
  assert (HT : has_tip m = false) by (unfold has_tip; rewrite Ht; reflexivity).
  assert (HS : has_start_tip m = false)
    by (unfold has_start_tip; rewrite Hst; reflexivity).
  assert (Hse : get_start_and_end m = Ok (s, e))
    by (apply bare_get_start_and_end; assumption).
  assert (Hw : wf m).
  { unfold wf. rewrite Hsub, Ht, Hst. split; [constructor|].
    split; [intros j []|]. split; intros j X; discriminate. }
  assert (HL : resolve_tip_length m None = Ok DEFAULT_ARROW_TIP_LENGTH).
  { cbn [resolve_tip_length]. unfold get_default_tip_length. rewrite Hc, Htl.
    reflexivity. }
  destruct (@add_tip_spec n m None false s e h _ Hw (or_intror (conj HT HS))
              Hse Hne Hh HL)
    as (tp & m' & _ & Hl12 & Hfirst & Hlen & _ & _ & Hadd & K & C & M & Hse1).
  rewrite Hadd.
  pose proof (wf_keeps Hw K) as Hw'.
  destruct (attach_end tp Hw') as (A1 & A2 & A3 & _ & _ & A6 & A7 & A8).
  exists (attach m' tp false), (fresh_id (heap m')), tp.
  split; [reflexivity|].
  split.
  { eapply added_wf; [exact Hw|].
    apply (proj2 (proj2 (proj2 (protocol_inv (S (S (S n)))))) _ _ _ _ Hw Hadd). }
  destruct K as (k1 & k2 & k3 & k4).
  split; [congruence|]. split; [exact A1|]. split; [exact A3|].
  split; [rewrite A1; cbn [deref]; rewrite attach_heap, Nat.eqb_refl; reflexivity|].
  split; [exact Hl12|].
  split; [congruence|]. split; [exact Hse1|]. split; [exact Hfirst|].
  split; [apply Hlen; apply default_tip_length_pos|].
  destruct A7 as (a1 & _). destruct C as (c1 & _).
  split; [congruence|].
  destruct M as (Mp & _). cbv iota in Mp.
  split.
  - unfold get_first_handle in Hh1 |- *. rewrite A6, Mp.
    destruct (points m) as [|x [|y l]]; try discriminate. eexists. reflexivity.
  - rewrite A6, Mp, (VMobject_get_start_map _ _ Hs), similarity_start. reflexivity.
Qed.

(** CurvedArrow(start_point, end_point, angle) between two distinct points:
    the arc carries a tip at its end, of the default tip length, whose
    first point is [end_point]; the curve still runs from [start_point] to
    [end_point] and there is no tip at the start. *)
Theorem CurvedArrow_has_end_tip n (s e : vec R) (a : R) :
  s <> e -> a = 0 \/ sin (a / 2) <> 0 ->
  exists m,
    CurvedArrow (S (S (S n))) s e a None = Ok m
    /\ has_tip m = true /\ has_start_tip m = false
    /\ get_start_and_end m = Ok (s, e)
    /\ VMobject_get_start (deref m (tip m)) = Ok e
    /\ ArrowTip_get_length (deref m (tip m)) = Ok DEFAULT_ARROW_TIP_LENGTH.
Proof.
  intros Hne Ha.
  destruct (CurvedArrow_spec n Hne Ha)
    as (m & t & tp & H1 & _ & _ & _ & H5 & H6 & _ & H7 & H8 & H9 & H10 & _).
  exists m. split; [exact H1|]. split; [exact H5|].
  split; [unfold has_start_tip; rewrite H7; reflexivity|].
  split; [exact H8|]. rewrite H6. split; assumption.
Qed.

Lemma CurvedArrow_has_end_tip_witness :
  exists m,
    CurvedArrow 3 (V 0 0) (V 1 0) (PI / 2) None = Ok m
    /\ has_tip m = true
    /\ get_start_and_end m = Ok (V 0 0, V 1 0).
Proof.
  destruct (@CurvedArrow_has_end_tip 0 (V 0 0) (V 1 0) (PI / 2))
    as (m & H1 & H2 & _ & H4 & _).
  - intro X. injection X. lra.
  - right. replace (PI / 2 / 2) with (PI / 4) by field.
    rewrite sin_PI4. apply Rgt_not_eq. apply Rdiv_lt_0_compat; [lra|].
    apply sqrt_lt_R0. lra.
  - exists m. auto.
Defined.

Lemma get_norm_cmul (z v : vec R) :
  get_norm (cmul z v) = get_norm z * get_norm v.
Proof.
  unfold get_norm, cmul. cbn [vx vy]. unsc.
  rewrite <- sqrt_mult_alt by nra. f_equal. ring.
Qed.

Lemma get_norm_cdiv (t c : vec R) :
  c <> ORIGIN -> get_norm (cdiv t c) = get_norm t / get_norm c.
Proof.
  intro Hc. pose proof (get_norm_pos Hc) as Hp.
  assert (E : t = cmul (cdiv t c) c).
  { apply vec_nonzero in Hc.
    assert (Hn : vx c * vx c + vy c * vy c <> 0) by nra.
    unfold cmul, cdiv. cbn [vx vy]. apply vec_eq; cbn [vx vy]; field; exact Hn. }
  rewrite E at 2. rewrite get_norm_cmul. field. lra.
Qed.

Lemma ArrowTip_get_base_similarity (a c s t : vec R) (pts : list (vec R)) :
  length pts = 12%nat -> c <> ORIGIN ->
  ArrowTip_get_base (map (similarity a c s t) pts)
  = similarity a c s t (ArrowTip_get_base pts).
Proof.
  intros H Hc. apply vec_nonzero in Hc.
  assert (Hn : vx c * vx c + vy c * vy c <> 0) by nra.
  do 12 (destruct pts as [|? pts]; [discriminate|]).
  destruct pts; [|discriminate]. cbn [map].
  rewrite !ArrowTip_get_base_12.
  veq; field; exact Hn.
Qed.

Lemma ArrowTip_get_length_similarity (a c s t : vec R) (pts : list (vec R)) (L : R) :
  length pts = 12%nat -> c <> ORIGIN ->
  ArrowTip_get_length pts = Ok L ->
  ArrowTip_get_length (map (similarity a c s t) pts)
  = Ok (get_norm t / get_norm c * L).
Proof.
  intros H Hc HL. unfold ArrowTip_get_length, ArrowTip_get_vector in *.
  rewrite ArrowTip_get_base_similarity by assumption.
  destruct pts as [|p0 rest]; [discriminate|].
  cbn [map ArrowTip_get_tip_point bind] in *. injection HL as <-.
  f_equal. rewrite <- get_norm_cdiv by exact Hc.
  transitivity (get_norm (cmul (cdiv t c)
                            (vsub p0 (ArrowTip_get_base (p0 :: rest))))).
  - f_equal. veq; ring.
  - rewrite get_norm_cmul. reflexivity.
Qed.

(** CurvedDoubleArrow(start_point, end_point, angle) between two distinct
    points: both tips are attached and the curve still runs from
    [start_point] to [end_point].  The tip at the start has the default tip
    length.  The tip at the end, attached first, was moved with the rest of
    the curve when the start tip was put on: its length is the default
    length times |end - b| / |end - start|, with b the base of the start
    tip. *)
Theorem CurvedDoubleArrow_tips n (s e : vec R) (a : R) :
  s <> e -> a = 0 \/ sin (a / 2) <> 0 ->
  exists m b,
    CurvedDoubleArrow (S (S (S n))) s e a None = Ok m
    /\ has_tip m = true /\ has_start_tip m = true
    /\ get_start_and_end m = Ok (s, e)
    /\ ArrowTip_get_base (deref m (start_tip m)) = b
    /\ ArrowTip_get_length (deref m (start_tip m)) = Ok DEFAULT_ARROW_TIP_LENGTH
    /\ ArrowTip_get_length (deref m (tip m))
       = Ok (get_norm (vsub e b) / get_norm (vsub e s) * DEFAULT_ARROW_TIP_LENGTH).
Proof.
  intros Hne Ha. unfold CurvedDoubleArrow.
  destruct (CurvedArrow_spec n Hne Ha)
    as (m & t & tp & Hm & Hw & Hc & Ht & HT & Hd & Hl12 & Hst & Hse & _ & Hlen
        & Htl & (h1 & Hh1) & _).
  rewrite Hm. cbn [bind].
  assert (Hb : bare m) by (left; rewrite Hc; discriminate).
  assert (HL : resolve_tip_length m None = Ok DEFAULT_ARROW_TIP_LENGTH).
  { cbn [resolve_tip_length]. unfold get_default_tip_length. rewrite Hc, Htl.
    reflexivity. }
  destruct (@add_tip_spec n m None true s e h1 _ Hw Hb Hse Hne Hh1 HL)
    as (tp' & m' & _ & _ & _ & Hlen' & _ & _ & Hadd & K & C & M & Hse1).
  rewrite Hadd.
  pose proof (wf_keeps Hw K) as Hw'.
  destruct (attach_start tp' Hw') as (A1 & A2 & A3 & _ & _ & _ & _ & _).
  exists (attach m' tp' true), (ArrowTip_get_base tp').
  split; [reflexivity|].
  assert (Ht' : tip m' = Some t).
  { destruct K as (_ & k2 & _). congruence. }
  destruct (@attach_other_child _ m' tp' true (tip m') Hw') as (O1 & O2).
  { intros j Hj. destruct Hw' as (_ & _ & w3 & _). apply w3. exact Hj. }
  split.
  { unfold has_tip. rewrite A2, O1. rewrite Ht'. cbn [hasattr andb].
    pose proof (has_tip_keeps K) as X. rewrite HT in X. unfold has_tip in X.
    rewrite Ht' in X. exact X. }
  split; [exact A3|]. split; [exact Hse1|].
  assert (D1 : deref (attach m' tp' true) (start_tip (attach m' tp' true)) = tp').
  { rewrite A1. cbn [deref]. rewrite attach_heap, Nat.eqb_refl. reflexivity. }
  rewrite D1. split; [reflexivity|].
  split; [apply Hlen'; apply default_tip_length_pos|].
  rewrite A2, O2, Ht'. cbn [deref].
  destruct M as (_ & Mh). cbv iota in Mh. rewrite Mh.
  assert (Hin : mem t (submobjects m) = true).
  { apply mem_In. apply has_tip_true in HT. destruct HT as (t0 & E0 & Hin0).
    congruence. }
  rewrite Hin. rewrite Ht in Hd. cbn [deref] in Hd. rewrite Hd.
  apply ArrowTip_get_length_similarity; [exact Hl12| |exact Hlen].
  intro X. apply Hne. symmetry. apply vsub_eq_ORIGIN. exact X.
Qed.

Lemma CurvedDoubleArrow_tips_witness :
  exists m,
    CurvedDoubleArrow 3 (V 0 0) (V 1 0) (PI / 2) None = Ok m
    /\ has_tip m = true /\ has_start_tip m = true
    /\ get_start_and_end m = Ok (V 0 0, V 1 0).
Proof.
  destruct (@CurvedDoubleArrow_tips 0 (V 0 0) (V 1 0) (PI / 2))
    as (m & b & H1 & H2 & H3 & H4 & _).
  - intro X. injection X. lra.
  - right. replace (PI / 2 / 2) with (PI / 4) by field.
    rewrite sin_PI4. apply Rgt_not_eq. apply Rdiv_lt_0_compat; [lra|].
    apply sqrt_lt_R0. lra.
  - exists m. auto.
Defined.

End CurvedArrows.

(** ** get_arc_center and move_arc_center_to on an Arc *)

Section CentreOfArc.
Local Open Scope R_scope.
Local Abbreviation mobR := (@mob R).
Implicit Types m : mobR.

Lemma pre_positioned_first_quad (sa th : R) :
  exists rest,
    set_pre_positioned_points sa th 9
    = Ok (circle_point ORIGIN 1 sa
            :: arc_handle_after ORIGIN 1 sa (th / 8)
            :: arc_handle_before ORIGIN 1 (sa + th / 8) (th / 8)
            :: circle_point ORIGIN 1 (sa + th / 8) :: rest).
Proof.
  unfold set_pre_positioned_points. rewrite py_div_components. cbn [bind].
  unfold linspace.
  cbn [seq map app removelast tl combine set_anchors_and_handles fst snd bind].
  assert (E0 : (sofnat 0 * ((sa + th - sa) / sofnat 8) + sa)%sc = sa).
  { cbn [sofnat]. unsc. field. }
  assert (E1 : (sofnat 1 * ((sa + th - sa) / sofnat 8) + sa)%sc = sa + th / 8).
  { cbn [sofnat]. unsc. field. }
  assert (Ed : (th / (sofnat 9 - s1) / s3)%sc = th / 8 / 3).
  { cbn [sofnat]. unsc. field. }
  rewrite E0, E1, Ed.
  eexists. f_equal.
  f_equal; [unfold circle_point; veq; ring|].
  f_equal; [unfold arc_handle_after; veq; ring|].
  f_equal; [unfold arc_handle_before; veq; ring|].
  f_equal. unfold circle_point; veq; ring.
Qed.

Lemma Arc_generate_points_first_quad (m : @mob R) (r : R) :
  radius m = Some (Finite r) -> num_components m = 9%nat ->
  exists m' rest,
    Arc_generate_points m = Ok m'
    /\ points m'
       = circle_point (arc_center m) r (start_angle m)
           :: arc_handle_after (arc_center m) r (start_angle m) (angle m / 8)
           :: arc_handle_before (arc_center m) r (start_angle m + angle m / 8)
                (angle m / 8)
           :: circle_point (arc_center m) r (start_angle m + angle m / 8) :: rest
    /\ failed_to_get_center m' = failed_to_get_center m.
Proof.
  intros Hr Hn. unfold Arc_generate_points. rewrite Hn.
  destruct (pre_positioned_first_quad (start_angle m) (angle m)) as (rest & Hp).
  rewrite Hp. cbn [bind radius with_points]. rewrite Hr.
  match goal with |- context [with_points m ?l] => set (pts := l) end.
  change (radius (with_points m pts)) with (radius m). rewrite Hr.
  change (arc_center (Mobject_scale (with_points m pts) r (Some ORIGIN)))
    with (arc_center m).
  set (m1 := Mobject_scale (with_points m pts) r (Some ORIGIN)).
  eexists.
  exists (map (fun p => vadd p (arc_center m))
            (map (fun p => vadd (vscale r (vsub p ORIGIN)) ORIGIN) rest)).
  split; [reflexivity|].
  assert (P : points (Mobject_shift m1 (arc_center m))
              = map (fun p => vadd p (arc_center m))
                  (map (fun p => vadd (vscale r (vsub p ORIGIN)) ORIGIN) pts))
    by reflexivity.
  rewrite P. unfold pts. cbn [map].
  split.
  - f_equal; [unfold circle_point; veq; ring|].
    f_equal; [unfold arc_handle_after; veq; ring|].
    f_equal; [unfold arc_handle_before; veq; ring|].
    f_equal. unfold circle_point; veq; ring.
  - reflexivity.
Qed.

Lemma arc_quad_center (c : vec R) (r x d : R) (m : @mob R) rest :
  r <> 0 -> d <> 0 -> sin d <> 0 ->
  points m = circle_point c r x :: arc_handle_after c r x d
               :: arc_handle_before c r (x + d) d
               :: circle_point c r (x + d) :: rest ->
  get_arc_center m = Ok (c, m).
Proof.
  intros Hr Hd Hs Hp. unfold get_arc_center. rewrite Hp.
  fold (quarter_turn (vsub (arc_handle_after c r x d) (circle_point c r x))).
  fold (quarter_turn (vsub (arc_handle_before c r (x + d) d) (circle_point c r (x + d)))).
  rewrite !quarter_turn_spec.
  unfold line_intersection. cbv zeta.
  unfold det, vadd, vsub, circle_point, arc_handle_after, arc_handle_before.
  cbn [fst snd vx vy]. unsc.
  assert (S : sin d = sin (x + d) * cos x - cos (x + d) * sin x).
  { replace d with ((x + d) - x) at 1 by ring. apply sin_minus. }
  set (ca := cos x) in *. set (sa := sin x) in *.
  set (cb := cos (x + d)) in *. set (sb := sin (x + d)) in *.
  assert (Hdiv : sb * ca - cb * sa <> 0) by (rewrite <- S; exact Hs).
  match goal with |- context [Reqb ?v 0] =>
    assert (E : Reqb v 0 = false) end.
  { apply Reqb_false.
    match goal with |- ?v <> 0 =>
      replace v with (- (r * (d / 3) * (r * (d / 3)) * (sb * ca - cb * sa))) by ring end.
    assert (Hk : r * (d / 3) <> 0)
      by (apply Rmult_integral_contrapositive_currified; lra).
    apply Ropp_neq_0_compat.
    apply Rmult_integral_contrapositive_currified; [|exact Hdiv].
    apply Rmult_integral_contrapositive_currified; exact Hk. }
  rewrite E. f_equal. f_equal.
  apply vec_eq; cbn [vx vy]; field;
    (match goal with |- ?w <> 0 =>
       replace w with (- (r * d * (r * d) * (sb * ca - cb * sa))) by ring end;
     apply Ropp_neq_0_compat;
     repeat apply Rmult_integral_contrapositive_currified; assumption).
Qed.

(** [get_arc_center] finds the centre an Arc was built around: for an
    Arc(radius=r, arc_center=c, start_angle, angle) with r and the angle not
    0 and the angle no multiple of four turns, the normals at the first two
    anchors meet in c, and no failure is recorded. *)
Theorem get_arc_center_recovers_center (r : R) (c : vec R) (sa th : R) :
  r <> 0 -> th <> 0 -> sin (th / 8) <> 0 ->
  exists m,
    Arc (Some r) 9 c sa th = Ok m
    /\ get_arc_center m = Ok (c, m)
    /\ failed_to_get_center m = false.
Proof.
  intros Hr Ht Hs. unfold Arc.
  match goal with |- context [Arc_generate_points ?x] => set (m0 := x) end.
  destruct (@Arc_generate_points_first_quad m0 r eq_refl eq_refl)
    as (m & rest & Hm & Hp & Hf).
  exists m. split; [exact Hm|]. split; [|exact Hf].
  change (arc_center m0) with c in Hp. change (start_angle m0) with sa in Hp.
  change (angle m0) with th in Hp.
  apply (@arc_quad_center c r sa (th / 8) m rest);
    try assumption.
  lra.
Qed.

Lemma sin_PI4_neq_0 : sin (PI / 4) <> 0.
Proof.
  rewrite sin_PI4. apply Rgt_not_eq. apply Rdiv_lt_0_compat; [lra|].
  apply sqrt_lt_R0. lra.
Qed.

Lemma get_arc_center_recovers_center_witness :
  exists m,
    Circle 2 (V 1 1) = Ok m /\ get_arc_center m = Ok (V 1 1, m).
Proof.
  unfold Circle.
  destruct (@get_arc_center_recovers_center 2 (V 1 1) 0 TAU) as (m & H1 & H2 & _).
  - lra.
  - unfold TAU. unsc. pose proof PI_RGT_0. lra.
  - unfold TAU. unsc. replace (2 * PI / 8) with (PI / 4) by field.
    apply sin_PI4_neq_0.
  - exists m. split; assumption.
Defined.

(** [move_arc_center_to(point)] on such an Arc: afterwards [get_arc_center]
    returns [point], and the arc starts at the same angle and distance from
    its new centre. *)
Theorem move_arc_center_to_moves_center (r : R) (c p : vec R) (sa th : R) :
  r <> 0 -> th <> 0 -> sin (th / 8) <> 0 ->
  exists m m',
    Arc (Some r) 9 c sa th = Ok m
    /\ move_arc_center_to m p = Ok m'
    /\ get_arc_center m' = Ok (p, m')
    /\ VMobject_get_start (points m') = Ok (circle_point p r sa).
Proof.
  intros Hr Ht Hs. unfold Arc.
  match goal with |- context [Arc_generate_points ?x] => set (m0 := x) end.
  destruct (@Arc_generate_points_first_quad m0 r eq_refl eq_refl)
    as (m & rest & Hm & Hp & Hf).
  change (arc_center m0) with c in Hp. change (start_angle m0) with sa in Hp.
  change (angle m0) with th in Hp.
  assert (Hd : th / 8 <> 0) by lra.
  pose proof (@arc_quad_center c r sa (th / 8) m
                rest Hr Hd Hs Hp) as Hc.
  exists m. eexists. split; [exact Hm|].
  unfold move_arc_center_to. rewrite Hc. cbn [bind].
  split; [reflexivity|].
  assert (P : points (Mobject_shift m (vsub p c))
              = map (fun q => vadd q (vsub p c)) (points m)) by reflexivity.
  split.
  - apply (@arc_quad_center p r sa (th / 8) _
             (map (fun q => vadd q (vsub p c)) rest)); try assumption.
    rewrite P, Hp. cbn [map].
    f_equal; [unfold circle_point; veq; ring|].
    f_equal; [unfold arc_handle_after; veq; ring|].
    f_equal; [unfold arc_handle_before; veq; ring|].
    f_equal. unfold circle_point; veq; ring.
  - rewrite P, Hp. cbn [map VMobject_get_start]. f_equal.
    unfold circle_point; veq; ring.
Qed.

Lemma move_arc_center_to_moves_center_witness :
  exists m m',
    Arc (Some 2) 9 (V 1 1) 0 TAU = Ok m
    /\ move_arc_center_to m (V 5 5) = Ok m'
    /\ get_arc_center m' = Ok (V 5 5, m').
Proof.
  destruct (@move_arc_center_to_moves_center 2 (V 1 1) (V 5 5) 0 TAU)
    as (m & m' & H1 & H2 & H3 & _).
  - lra.
  - unfold TAU. unsc. pose proof PI_RGT_0. lra.
  - unfold TAU. unsc. replace (2 * PI / 8) with (PI / 4) by field.
    apply sin_PI4_neq_0.
  - exists m, m'. auto.
Defined.

End CentreOfArc.

(** ** Line.set_angle, get_angle and get_unit_vector *)

Section LineAngles.
Local Open Scope R_scope.
Local Abbreviation mobR := (@mob R).
Implicit Types m : mobR.

Lemma Rarg_polar (L a : R) :
  0 < L -> - PI < a <= PI -> Rarg (L * cos a) (L * sin a) = a.
Proof.
  intros HL Ha. unfold Rarg.
  assert (E : L * cos a / sqrt (L * cos a * (L * cos a) + L * sin a * (L * sin a))
              = cos a).
  { replace (L * cos a * (L * cos a) + L * sin a * (L * sin a))
      with (L * L * ((sin a)² + (cos a)²)) by (unfold Rsqr; ring).
    rewrite sin2_cos2, Rmult_1_r, sqrt_square by lra. field. lra. }
  rewrite E. destruct (Rle_dec 0 (L * sin a)) as [H|H].
  - destruct (Rle_dec 0 a) as [P|N]; [apply acos_cos; lra|].
    assert (sin a < 0) by (apply sin_lt_0_var; lra). nra.
  - destruct (Rle_dec 0 a) as [P|N].
    + assert (0 <= sin a) by (apply sin_ge_0; lra). nra.
    + rewrite <- (cos_neg a), acos_cos by lra. lra.
Qed.

Lemma rot_to_angle (v : vec R) (a : R) :
  v <> ORIGIN ->
  rot (a - angle_of_vector v) v
  = V (get_norm v * cos a) (get_norm v * sin a).
Proof.
  intro H. pose proof (get_norm_pos H) as Hn.
  pose proof (cos_angle_of_vector H) as Hc.
  pose proof (sin_angle_of_vector H) as Hs.
  assert (X : vx v = get_norm v * cos (angle_of_vector v))
    by (rewrite Hc; field; lra).
  assert (Y : vy v = get_norm v * sin (angle_of_vector v))
    by (rewrite Hs; field; lra).
  unfold rot. unsc. rewrite cos_minus, sin_minus.
  set (n := get_norm v) in *. set (b := angle_of_vector v) in *.
  cbn [vx vy]. rewrite X, Y.
  pose proof (sin2_cos2 b) as T. unfold Rsqr in T.
  apply vec_eq; cbn [vx vy].
  - transitivity (n * cos a * (sin b * sin b + cos b * cos b)); [ring|].
    rewrite T. ring.
  - transitivity (n * sin a * (sin b * sin b + cos b * cos b)); [ring|].
    rewrite T. ring.
Qed.

(** [Line.set_angle(angle)] turns a line about its start: the start stays,
    the end comes to lie at the line's old length from the start in the
    direction [angle], and for an angle in (-pi, pi] [get_angle] returns it
    afterwards. *)
Theorem Line_set_angle_turns_about_start (m : @mob R) (s e : vec R) (a : R) :
  wf m -> get_start m = Ok s -> get_end m = Ok e -> s <> e ->
  exists m',
    Line_set_angle m a = Ok m'
    /\ get_start m' = Ok s
    /\ get_end m'
       = Ok (vadd s (V (get_norm (vsub e s) * cos a) (get_norm (vsub e s) * sin a)))
    /\ get_length m' = get_length m
    /\ (- PI < a <= PI -> Line_get_angle m' = Ok a).
Proof.
  intros Hw Hs He Hne.
  assert (Hv : vsub e s <> ORIGIN).
  { intro X. apply Hne. symmetry. apply vsub_eq_ORIGIN. exact X. }
  pose proof (get_norm_pos Hv) as Hn.
  unfold Line_set_angle, Line_get_angle, Line_get_vector.
  rewrite He, Hs. cbn [bind].
  set (g := fun p : vec R =>
              vadd (rot (a - angle_of_vector (vsub e s)) (vsub p s)) s).
  set (m' := Mobject_rotate m (a - angle_of_vector (vsub e s)) (Some s)).
  exists m'. split; [reflexivity|].
  assert (K : keeps m m') by (apply keeps_apf, Hw).
  assert (M : moved g m m') by (apply moved_apf, Hw).
  pose proof (moved_get_start K M Hs) as Hs'.
  pose proof (moved_get_end K M He) as He'.
  assert (Gs : g s = s).
  { unfold g, rot. unsc. apply vec_eq; cbn [vx vy vadd vsub]; unsc; ring. }
  assert (Ge : g e = vadd s (V (get_norm (vsub e s) * cos a)
                               (get_norm (vsub e s) * sin a))).
  { unfold g. rewrite rot_to_angle by exact Hv.
    apply vec_eq; cbn [vx vy vadd]; unsc; ring. }
  rewrite Gs in Hs'. rewrite Ge in He'.
  split; [exact Hs'|]. split; [exact He'|]. split.
  - unfold get_length, get_start_and_end. rewrite Hs', He', Hs, He.
    cbn [bind fst snd]. f_equal.
    rewrite (get_norm_sym s e). set (n := get_norm (vsub e s)) in *.
    unfold get_norm. unsc. cbn [vx vy vadd vsub]. unsc.
    replace ((vx s - (vx s + n * cos a)) * (vx s - (vx s + n * cos a))
             + (vy s - (vy s + n * sin a)) * (vy s - (vy s + n * sin a)))
      with (n * n * ((sin a)² + (cos a)²)) by (unfold Rsqr; ring).
    rewrite sin2_cos2, Rmult_1_r, sqrt_square; [reflexivity|lra].
  - intro Ha. rewrite He', Hs'. cbn [bind]. f_equal.
    unfold angle_of_vector. unsc. cbn [vx vy vadd vsub]. unsc.
    set (n := get_norm (vsub e s)) in *.
    replace (vx s + n * cos a - vx s) with (n * cos a) by ring.
    replace (vy s + n * sin a - vy s) with (n * sin a) by ring.
    destruct (Reqb (n * cos a) 0 && Reqb (n * sin a) 0) eqn:E.
    + apply andb_true_iff in E. rewrite !Reqb_eq in E. destruct E as [E1 E2].
      pose proof (sin2_cos2 a) as T. unfold Rsqr in T. nra.
    + apply Rarg_polar; assumption.
Qed.

Lemma Line_set_angle_turns_about_start_witness :
  exists m',
    Line_set_angle line04 (PI / 2) = Ok m'
    /\ get_start m' = Ok (V 0 0)
    /\ Line_get_angle m' = Ok (PI / 2).
Proof.
  destruct (@straight_facts (Line_attrs (V 0 0) (V 4 0) 0 None) (V 0 0) (V 4 0)
              eq_refl eq_refl eq_refl)
    as (Hw & _ & Hbs & Hbe & _ & _ & HT & HS).
  fold line04 in Hw, Hbs, Hbe, HT, HS.
  assert (Hs : get_start line04 = Ok (V 0 0))
    by (unfold get_start; rewrite HS; exact Hbs).
  assert (He : get_end line04 = Ok (V 4 0))
    by (unfold get_end; rewrite HT; exact Hbe).
  assert (Hne : V 0 0 <> V 4 0 :> vec R) by (intro X; injection X; lra).
  destruct (@Line_set_angle_turns_about_start line04 (V 0 0) (V 4 0) (PI / 2)
              Hw Hs He Hne)
    as (m' & H1 & H2 & _ & _ & H5).
  exists m'. split; [exact H1|]. split; [exact H2|].
  apply H5. pose proof PI_RGT_0. lra.
Defined.

(** [Line.get_unit_vector]: for a line with distinct ends, a vector of norm
    1 along which the end lies at the line's length from the start; for a
    line whose ends coincide, the null vector, and no division by zero. *)
Theorem Line_get_unit_vector_cases (m : @mob R) (s e : vec R) :
  get_start m = Ok s -> get_end m = Ok e ->
  exists u,
    Line_get_unit_vector m = Ok u
    /\ (s = e -> u = ORIGIN)
    /\ (s <> e ->
        get_norm u = 1
        /\ e = vadd s (vscale (get_norm (vsub e s)) u)).
Proof.
  intros Hs He. unfold Line_get_unit_vector, Line_get_vector.
  rewrite He, Hs. cbn [bind]. eexists. split; [reflexivity|].
  unfold normalize. unsc. split.
  - intros ->. replace (vsub e e) with (ORIGIN : vec R)
      by (apply vec_eq; cbn [vx vy vsub ORIGIN]; unsc; ring).
    rewrite get_norm_ORIGIN. rewrite Rltb_false by lra. reflexivity.
  - intro Hne.
    assert (Hv : vsub e s <> ORIGIN).
    { intro X. apply Hne. symmetry. apply vsub_eq_ORIGIN. exact X. }
    pose proof (get_norm_pos Hv) as Hn. pose proof (get_norm_sqr (vsub e s)) as Q.
    rewrite Rltb_true by exact Hn.
    set (n := get_norm (vsub e s)) in *. split.
    + unfold get_norm at 1. unsc. cbn [vx vy].
      replace (vx (vsub e s) / n * (vx (vsub e s) / n)
               + vy (vsub e s) / n * (vy (vsub e s) / n))
        with ((vx (vsub e s) * vx (vsub e s) + vy (vsub e s) * vy (vsub e s))
              / (n * n)) by (field; lra).
      rewrite <- Q. replace (n * n / (n * n)) with 1 by (field; lra).
      apply sqrt_1.
    + apply vec_eq; cbn [vx vy vadd vsub vscale]; unsc; field; lra.
Qed.

Lemma Line_get_unit_vector_cases_witness :
  Line_get_unit_vector line04 = Ok (V 1 0).
Proof.
  destruct (@straight_facts (Line_attrs (V 0 0) (V 4 0) 0 None) (V 0 0) (V 4 0)
              eq_refl eq_refl eq_refl)
    as (_ & _ & Hbs & Hbe & _ & _ & HT & HS).
  fold line04 in Hbs, Hbe, HT, HS.
  assert (Hs : get_start line04 = Ok (V 0 0))
    by (unfold get_start; rewrite HS; exact Hbs).
  assert (He : get_end line04 = Ok (V 4 0))
    by (unfold get_end; rewrite HT; exact Hbe).
  destruct (@Line_get_unit_vector_cases line04 (V 0 0) (V 4 0) Hs He)
    as (u & H1 & _ & H3).
  rewrite H1. f_equal.
  assert (Hne : V 0 0 <> V 4 0 :> vec R) by (intro X; injection X; lra).
  destruct (H3 Hne) as (_ & E).
  assert (N : get_norm (vsub (V 4 0) (V 0 0) : vec R) = 4).
  { unfold get_norm. unsc. cbn [vx vy vsub]. unsc.
    replace ((4 - 0) * (4 - 0) + (0 - 0) * (0 - 0)) with (4 * 4) by ring.
    apply sqrt_square. lra. }
  rewrite N in E. destruct u as [ux uy].
  injection E as Ex Ey. cbn [vx vy vscale vadd] in *. unsc.
  apply vec_eq; cbn [vx vy]; lra.
Defined.

End LineAngles.

(** ** Polygon, RegularPolygon and Rectangle *)

Section Polygons.
Local Open Scope R_scope.
Local Abbreviation mobR := (@mob R).
Implicit Types m : mobR.

Lemma corners_cons (p q : vec R) (l : list (vec R)) :
  set_points_as_corners (p :: q :: l)
  = p :: interpolate p q (1 / 3) :: interpolate p q (2 / 3) :: q
      :: set_points_as_corners (q :: l).
Proof.
  cbn [set_points_as_corners]. unsc. rewrite interpolate_0, interpolate_1.
  reflexivity.
Qed.

Lemma corners_length (l : list (vec R)) :
  length (set_points_as_corners l) = (4 * (length l - 1))%nat.
Proof.
  induction l as [|p [|q l] IH]; [reflexivity|reflexivity|].
  rewrite corners_cons. cbn [length] in *. rewrite IH. lia.
Qed.

Lemma start_anchors_corners (vs : list (vec R)) (x : vec R) (fuel : nat) :
  (length vs <= fuel)%nat ->
  get_start_anchors_aux fuel (set_points_as_corners (vs ++ [x])) = vs.
Proof.
  revert fuel. induction vs as [|v vs IH]; intros fuel Hf.
  - destruct fuel; reflexivity.
  - destruct fuel as [|k]; [cbn in Hf; lia|].
    cbn [length] in Hf.
    change ((v :: vs) ++ [x]) with (v :: (vs ++ [x])).
    destruct (vs ++ [x]) as [|q l] eqn:E.
    { destruct vs; discriminate. }
    rewrite corners_cons. cbn [get_start_anchors_aux skipn]. f_equal.
    apply IH. lia.
Qed.

Lemma corners_end (l : list (vec R)) (p x : vec R) :
  VMobject_get_end (set_points_as_corners (p :: l ++ [x])) = Ok x.
Proof.
  revert p. induction l as [|q l IH]; intro p.
  - cbn [app]. rewrite corners_two. reflexivity.
  - change (p :: (q :: l) ++ [x]) with (p :: q :: (l ++ [x])).
    rewrite corners_cons. specialize (IH q).
    unfold VMobject_get_end in *.
    destruct (set_points_as_corners (q :: l ++ [x])) as [|a r] eqn:E;
      [discriminate|].
    injection IH as IH. f_equal.
    change (last (interpolate p q (1 / 3) :: interpolate p q (2 / 3) :: q :: a :: r)
                 ORIGIN = x).
    cbn [last]. cbn [last] in IH. exact IH.
Qed.

Lemma Polygon_points_closed (v0 : vec R) (vs : list (vec R)) :
  exists pts,
    Polygon_points (v0 :: vs) = Ok pts
    /\ get_start_anchors pts = v0 :: vs
    /\ length pts = (4 * length (v0 :: vs))%nat
    /\ VMobject_get_start pts = Ok v0
    /\ VMobject_get_end pts = Ok v0.
Proof.
  unfold Polygon_points. eexists. split; [reflexivity|].
  assert (L : length (set_points_as_corners ((v0 :: vs) ++ [v0]))
              = (4 * length (v0 :: vs))%nat).
  { rewrite corners_length, length_app. cbn [length]. lia. }
  split; [|split; [exact L|split]].
  - unfold get_start_anchors.
    apply start_anchors_corners. rewrite L. lia.
  - change ((v0 :: vs) ++ [v0]) with (v0 :: (vs ++ [v0])).
    destruct (vs ++ [v0]) as [|q l] eqn:E; [destruct vs; discriminate|].
    rewrite corners_cons. reflexivity.
  - apply corners_end.
Qed.

(** A Polygon is the closed path through its vertices: [get_vertices] gives
    back the vertex list it was built from, the path has four points per
    vertex, and it starts and ends at the first vertex.  Building one from
    an empty vertex list raises IndexError. *)
Theorem Polygon_get_vertices_round_trip (v0 : vec R) (vs : list (vec R)) :
  Polygon_points ([] : list (vec R)) = Raise IndexError
  /\ exists pts,
       Polygon_points (v0 :: vs) = Ok pts
       /\ Polygon_get_vertices pts = v0 :: vs
       /\ length pts = (4 * length (v0 :: vs))%nat
       /\ VMobject_get_start pts = Ok v0
       /\ VMobject_get_end pts = Ok v0.
Proof.
  split; [reflexivity|]. apply Polygon_points_closed.
Qed.

Lemma sofnat_INR (n : nat) : sofnat n = INR n.
Proof.
  induction n as [|[|k] IH]; [reflexivity|reflexivity|].
  change (sofnat (S (S k))) with (sofnat (S k) + 1).
  rewrite IH. rewrite (S_INR (S k)). reflexivity.
Qed.

Lemma rot_unit (a b : R) : rot b (V (cos a) (sin a)) = V (cos (a + b)) (sin (a + b)).
Proof.
  unfold rot. unsc. cbn [vx vy]. rewrite cos_plus, sin_plus.
  apply vec_eq; cbn [vx vy]; ring.
Qed.

Lemma rotate_RIGHT (a : R) : rotate_vector RIGHT a = V (cos a) (sin a).
Proof.
  unfold rotate_vector, rot, RIGHT. unsc. cbn [vx vy].
  apply vec_eq; cbn [vx vy]; ring.
Qed.

Lemma compass_directions_unit (n : nat) (a : R) :
  compass_directions n (V (cos a) (sin a))
  = map (fun k => V (cos (a + INR k * (2 * PI / INR n)))
                    (sin (a + INR k * (2 * PI / INR n)))) (seq 0 n).
Proof.
  unfold compass_directions. apply map_ext. intro k.
  unfold rotate_vector. rewrite rot_unit, !sofnat_INR. reflexivity.
Qed.

Lemma ninety_degrees : sofnat 90 * DEGREES = PI / 2.
Proof.
  unfold DEGREES, TAU. rewrite !sofnat_INR, !INR_IZR_INZ.
  cbn [Z.of_nat Pos.of_succ_nat Pos.succ]. unsc. field.
Qed.

(** A RegularPolygon(n, start_angle) has its n vertices on the unit circle,
    the k-th at angle [start_angle + k * TAU / n]; without a start angle the
    first vertex is RIGHT for an even n and UP for an odd one.  [n = 0]
    raises ZeroDivisionError. *)
Theorem RegularPolygon_vertices_on_unit_circle (n : nat) (sa : option R) :
  let a0 := match sa with
            | Some a => a
            | None => if Nat.even (S n) then 0 else PI / 2
            end in
  RegularPolygon 0 sa = Raise ZeroDivisionError
  /\ exists pts,
       RegularPolygon (S n) sa = Ok pts
       /\ Polygon_get_vertices pts
          = map (fun k => V (cos (a0 + INR k * (2 * PI / INR (S n))))
                            (sin (a0 + INR k * (2 * PI / INR (S n)))))
                (seq 0 (S n))
       /\ Forall (fun v => get_norm v = 1) (Polygon_get_vertices pts)
       /\ VMobject_get_start pts = Ok (V (cos a0) (sin a0))
       /\ VMobject_get_end pts = Ok (V (cos a0) (sin a0)).
Proof.
  intro a0. split; [reflexivity|].
  unfold RegularPolygon, RegularPolygon_vertices.
  assert (A : match sa with
              | Some a => a
              | None => if Nat.even (S n) then s0 else smul (sofnat 90) DEGREES
              end = a0).
  { unfold a0. destruct sa; [reflexivity|].
    destruct (Nat.even (S n)); [reflexivity|apply ninety_degrees]. }
  cbv zeta. rewrite A, rotate_RIGHT, compass_directions_unit. cbn [bind].
  set (f := fun k => V (cos (a0 + INR k * (2 * PI / INR (S n))))
                       (sin (a0 + INR k * (2 * PI / INR (S n))))).
  assert (E : map f (seq 0 (S n)) = V (cos a0) (sin a0) :: map f (seq 1 n)).
  { cbn [seq map]. f_equal. unfold f. cbn [INR].
    rewrite Rmult_0_l, Rplus_0_r. reflexivity. }
  destruct (Polygon_points_closed (V (cos a0) (sin a0)) (map f (seq 1 n)))
    as (pts & H1 & H2 & _ & H4 & H5).
  fold (Polygon_get_vertices pts) in H2.
  rewrite <- E in H1, H2.
  exists pts. split; [exact H1|]. split; [exact H2|].
  split; [|split; assumption].
  rewrite H2. apply Forall_forall. intros v Hin.
  apply in_map_iff in Hin. destruct Hin as (k & <- & _).
  unfold f, get_norm. unsc. cbn [vx vy].
  set (x := a0 + _). pose proof (sin2_cos2 x) as T. unfold Rsqr in T.
  rewrite Rplus_comm, T. apply sqrt_1.
Qed.

Lemma Rectangle_corner_path :
  Polygon_points [UL; UR; DR; DL] = Ok unit_square_points.
Proof.
  unfold Polygon_points, unit_square_points, UL, UR, DR, DL, UP, DOWN, LEFT, RIGHT.
  cbn [app]. unfold vadd. cbn [vx vy]. unsc. f_equal. f_equal.
  repeat (f_equal; try (apply vec_eq; cbn [vx vy]; ring)).
Qed.

Lemma Rectangle_width_step (w : R) :
  rescale_to_fit_stretch unit_square_points w 0
  = map (fun p => V (w / 2 * vx p) (vy p)) unit_square_points.
Proof.
  unfold rescale_to_fit_stretch, length_over_dim, bbox_center, stretch_points.
  unfold unit_square_points.
  cbn [app set_points_as_corners map get_anchors get_anchors_aux length
       interpolate vadd vsub vscale vx vy]. unsc.
  rewrite (@np_max_eq _ 0 1) by (in_list || all_le).
  rewrite (@np_min_eq _ 0 (-1)) by (in_list || all_le).
  rewrite Reqb_false by lra.
  rewrite (@np_max_eq _ 0 1) by (in_list || all_le).
  rewrite (@np_min_eq _ 0 (-1)) by (in_list || all_le).
  rewrite (@np_max_eq _ 0 1) by (in_list || all_le).
  rewrite (@np_min_eq _ 0 (-1)) by (in_list || all_le).
  repeat (first [apply vec_eq; cbn [vx vy vadd]; unsc; field | f_equal]).
Qed.

Lemma Rectangle_height_step (w h : R) :
  rescale_to_fit_stretch
    (map (fun p => V (w / 2 * vx p) (vy p)) unit_square_points) h 1
  = map (fun p => V (w / 2 * vx p) (h / 2 * vy p)) unit_square_points.
Proof.
  unfold rescale_to_fit_stretch, length_over_dim, bbox_center, stretch_points.
  unfold unit_square_points.
  cbn [app set_points_as_corners map get_anchors get_anchors_aux length
       interpolate vadd vsub vscale vx vy]. unsc.
  rewrite (@np_max_eq _ 0 1) by (in_list || all_le).
  rewrite (@np_min_eq _ 0 (-1)) by (in_list || all_le).
  rewrite Reqb_false by lra.
  destruct (Rle_dec 0 w) as [Hw|Hw].
  - rewrite (@np_min_eq _ 0 (- (w / 2))) by (in_list || all_le).
    rewrite (@np_max_eq _ 0 (w / 2)) by (in_list || all_le).
    rewrite (@np_max_eq _ 0 1) by (in_list || all_le).
    rewrite (@np_min_eq _ 0 (-1)) by (in_list || all_le).
    repeat (first [apply vec_eq; cbn [vx vy vadd]; unsc; field | f_equal]).
  - rewrite (@np_min_eq _ 0 (w / 2)) by (in_list || all_le).
    rewrite (@np_max_eq _ 0 (- (w / 2))) by (in_list || all_le).
    rewrite (@np_max_eq _ 0 1) by (in_list || all_le).
    rewrite (@np_min_eq _ 0 (-1)) by (in_list || all_le).
    repeat (first [apply vec_eq; cbn [vx vy vadd]; unsc; field | f_equal]).
Qed.

(** A Rectangle(width, height) is the closed path through the corners
    (-width/2, height/2), (width/2, height/2), (width/2, -height/2) and
    (-width/2, -height/2), in this order, starting and ending at the first;
    this holds for every width and height, zero and negative ones too. *)
Theorem Rectangle_corners (w h : R) :
  exists pts,
    Rectangle w h = Ok pts
    /\ Polygon_get_vertices pts
       = [V (- (w / 2)) (h / 2); V (w / 2) (h / 2);
          V (w / 2) (- (h / 2)); V (- (w / 2)) (- (h / 2))]
    /\ VMobject_get_start pts = Ok (V (- (w / 2)) (h / 2))
    /\ VMobject_get_end pts = Ok (V (- (w / 2)) (h / 2))
    /\ length_over_dim pts 0 = Rabs w
    /\ length_over_dim pts 1 = Rabs h.
Proof.
  unfold Rectangle. rewrite Rectangle_corner_path. cbn [bind].
  rewrite Rectangle_width_step, Rectangle_height_step.
  eexists. split; [reflexivity|].
  unfold unit_square_points, Polygon_get_vertices, get_start_anchors.
  cbn [set_points_as_corners map length get_start_anchors_aux skipn
       VMobject_get_start VMobject_get_end last interpolate vadd vscale vx vy].
  unsc.
  split; [repeat (first [apply vec_eq; cbn [vx vy]; field | f_equal])|].
  split; [repeat (first [apply vec_eq; cbn [vx vy]; field | f_equal])|].
  split; [repeat (first [apply vec_eq; cbn [vx vy]; field | f_equal])|].
  unfold length_over_dim. cbn [map vx vy]. split.
  - unfold Rabs. destruct (Rcase_abs w) as [Hw|Hw].
    + rewrite (@np_max_eq _ 0 (- (w / 2))) by (in_list || all_le).
      rewrite (@np_min_eq _ 0 (w / 2)) by (in_list || all_le). unsc. field.
    + rewrite (@np_max_eq _ 0 (w / 2)) by (in_list || all_le).
      rewrite (@np_min_eq _ 0 (- (w / 2))) by (in_list || all_le). unsc. field.
  - unfold Rabs. destruct (Rcase_abs h) as [Hh|Hh].
    + rewrite (@np_max_eq _ 0 (- (h / 2))) by (in_list || all_le).
      rewrite (@np_min_eq _ 0 (h / 2)) by (in_list || all_le). unsc. field.
    + rewrite (@np_max_eq _ 0 (h / 2)) by (in_list || all_le).
      rewrite (@np_min_eq _ 0 (- (h / 2))) by (in_list || all_le). unsc. field.
Qed.

End Polygons.

(** ** The anchors of an Arc *)

Section ArcAnchors.
Local Open Scope R_scope.
Local Abbreviation mobR := (@mob R).
Implicit Types m : mobR.

Lemma Forall_removelast (A : Type) (P : A -> Prop) (l : list A) :
  Forall P l -> Forall P (removelast l).
Proof.
  induction 1 as [|x l Hx Hl IH]; [constructor|].
  cbn [removelast]. destruct l; [constructor|]. constructor; assumption.
Qed.

Lemma Forall_tl (A : Type) (P : A -> Prop) (l : list A) :
  Forall P l -> Forall P (tl l).
Proof. destruct 1; [constructor|assumption]. Qed.

Lemma length_removelast (A : Type) (l : list A) :
  length (removelast l) = (length l - 1)%nat.
Proof.
  induction l as [|x l IH]; [reflexivity|].
  cbn [removelast]. destruct l; [reflexivity|].
  cbn [length] in *. rewrite IH. lia.
Qed.

Lemma length_tl (A : Type) (l : list A) : length (tl l) = (length l - 1)%nat.
Proof. destruct l; cbn; lia. Qed.

Lemma length_linspace (a b : R) (n : nat) : length (linspace a b n) = n.
Proof.
  destruct n as [|[|k]]; [reflexivity|reflexivity|].
  unfold linspace. rewrite length_app, length_map, length_seq. cbn [length]. lia.
Qed.

Lemma anchors_and_handles_length (a1 h1 h2 a2 : list (vec R)) (k : nat) :
  length a1 = k -> length h1 = k -> length h2 = k -> length a2 = k ->
  length (set_anchors_and_handles a1 h1 h2 a2) = (4 * k)%nat.
Proof.
  revert a1 h1 h2 a2. induction k as [|k IH]; intros a1 h1 h2 a2 H1 H2 H3 H4.
  - destruct a1; [reflexivity|discriminate].
  - destruct a1, h1, h2, a2; try discriminate.
    cbn [set_anchors_and_handles length] in *.
    rewrite (IH a1 h1 h2 a2) by lia. lia.
Qed.

Lemma anchors_of_interleaved (P : vec R -> Prop) (fuel : nat)
    (a1 h1 h2 a2 : list (vec R)) :
  Forall P a1 -> Forall P a2 ->
  Forall P (get_anchors_aux fuel (set_anchors_and_handles a1 h1 h2 a2)).
Proof.
  revert a1 h1 h2 a2. induction fuel as [|k IH]; intros a1 h1 h2 a2 F1 F2;
    [constructor|].
  destruct a1 as [|a a1]; [constructor|].
  destruct h1 as [|h h1]; [constructor|].
  destruct h2 as [|g h2]; [constructor|].
  destruct a2 as [|b a2]; [constructor|].
  cbn [set_anchors_and_handles get_anchors_aux].
  inversion F1; subst. inversion F2; subst.
  constructor; [assumption|]. constructor; [assumption|]. apply IH; assumption.
Qed.

Lemma get_anchors_interleaved (P : vec R -> Prop) (a1 h1 h2 a2 : list (vec R)) :
  Forall P a1 -> Forall P a2 ->
  Forall P (get_anchors (set_anchors_and_handles a1 h1 h2 a2)).
Proof.
  intros F1 F2. unfold get_anchors.
  pose proof (@anchors_of_interleaved P
                (length (set_anchors_and_handles a1 h1 h2 a2)) a1 h1 h2 a2 F1 F2)
    as H.
  destruct a1 as [|a a1]; [constructor|].
  destruct h1 as [|h h1]; [constructor|].
  destruct h2 as [|g h2]; [constructor|].
  destruct a2 as [|b a2]; [constructor|].
  exact H.
Qed.

Lemma get_anchors_aux_map (g : vec R -> vec R) (fuel : nat) (pts : list (vec R)) :
  get_anchors_aux fuel (map g pts) = map g (get_anchors_aux fuel pts).
Proof.
  revert pts. induction fuel as [|k IH]; intro pts; [reflexivity|].
  destruct pts as [|a [|h [|j [|b rest]]]]; try reflexivity.
  cbn [map get_anchors_aux]. rewrite IH. reflexivity.
Qed.

Lemma get_anchors_map (g : vec R -> vec R) (pts : list (vec R)) :
  get_anchors (map g pts) = map g (get_anchors pts).
Proof.
  unfold get_anchors. rewrite length_map.
  destruct pts as [|a [|h rest]]; [reflexivity|reflexivity|].
  apply (get_anchors_aux_map g (length (a :: h :: rest)) (a :: h :: rest)).
Qed.

Lemma pre_positioned_anchors (sa th : R) (nc : nat) :
  (2 <= nc)%nat ->
  exists pts,
    set_pre_positioned_points sa th nc = Ok pts
    /\ length pts = (4 * (nc - 1))%nat
    /\ Forall (fun p => get_norm p = 1) (get_anchors pts).
Proof.
  intro Hn2. assert (Hn : nc <> 1%nat) by lia.
  unfold set_pre_positioned_points.
  assert (D : py_div th (sofnat nc - s1)%sc = Ok (th / (sofnat nc - s1))%sc).
  { unfold py_div. unsc. rewrite Reqb_false; [reflexivity|].
    rewrite sofnat_INR. intro X.
    assert (Y : INR nc = INR 1) by (cbn [INR]; lra).
    apply INR_eq in Y. contradiction. }
  rewrite D. cbn [bind].
  set (anchors := map _ (linspace sa (sa + th)%sc nc)).
  assert (LA : length anchors = nc)
    by (unfold anchors; rewrite length_map; apply length_linspace).
  assert (NE : match anchors with
               | [] => Raise IndexError
               | _ :: _ => Ok tt
               end = Ok tt :> result unit).
  { destruct anchors; [|reflexivity]. cbn [length] in LA. lia. }
  rewrite NE. cbn [bind]. eexists. split; [reflexivity|].
  assert (FA : Forall (fun p : vec R => get_norm p = 1) anchors).
  { unfold anchors. apply Forall_forall. intros p Hin.
    apply in_map_iff in Hin. destruct Hin as (a & <- & _).
    unfold get_norm, vadd, vscale, RIGHT, UP. unsc. cbn [vx vy].
    replace ((cos a * 1 + sin a * 0) * (cos a * 1 + sin a * 0)
             + (cos a * 0 + sin a * 1) * (cos a * 0 + sin a * 1))
      with ((sin a)² + (cos a)²) by (unfold Rsqr; ring).
    rewrite sin2_cos2. apply sqrt_1. }
  split.
  - apply anchors_and_handles_length.
    + rewrite length_removelast, LA. reflexivity.
    + rewrite length_map, length_combine, !length_removelast, length_map, LA. lia.
    + rewrite length_map, length_combine, !length_tl, length_map, LA. lia.
    + rewrite length_tl, LA. reflexivity.
  - apply get_anchors_interleaved.
    + apply Forall_removelast, FA.
    + apply Forall_tl, FA.
Qed.

(** Every anchor of an Arc(radius=r, arc_center=c, ...) of two or more
    components lies at distance |r| from c, whatever the start angle and the
    angle, and the arc has four points per component but the last.  With one
    component the construction raises ZeroDivisionError. *)
Theorem Arc_anchors_on_circle (r : R) (c : vec R) (sa th : R) (nc : nat) :
  Arc (Some r) 1 c sa th = Raise ZeroDivisionError
  /\ ((2 <= nc)%nat ->
      exists m,
        Arc (Some r) nc c sa th = Ok m
        /\ length (points m) = (4 * (nc - 1))%nat
        /\ Forall (fun p => get_norm (vsub p c) = Rabs r) (get_anchors (points m))).
Proof.
  split.
  - unfold Arc, Arc_generate_points, set_pre_positioned_points, py_div.
    cbn [num_components sofnat]. unsc.
    rewrite Reqb_true by ring. reflexivity.
  - intro Hn. unfold Arc.
    match goal with |- context [Arc_generate_points ?x] => set (m0 := x) end.
    unfold Arc_generate_points.
    change (start_angle m0) with sa. change (angle m0) with th.
    change (num_components m0) with nc.
    destruct (@pre_positioned_anchors sa th nc Hn) as (pts & Hp & Hl & Hf).
    rewrite Hp. cbn [bind]. cbv zeta.
    change (radius (with_points m0 pts)) with (Some (Finite r)). cbv iota beta.
    eexists. split; [reflexivity|].
    assert (P : points (Mobject_shift (Mobject_scale (with_points m0 pts) r (Some ORIGIN)) c)
                = map (fun p => vadd p c)
                    (map (fun p => vadd (vscale r (vsub p ORIGIN)) ORIGIN) pts))
      by reflexivity.
    change (arc_center (Mobject_scale (with_points m0 pts) r (Some ORIGIN))) with c.
    rewrite P. split; [rewrite !length_map; exact Hl|].
    rewrite !get_anchors_map. rewrite Forall_forall in *.
    intros p Hin. apply in_map_iff in Hin. destruct Hin as (q & <- & Hin).
    apply in_map_iff in Hin. destruct Hin as (u & <- & Hin).
    specialize (Hf u Hin).
    transitivity (Rabs r * get_norm u); [|rewrite Hf; ring].
    rewrite <- get_norm_vscale_abs. f_equal.
    apply vec_eq; cbn [vx vy vadd vsub vscale ORIGIN]; unsc; ring.
Qed.

End ArcAnchors.

(** ** Tips on curves of length zero *)

Section ZeroLengthTips.
Local Open Scope R_scope.
Local Abbreviation mobR := (@mob R).
Implicit Types m : mobR.

(** [add_tip] on a curve whose start and end coincide: the end points are not
    reset (there is no direction to shorten the curve along), so the curve
    keeps its points and its start and end, and the new tip is attached with
    its tip point on that point. *)
Theorem add_tip_zero_length_keeps_points n (m : @mob R) tl (at_start : bool)
    (p handle : vec R) (L : R) :
  wf m -> get_start_and_end m = Ok (p, p) ->
  handle_of m at_start = Ok handle -> resolve_tip_length m tl = Ok L ->
  exists m' tp,
    add_tip (S n) m tl at_start = Ok m'
    /\ create_tip m tl at_start = Ok tp
    /\ points m' = points m
    /\ get_start_and_end m' = Ok (p, p)
    /\ ArrowTip_get_tip_point tp = Ok p
    /\ (if at_start then has_start_tip m' else has_tip m') = true
    /\ (if at_start then tip m' = tip m else start_tip m' = start_tip m).
Proof.
  intros Hw Hse Hh HL.
  destruct (get_start_and_end_inv _ Hse) as [Hs He].
  assert (Ha : anchor_of m at_start = Ok p)
    by (unfold anchor_of; destruct at_start; assumption).
  destruct (create_tip_spec m tl at_start Ha Hh HL) as (tp & Hc & _ & Htp & _).
  assert (Hlen : get_length m = Ok 0).
  { unfold get_length. rewrite Hse. cbn [bind fst snd]. f_equal.
    replace (vsub p p) with (ORIGIN : vec R)
      by (apply vec_eq; cbn [vx vy vsub ORIGIN]; unsc; ring).
    apply get_norm_ORIGIN. }
  exists (attach m tp at_start), tp.
  split.
  { rewrite add_tip_S, Hc. cbn [bind]. rewrite Hlen. cbn [bind]. unsc.
    rewrite Reqb_true by reflexivity. reflexivity. }
  split; [exact Hc|].
  assert (Htp' : ArrowTip_get_tip_point tp = Ok p).
  { destruct tp; [discriminate|]. exact Htp. }
  destruct at_start.
  - destruct (attach_start tp Hw) as (_ & T & HS & Gs & Ge & P & _).
    split; [exact P|]. split; [|split; [exact Htp'|split; [exact HS|exact T]]].
    apply get_start_and_end_intro; [rewrite Gs; exact Htp | rewrite Ge; exact He].
  - destruct (attach_end tp Hw) as (_ & T & HT & Ge & Gs & P & _).
    split; [exact P|]. split; [|split; [exact Htp'|split; [exact HT|exact T]]].
    apply get_start_and_end_intro; [rewrite Gs; exact Hs | rewrite Ge; exact Htp].
Qed.

Lemma add_tip_zero_length_keeps_points_witness :
  exists m',
    add_tip 1 (straight (Line_attrs (V 0 0) (V 0 0) 0 None) (V 0 0) (V 0 0))
      (Some 1) false = Ok m'
    /\ get_start_and_end m' = Ok (V 0 0, V 0 0)
    /\ has_tip m' = true.
Proof.
  destruct (@straight_facts (Line_attrs (V 0 0) (V 0 0) 0 None) (V 0 0) (V 0 0)
              eq_refl eq_refl eq_refl)
    as (Hw & Hse & _ & _ & Hlh & _).
  destruct (@add_tip_zero_length_keeps_points 0 _ (Some 1) false (V 0 0) _ 1
              Hw Hse Hlh eq_refl)
    as (m' & tp & H1 & _ & _ & H4 & _ & H6 & _).
  exists m'. split; [exact H1|]. split; [exact H4|exact H6].
Defined.

End ZeroLengthTips.

(** ** The stroke width of an Arrow *)

Section StrokeWidth.
Local Open Scope R_scope.
Local Abbreviation mobR := (@mob R).
Implicit Types m : mobR.

Lemma Arrow_first_stroke n (m : @mob R) (a b : vec R) :
  cls m = KArrow -> submobjects m = [] -> tip m = None -> start_tip m = None ->
  a <> b ->
  exists M,
    (m1 <- add_tip (S (S (S n))) (straight m a b) None false ;;
     set_stroke_width_from_length m1) = Ok M
    /\ stroke_width M
       = Rmin (initial_stroke_width m)
           (max_stroke_width_to_length_ratio m * get_norm (vsub a b))
    /\ initial_stroke_width M = initial_stroke_width m.
Proof.
  intros Hc Hsub Ht Hst Hne.
  destruct (@straight_facts m a b Hsub Ht Hst)
    as (Hw & Hse & Hbs & Hbe & Hlh & _ & HT & HS).
  set (l := straight m a b) in *.
  set (L := Rmin (tip_length m)
              (max_tip_length_to_length_ratio m * get_norm (vsub a b))).
  assert (HL : resolve_tip_length l None = Ok L).
  { cbn [resolve_tip_length].
    rewrite (@get_default_tip_length_Arrow l (get_norm (vsub a b)));
      [reflexivity|exact Hc|].
    unfold get_length. rewrite Hse. reflexivity. }
  destruct (@add_tip_spec n l None false a b _ L Hw (or_intror (conj HT HS))
              Hse Hne Hlh HL)
    as (tp & m' & _ & _ & _ & _ & _ & _ & Hadd & K & C & _ & Hse1).
  rewrite Hadd. cbn [bind].
  unfold set_stroke_width_from_length, get_length. rewrite Hse1. cbn [bind fst snd].
  eexists. split; [reflexivity|].
  destruct C as (_ & _ & _ & _ & _ & _ & _ & _ & _ & c10 & _ & c12).
  split.
  - change (py_min (initial_stroke_width m')
              (max_stroke_width_to_length_ratio m' * get_norm (vsub a b))
            = Rmin (initial_stroke_width m)
                (max_stroke_width_to_length_ratio m * get_norm (vsub a b))).
    rewrite c10, c12. apply py_min_Rmin.
  - change (initial_stroke_width m' = initial_stroke_width m). rewrite c10.
    reflexivity.
Qed.

(** The stroke width of a straight Arrow after construction is the smaller
    of the stroke width it was given and [max_stroke_width_to_length_ratio]
    times its length, the distance of the two end points less the buffer at
    either end; the stroke width given is kept as [initial_stroke_width]. *)
Theorem Arrow_stroke_width_from_length n (a b : vec R) (bf : R) (pa : option R)
    (tl sw ratio sr : R) :
  pa = None \/ pa = Some 0 ->
  0 <= bf -> 2 * bf < get_norm (vsub a b) ->
  exists M,
    Arrow (S (S (S n))) a b bf pa tl sw ratio sr = Ok M
    /\ stroke_width M = Rmin sw (sr * (get_norm (vsub a b) - 2 * bf))
    /\ initial_stroke_width M = sw.
Proof.
  intros Hpa Hbf Hlen. unfold Arrow. cbv zeta.
  set (m := Arrow_attrs a b bf pa tl sw ratio sr).
  set (d := get_norm (vsub a b)) in *.
  set (p := bf / d).
  assert (Hd : 0 < d) by lra.
  assert (Hp : 0 <= p /\ 2 * p < 1).
  { unfold p. split.
    - apply Rmult_le_pos; [exact Hbf|]. left. apply Rinv_0_lt_compat. exact Hd.
    - apply (Rmult_lt_reg_r d); [exact Hd|].
      unfold Rdiv. replace (2 * (bf * / d) * d) with (2 * bf * (/ d * d)) by ring.
      rewrite Rinv_l by lra. lra. }
  assert (Hg : Line_generate_points m
               = Ok (straight m (interpolate a b p) (interpolate a b (1 - p)))).
  { destruct (Req_dec_T bf 0) as [Hz | Hnz].
    - rewrite (@Line_generate_points_unbuffered m Hpa Hz).
      assert (P0 : p = 0) by (unfold p; rewrite Hz; unfold Rdiv; ring).
      rewrite P0. replace (1 - 0) with 1 by ring.
      rewrite interpolate_0, interpolate_1. reflexivity.
    - apply (@Line_generate_points_trimmed m); try reflexivity; try assumption.
      + change (0 < bf). lra.
      + change (2 * bf <= d). lra. }
  rewrite Hg. cbn [bind].
  assert (Hn : get_norm (vsub (interpolate a b p) (interpolate a b (1 - p)))
               = d - 2 * bf).
  { rewrite get_norm_sym, norm_interpolate_diff by lra.
    rewrite (get_norm_sym b a). fold d. unfold p. field. lra. }
  assert (Hne : interpolate a b p <> interpolate a b (1 - p)).
  { intro X. rewrite X in Hn.
    replace (vsub (interpolate a b (1 - p)) (interpolate a b (1 - p)))
      with (ORIGIN : vec R) in Hn by (symmetry; apply vsub_eq_ORIGIN; reflexivity).
    rewrite get_norm_ORIGIN in Hn. lra. }
  destruct (@Arrow_first_stroke n m (interpolate a b p) (interpolate a b (1 - p))
              eq_refl eq_refl eq_refl eq_refl Hne)
    as (M & HM & H1 & H2).
  exists M. rewrite Hn in H1. split; [exact HM|]. split; assumption.
Qed.

Lemma Arrow_stroke_width_from_length_witness :
  exists M,
    Arrow 3 (V 0 0) (V 1 0) 0 None (35 / 100) 6 (1 / 4) 5 = Ok M
    /\ stroke_width M = 5.
Proof.
  assert (N : get_norm (vsub (V 0 0) (V 1 0) : vec R) = 1).
  { unfold get_norm. unsc. cbn [vx vy vsub]. unsc.
    replace ((0 - 1) * (0 - 1) + (0 - 0) * (0 - 0)) with 1 by ring.
    apply sqrt_1. }
  destruct (@Arrow_stroke_width_from_length 0 (V 0 0) (V 1 0) 0 None
              (35 / 100) 6 (1 / 4) 5)
    as (M & H1 & H2 & _).
  - left. reflexivity.
  - lra.
  - rewrite N. lra.
  - exists M. split; [exact H1|]. rewrite H2, N.
    replace (5 * (1 - 2 * 0)) with 5 by ring. apply Rmin_right. lra.
Defined.

End StrokeWidth.

(** ** account_for_buff as a trimming of the path *)

Section Trimming.
Local Open Scope R_scope.
Local Abbreviation mobR := (@mob R).
Implicit Types m : mobR.

Lemma int_below_spec (k : nat) (x : R) :
  0 <= x < INR k ->
  (int_below k x < k)%nat
  /\ INR (int_below k x) <= x < INR (int_below k x) + 1.
Proof.
  induction k as [|j IH]; intros [H0 H1].
  - cbn [INR] in H1. lra.
  - cbn [int_below]. rewrite sofnat_INR. unsc.
    rewrite S_INR in H1.
    destruct (Rle_dec (INR j) x) as [Hle | Hgt].
    + rewrite Rleb_true by exact Hle. split; [lia | lra].
    + rewrite Rleb_false by exact Hgt.
      destruct IH as [I1 I2]; [lra|]. split; [lia | exact I2].
Qed.

Lemma integer_interpolate_inside (k : nat) (a : R) :
  (1 <= k)%nat -> 0 < a < 1 ->
  exists i r,
    integer_interpolate k a = (i, r)
    /\ (i < k)%nat /\ 0 <= r < 1 /\ r = INR k * a - INR i.
Proof.
  intros Hk Ha. unfold integer_interpolate. unsc.
  rewrite (@Rleb_false 1 a) by lra. rewrite (@Rleb_false a 0) by lra.
  rewrite !sofnat_INR.
  assert (Hk' : 1 <= INR k) by (change 1 with (INR 1); apply le_INR; exact Hk).
  assert (Hx : 0 <= INR k * a < INR k).
  { split; [apply Rmult_le_pos; lra|].
    apply Rle_lt_trans with (INR k * a + 0); [lra|].
    assert (0 < INR k * (1 - a)) by (apply Rmult_lt_0_compat; lra). lra. }
  destruct (@int_below_spec k (INR k * a) Hx) as [I1 I2].
  eexists. eexists. split; [reflexivity|]. split; [exact I1|].
  rewrite (sofnat_INR (int_below k (INR k * a))). split; [lra | reflexivity].
Qed.

Lemma cubic_tuples_nth (fuel i : nat) (pts : list (vec R)) :
  (i < fuel)%nat ->
  nth i (cubic_tuples_aux fuel pts) [] = firstn 4 (skipn (4 * i) pts).
Proof.
  revert i pts. induction fuel as [|f IH]; intros i pts Hi; [lia|].
  cbn [cubic_tuples_aux]. destruct i as [|i].
  - reflexivity.
  - cbn [nth]. rewrite IH by lia.
    rewrite skipn_skipn. f_equal. f_equal. lia.
Qed.

Lemma cubic_tuples_length (fuel : nat) (pts : list (vec R)) :
  length (cubic_tuples_aux fuel pts) = fuel.
Proof.
  revert pts. induction fuel as [|f IH]; intro pts; [reflexivity|].
  cbn [cubic_tuples_aux length]. rewrite IH. reflexivity.
Qed.

Lemma nth_curve_four (pts : list (vec R)) (k i : nat) :
  length pts = (4 * k)%nat -> (i < k)%nat ->
  exists q0 q1 q2 q3, get_nth_curve_points pts i = [q0; q1; q2; q3].
Proof.
  intros Hl Hi. unfold get_nth_curve_points.
  assert (L : (4 <= length (skipn (4 * i) pts))%nat) by (rewrite length_skipn; lia).
  destruct (skipn (4 * i) pts) as [|q0 [|q1 [|q2 [|q3 rest]]]];
    cbn [length] in L; try lia.
  exists q0, q1, q2, q3. reflexivity.
Qed.

Lemma partial_quad (q0 q1 q2 q3 : vec R) (x y : R) :
  x <> 1 ->
  exists p1 p2,
    partial_bezier_points [q0; q1; q2; q3] x y
    = [bezier [q0; q1; q2; q3] x; p1; p2; bezier [q0; q1; q2; q3] y].
Proof.
  intro Hx. unfold partial_bezier_points.
  assert (E : seqb x s1 = false) by (apply Reqb_false; exact Hx).
  rewrite E. cbv zeta.
  cbn [tails map prefixes length seq firstn].
  assert (Hd : 1 - x <> 0) by lra.
  match goal with
  | |- exists p1 p2, [?t0; ?t1; ?t2; ?t3] = _ =>
      exists t1, t2;
      assert (E0 : t0 = bezier [q0; q1; q2; q3] x);
      [|assert (E3 : t3 = bezier [q0; q1; q2; q3] y);
        [|rewrite E0, E3; reflexivity]]
  end.
  - unfold bezier, vsum.
    cbn [length Nat.sub bernstein_terms fold_left choose Nat.add spow sofnat].
    veq; ring.
  - unfold bezier, vsum.
    cbn [length Nat.sub bernstein_terms fold_left choose Nat.add spow sofnat].
    veq; field; exact Hd.
Qed.

Lemma partial_ends (pts : list (vec R)) (k : nat) (a b : R) :
  length pts = (4 * k)%nat -> (1 <= k)%nat -> 0 < a < 1 -> 0 < b < 1 ->
  VMobject_get_start (pointwise_become_partial pts a b)
  = Ok (point_from_proportion pts a)
  /\ VMobject_get_end (pointwise_become_partial pts a b)
     = Ok (point_from_proportion pts b).
Proof.
  intros Hl Hk Ha Hb.
  assert (Hn : get_num_curves pts = k).
  { unfold get_num_curves. rewrite Hl, Nat.mul_comm. apply Nat.div_mul. lia. }
  unfold pointwise_become_partial, point_from_proportion.
  unsc. rewrite (@Rleb_false a 0) by lra. cbn [andb].
  unfold get_cubic_bezier_tuples. rewrite cubic_tuples_length, Hn.
  destruct (integer_interpolate_inside Hk Ha) as (li & lr & El & Hli & Hlr & _).
  destruct (integer_interpolate_inside Hk Hb) as (ui & ur & Eu & Hui & Hur & _).
  rewrite El, Eu.
  assert (Ek : Nat.eqb k 0 = false) by (apply Nat.eqb_neq; lia).
  rewrite Ek. rewrite !cubic_tuples_nth by assumption.
  fold (get_nth_curve_points pts li). fold (get_nth_curve_points pts ui).
  destruct (nth_curve_four pts Hl Hli) as (l0 & l1 & l2 & l3 & Ql).
  destruct (nth_curve_four pts Hl Hui) as (u0 & u1 & u2 & u3 & Qu).
  rewrite Ql, Qu.
  destruct (Nat.eqb li ui) eqn:Eq.
  - apply Nat.eqb_eq in Eq. subst ui. rewrite Ql in Qu.
    injection Qu as <- <- <- <-.
    destruct (@partial_quad l0 l1 l2 l3 lr ur) as (p1 & p2 & P); [lra|].
    rewrite P. split; reflexivity.
  - destruct (@partial_quad l0 l1 l2 l3 lr 1) as (p1 & p2 & P); [lra|].
    destruct (@partial_quad u0 u1 u2 u3 0 ur) as (r1 & r2 & P'); [lra|].
    unsc. rewrite P, P'. split; [reflexivity|].
    unfold VMobject_get_end. cbn [app]. f_equal.
    match goal with
    | |- last (?a :: ?b :: ?c :: ?d :: ?l ++ [?w; ?x; ?y; ?z]) _ = _ =>
        change (last ((a :: b :: c :: d :: l) ++ [w; x; y; z]) ORIGIN = z);
        change [w; x; y; z] with ([w; x; y] ++ [z])
    end.
    rewrite app_assoc. apply last_last.
Qed.

Lemma fold_sum_nonneg (l : list R) (x : R) :
  0 <= x -> Forall (fun y => 0 <= y) l -> 0 <= fold_left Rplus l x.
Proof.
  revert x. induction l as [|y l IH]; intros x Hx Hl; [exact Hx|].
  inversion Hl; subst. cbn [fold_left]. apply IH; [lra | assumption].
Qed.

Lemma get_norm_nonneg (v : vec R) : 0 <= get_norm v.
Proof. unfold get_norm. unsc. apply sqrt_pos. Qed.

Lemma get_arc_length_nonneg (pts : list (vec R)) : 0 <= get_arc_length pts.
Proof.
  unfold get_arc_length. cbv zeta.
  apply (@fold_sum_nonneg _ 0); [lra|].
  apply Forall_forall. intros y Hy. apply in_map_iff in Hy.
  destruct Hy as (v & <- & _). apply get_norm_nonneg.
Qed.

Lemma measured_length_nonneg (m : @mob R) (len : R) :
  measured_length m = Ok len -> 0 <= len.
Proof.
  unfold measured_length, get_length. intro H.
  destruct (is_zero (path_arc m)).
  - apply bind_ok in H. destruct H as (se & _ & H). injection H as <-.
    apply sqrt_pos.
  - injection H as <-. apply get_arc_length_nonneg.
Qed.

Lemma with_points_same (m : @mob R) : with_points m (points m) = m.
Proof. destruct m. reflexivity. Qed.

Lemma account_for_buff_negative (m : @mob R) (len : R) :
  measured_length m = Ok len -> buff m < 0 -> account_for_buff m = Ok m.
Proof.
  intros Hm Hb. pose proof (measured_length_nonneg m Hm) as Hlen.
  destruct (@account_for_buff_spec m len Hm) as [_ H].
  rewrite H by lra.
  unfold pointwise_become_partial. unsc.
  assert (Hp : buff m / len <= 0).
  { destruct (Req_dec_T len 0) as [-> | Hnz].
    - unfold Rdiv. rewrite Rinv_0. lra.
    - unfold Rdiv. assert (0 < / len) by (apply Rinv_0_lt_compat; lra). nra. }
  rewrite Rleb_true by exact Hp. rewrite Rleb_true by lra.
  cbn [andb]. rewrite with_points_same. reflexivity.
Qed.

Lemma account_for_buff_trims (m : @mob R) (len : R) (k : nat) :
  measured_length m = Ok len ->
  length (points m) = (4 * k)%nat -> (1 <= k)%nat ->
  0 < buff m -> 2 * buff m <= len ->
  exists m',
    account_for_buff m = Ok m'
    /\ points m'
       = pointwise_become_partial (points m) (buff m / len) (1 - buff m / len)
    /\ VMobject_get_start (points m')
       = Ok (point_from_proportion (points m) (buff m / len))
    /\ VMobject_get_end (points m')
       = Ok (point_from_proportion (points m) (1 - buff m / len)).
Proof.
  intros Hm Hl Hk Hb Hlen.
  destruct (@account_for_buff_spec m len Hm) as [_ H].
  rewrite H by lra. eexists. split; [reflexivity|].
  cbn [points with_points]. split; [reflexivity|].
  assert (Hp : 0 < buff m / len <= 1 / 2).
  { split; [apply Rdiv_lt_0_compat; lra|].
    apply (Rmult_le_reg_r len); [lra|].
    unfold Rdiv. rewrite Rmult_assoc, Rinv_l by lra. lra. }
  apply (@partial_ends (points m) k); try assumption; lra.
Qed.

Lemma Line_trimmed_ends (a b : vec R) (bf : R) (pa : option R) :
  pa = None \/ pa = Some 0 ->
  0 < bf -> 2 * bf <= get_norm (vsub a b) ->
  exists l,
    Line a b bf pa = Ok l
    /\ VMobject_get_start (points l)
       = Ok (interpolate a b (bf / get_norm (vsub a b)))
    /\ VMobject_get_end (points l)
       = Ok (interpolate a b (1 - bf / get_norm (vsub a b)))
    /\ get_norm (vsub (interpolate a b (bf / get_norm (vsub a b))) a) = bf
    /\ get_norm (vsub b (interpolate a b (1 - bf / get_norm (vsub a b)))) = bf
    /\ get_length l = Ok (get_norm (vsub a b) - 2 * bf).
Proof.
  intros Hpa Hbf Hlen.
  set (d := get_norm (vsub a b)) in *.
  assert (Hd : 0 < d) by lra.
  assert (Hba : get_norm (vsub b a) = d) by (unfold d; apply get_norm_sym).
  assert (Hp : 0 < bf / d <= 1 / 2).
  { split; [apply Rdiv_lt_0_compat; lra|].
    apply (Rmult_le_reg_r d); [lra|].
    unfold Rdiv. rewrite Rmult_assoc, Rinv_l by lra. lra. }
  eexists. split; [apply Line_trimmed; assumption|]. fold d.
  destruct (straight_ends (Line_attrs a b bf pa)
              (interpolate a b (bf / d)) (interpolate a b (1 - bf / d)))
    as [Hs He].
  split; [exact Hs|]. split; [exact He|].
  split; [|split].
  - rewrite <- (interpolate_0 a b) at 2.
    rewrite norm_interpolate_diff by lra. rewrite Hba. field. lra.
  - rewrite <- (interpolate_1 a b) at 1.
    rewrite norm_interpolate_diff by lra. rewrite Hba. field. lra.
  - destruct (@straight_facts (Line_attrs a b bf pa)
                (interpolate a b (bf / d)) (interpolate a b (1 - bf / d))
                eq_refl eq_refl eq_refl) as (_ & Hse & _).
    unfold get_length. rewrite Hse. cbn [bind fst snd]. f_equal.
    rewrite get_norm_sym, norm_interpolate_diff by lra. rewrite Hba. field. lra.
Qed.

(** C4 (amended).  [account_for_buff] on a Line leaves the curve as it is
    when the buffer is 0, when the buffer is negative, and when the length
    it measures is strictly smaller than twice the buffer.  Otherwise, with
    0 < 2 buff <= length, equality included, it trims the proportion
    buff / length from each end: the path becomes the part of the old path
    between the proportions buff / length and 1 - buff / length, and starts
    and ends on the old path's points at these two proportions.  On a
    straight Line from a to b either end moves inward by the distance buff,
    and the length becomes |a - b| - 2 buff, zero at equality. *)
Theorem account_for_buff_cases :
  (forall m : @mob R, buff m = 0 -> account_for_buff m = Ok m)
  /\ (forall (m : @mob R) (len : R),
      measured_length m = Ok len ->
      len < 2 * buff m \/ buff m < 0 ->
      account_for_buff m = Ok m)
  /\ (forall (m : @mob R) (len : R) (k : nat),
      measured_length m = Ok len ->
      length (points m) = (4 * k)%nat -> (1 <= k)%nat ->
      0 < buff m -> 2 * buff m <= len ->
      exists m',
        account_for_buff m = Ok m'
        /\ points m'
           = pointwise_become_partial (points m)
               (buff m / len) (1 - buff m / len)
        /\ VMobject_get_start (points m')
           = Ok (point_from_proportion (points m) (buff m / len))
        /\ VMobject_get_end (points m')
           = Ok (point_from_proportion (points m) (1 - buff m / len)))
  /\ (forall (a b : vec R) (bf : R) (pa : option R),
      pa = None \/ pa = Some 0 ->
      0 < bf -> 2 * bf <= get_norm (vsub a b) ->
      exists l,
        Line a b bf pa = Ok l
        /\ VMobject_get_start (points l)
           = Ok (interpolate a b (bf / get_norm (vsub a b)))
        /\ VMobject_get_end (points l)
           = Ok (interpolate a b (1 - bf / get_norm (vsub a b)))
        /\ get_norm (vsub (interpolate a b (bf / get_norm (vsub a b))) a) = bf
        /\ get_norm (vsub b (interpolate a b (1 - bf / get_norm (vsub a b)))) = bf
        /\ get_length l = Ok (get_norm (vsub a b) - 2 * bf)).
Proof.
  split; [exact account_for_buff_zero|].
  split.
  { intros m len Hm [Hlt | Hneg].
    - apply (proj1 (account_for_buff_spec m Hm) Hlt).
    - apply (account_for_buff_negative m Hm Hneg). }
  split; [exact account_for_buff_trims | exact Line_trimmed_ends].
Qed.

Lemma account_for_buff_cases_witness :
  (exists l,
      Line (V 0 0) (V 4 0) 1 None = Ok l
      /\ VMobject_get_start (points l)
         = Ok (interpolate (V 0 0) (V 4 0) (1 / get_norm (vsub (V 0 0) (V 4 0))))
      /\ get_length l = Ok (get_norm (vsub (V 0 0) (V 4 0)) - 2 * 1))
  /\ account_for_buff (straight (Line_attrs (V 0 0) (V 4 0) (- 1) None) (V 0 0) (V 4 0))
     = Ok (straight (Line_attrs (V 0 0) (V 4 0) (- 1) None) (V 0 0) (V 4 0)).
Proof.
  destruct account_for_buff_cases as (_ & H2 & _ & H4).
  split.
  - destruct (H4 (V 0 0) (V 4 0) 1 None) as (l & A & B & _ & _ & _ & C).
    + left. reflexivity.
    + lra.
    + rewrite norm_04. lra.
    + exists l. split; [exact A|]. split; [exact B | exact C].
  - apply (H2 _ 4).
    + rewrite measured_length_straight by reflexivity. rewrite norm_04. reflexivity.
    + right. cbn [buff straight with_points Line_attrs]. lra.
Defined.

(** C4, as stated, fails in the two places where [account_for_buff] departs
    from "no-op when 2 buff >= length, otherwise trimmed by buff / length".
    On the boundary:
    the straight line from (0, 0) to (1, 0) with buffer 1/2 has 2 buff =
    length and is not left alone, both ends move to the midpoint.  With a
    negative buffer: the same line with buffer -1/4 has 2 buff < length and
    is not trimmed by the proportion -1/4, which would put its start on
    (-1/4, 0); it keeps its ends (0, 0) and (1, 0). *)
Lemma buff_boundary_trims_negative_buff_does_not :
  (measured_length
     (straight (Line_attrs (V 0 0) (V 1 0) (1 / 2) None) (V 0 0) (V 1 0)) = Ok 1
   /\ 2 * buff (Line_attrs (V 0 0) (V 1 0) (1 / 2) None) >= 1
   /\ exists l,
       Line (V 0 0) (V 1 0) (1 / 2) None = Ok l
       /\ VMobject_get_start (points l) = Ok (V (1 / 2) 0)
       /\ VMobject_get_end (points l) = Ok (V (1 / 2) 0))
  /\ (measured_length
        (straight (Line_attrs (V 0 0) (V 1 0) (- (1 / 4)) None) (V 0 0) (V 1 0))
      = Ok 1
      /\ buff (Line_attrs (V 0 0) (V 1 0) (- (1 / 4)) None) <> 0
      /\ 2 * buff (Line_attrs (V 0 0) (V 1 0) (- (1 / 4)) None) < 1
      /\ interpolate (V 0 0) (V 1 0) (- (1 / 4) / 1) = V (- (1 / 4)) 0
      /\ exists l,
          Line (V 0 0) (V 1 0) (- (1 / 4)) None = Ok l
          /\ VMobject_get_start (points l) = Ok (V 0 0)
          /\ VMobject_get_end (points l) = Ok (V 1 0)).
Proof.
  split.
  - destruct boundary_buff_collapses_line as (_ & Hm & Hb & l & _ & Hl & Hs & He & _).
    split; [exact Hm|]. split; [exact Hb|].
    exists l. split; [exact Hl|]. split; assumption.
  - set (l0 := straight (Line_attrs (V 0 0) (V 1 0) (- (1 / 4)) None) (V 0 0) (V 1 0)).
    assert (Hm : measured_length l0 = Ok 1).
    { unfold l0. rewrite measured_length_straight by reflexivity.
      rewrite norm_01. reflexivity. }
    split; [exact Hm|].
    split; [cbn [buff Line_attrs]; lra|].
    split; [cbn [buff Line_attrs]; lra|].
    split; [veq; field|].
    exists l0. split; [|apply straight_ends].
    unfold Line, Line_generate_points.
    cbn [truthy path_arc Line_attrs bind]. fold l0.
    apply (account_for_buff_negative l0 Hm).
    cbn [buff l0 straight with_points Line_attrs]. lra.
Qed.

End Trimming.

(** ** An Arrow with a tip at its start only *)

Section StartTippedArrow.
Local Open Scope R_scope.
Local Abbreviation mobR := (@mob R).
Implicit Types m : mobR.

Lemma vec_eq_dec (p q : vec R) : {p = q} + {p <> q}.
Proof.
  destruct p as [px py], q as [qx qy].
  destruct (Req_dec_T px qx) as [-> | Hx]; [|right; intro H; injection H; auto].
  destruct (Req_dec_T py qy) as [-> | Hy]; [left; reflexivity|].
  right; intro H; injection H; auto.
Qed.

Lemma detach_start_only (m : @mob R) (t : nat) :
  has_tip m = false -> has_start_tip m = true -> start_tip m = Some t ->
  snd (detach m) = [t].
Proof.
  intros HT HS Et. unfold detach. rewrite HT, HS, Et. reflexivity.
Qed.

Lemma get_first_handle_map (g : vec R -> vec R) (m m' : @mob R) h :
  points m' = map g (points m) -> get_first_handle m = Ok h ->
  get_first_handle m' = Ok (g h).
Proof.
  unfold get_first_handle. intros -> H.
  destruct (points m) as [|a [|b l]]; try discriminate.
  injection H as <-. reflexivity.
Qed.

Lemma add_tip_zero_length_attaches n (m : @mob R) tl (at_start : bool)
    (p handle : vec R) (L : R) :
  get_start_and_end m = Ok (p, p) ->
  handle_of m at_start = Ok handle -> resolve_tip_length m tl = Ok L ->
  exists tp, add_tip (S n) m tl at_start = Ok (attach m tp at_start).
Proof.
  intros Hse Hh HL.
  destruct (get_start_and_end_inv _ Hse) as [Hs He].
  assert (Ha : anchor_of m at_start = Ok p)
    by (unfold anchor_of; destruct at_start; assumption).
  destruct (create_tip_spec m tl at_start Ha Hh HL) as (tp & Hc & _).
  exists tp. rewrite add_tip_S, Hc. cbn [bind].
  unfold get_length. rewrite Hse. cbn [bind fst snd].
  replace (vsub p p) with (ORIGIN : vec R)
    by (apply vec_eq; cbn [vx vy vsub ORIGIN]; unsc; ring).
  rewrite get_norm_ORIGIN. unsc. rewrite Reqb_true by reflexivity. reflexivity.
Qed.

(** [Arrow.scale] on an Arrow that carries a tip at its start and none at
    its end: the tips are popped into a group of one, and the start tip is
    looked up at position 1 of that group. *)
Lemma Arrow_start_tip_scale_raises n (m : @mob R) (k : R) (a : option (vec R))
    (s e bs be : vec R) (t : nat) :
  wf m -> cls m = KArrow ->
  has_tip m = false -> start_tip m = Some t -> In t (submobjects m) ->
  get_start_and_end m = Ok (s, e) -> s <> e ->
  VMobject_get_start (points m) = Ok bs -> VMobject_get_end (points m) = Ok be ->
  bs <> be ->
  scale (S (S (S (S n)))) m k a = Raise IndexError.
Proof.
  intros Hw Hc HT Ht Hin Hse Hne Hbs Hbe Hbne.
  assert (HS : has_start_tip m = true) by (apply has_start_tip_true; eauto).
  rewrite scale_S, Hc. unfold get_length at 1. rewrite Hse. cbn [bind fst snd].
  rewrite (norm_nonzero Hne). rewrite HT, HS. cbn [orb].
  destruct (@pop_tips_spec n m s e bs be Hw Hse Hbs Hbe Hbne)
    as (m0 & Hpop & Hse0 & Hs0 & He0 & HT0 & HS0 & K0 & C0 & M0).
  rewrite Hpop, (detach_start_only m HT HS Ht). cbn [bind].
  assert (Hw0 : wf m0) by (eapply wf_keeps; [apply wf_detach; exact Hw | exact K0]).
  set (c := about_or_center m0 a).
  set (g := fun p => vadd (vscale k (vsub p c)) c).
  assert (M1 : moved g m0 (Mobject_scale m0 k a))
    by (apply moved_apf; apply Hw0).
  assert (K1 : keeps m0 (Mobject_scale m0 k a)) by (apply keeps_apf; apply Hw0).
  pose proof (moved_get_start_and_end K1 M1 Hse0) as Hse1.
  unfold set_stroke_width_from_length at 1. unfold get_length at 1.
  rewrite Hse1. cbn [bind fst snd].
  match goal with |- context [with_stroke_width ?x ?w] =>
    set (m1 := with_stroke_width x w) end.
  assert (K1' : keeps m0 m1).
  { eapply keeps_trans; [exact K1|]. apply keeps_with_stroke_width. apply K1. }
  assert (Hw1 : wf m1) by (eapply wf_keeps; eassumption).
  assert (HT1 : has_tip m1 = false) by (rewrite (has_tip_keeps K1'); exact HT0).
  assert (HS1 : has_start_tip m1 = false)
    by (rewrite (has_start_tip_keeps K1'); exact HS0).
  assert (Hse1' : get_start_and_end m1 = Ok (g s, g e)) by exact Hse1.
  destruct (@handle_exists m0 true s e Hs0 He0 Hne) as (h0 & Hh0).
  assert (Hh1 : handle_of m1 true = Ok (g h0)).
  { cbn [handle_of] in *. eapply get_first_handle_map; [|exact Hh0]. apply M1. }
  destruct (@resolve_tip_length_ok m1 None (g s) (g e) Hse1') as (L & HL).
  assert (Hadd : exists m2, add_tip (S (S (S n))) m1 None true = Ok m2).
  { destruct (vec_eq_dec (g s) (g e)) as [Eq | Hgne].
    - rewrite <- Eq in Hse1'.
      destruct (@add_tip_zero_length_attaches (S (S n)) m1 None true (g s) (g h0) L
                  Hse1' Hh1 HL) as (tp & H).
      eexists. exact H.
    - destruct (@add_tip_spec n m1 None true (g s) (g e) (g h0) L Hw1
                  (or_intror (conj HT1 HS1)) Hse1' Hgne Hh1 HL)
        as (tp & m' & _ & _ & _ & _ & _ & _ & H & _).
      eexists. exact H. }
  destruct Hadd as (m2 & Hadd). rewrite Hadd. cbn [bind]. reflexivity.
Qed.

Lemma Arrow_start_tip_puts_raises n (m : @mob R) (s' e' s e bs be : vec R)
    (t : nat) :
  wf m -> cls m = KArrow ->
  has_tip m = false -> start_tip m = Some t -> In t (submobjects m) ->
  get_start_and_end m = Ok (s, e) -> s <> e ->
  VMobject_get_start (points m) = Ok bs -> VMobject_get_end (points m) = Ok be ->
  bs <> be ->
  put_start_and_end_on (S (S (S (S (S n))))) m s' e' = Raise IndexError.
Proof.
  intros Hw Hc HT Ht Hin Hse Hne Hbs Hbe Hbne.
  rewrite put_start_and_end_on_S, Hc, Hse. cbn [bind fst snd].
  rewrite (proj2 (veqb_neq _ _) Hne). cbn [bind].
  unfold Mobject_put_start_and_end_on. rewrite Hse. cbn [bind fst snd].
  assert (Hv : vsub e s <> ORIGIN).
  { intro X. apply Hne. symmetry. apply vsub_eq_ORIGIN. exact X. }
  rewrite (proj2 (veqb_neq _ _) Hv).
  rewrite (@Arrow_start_tip_scale_raises n m _ (Some s) s e bs be t); auto.
Qed.

Lemma Arrow_start_tip_add_tip_raises n (m : @mob R) tl (at_start : bool)
    (s e bs be : vec R) (t : nat) :
  wf m -> cls m = KArrow ->
  has_tip m = false -> start_tip m = Some t -> In t (submobjects m) ->
  get_start_and_end m = Ok (s, e) -> s <> e ->
  VMobject_get_start (points m) = Ok bs -> VMobject_get_end (points m) = Ok be ->
  bs <> be ->
  add_tip (S (S (S (S (S (S n)))))) m tl at_start = Raise IndexError.
Proof.
  intros Hw Hc HT Ht Hin Hse Hne Hbs Hbe Hbne.
  destruct (get_start_and_end_inv _ Hse) as [Hs He].
  assert (Ha : anchor_of m at_start = Ok (if at_start then s else e))
    by (destruct at_start; assumption).
  destruct (@handle_exists m at_start bs be Hbs Hbe Hbne) as (h & Hh).
  destruct (@resolve_tip_length_ok m tl s e Hse) as (L & HL).
  destruct (create_tip_spec m tl at_start Ha Hh HL) as (tp & Hcr & _).
  rewrite add_tip_S, Hcr. cbn [bind].
  unfold get_length. rewrite Hse. cbn [bind fst snd].
  rewrite (norm_nonzero Hne).
  destruct at_start.
  - rewrite He. cbn [bind].
    rewrite (@Arrow_start_tip_puts_raises n m _ _ s e bs be t); auto.
  - rewrite Hs. cbn [bind].
    rewrite (@Arrow_start_tip_puts_raises n m _ _ s e bs be t); auto.
Qed.

Lemma similarity_corners (a c s t p q : vec R) :
  c <> ORIGIN ->
  map (similarity a c s t) (set_points_as_corners [p; q])
  = set_points_as_corners [similarity a c s t p; similarity a c s t q].
Proof.
  intro Hc. pose proof (get_norm_pos Hc) as Hcp.
  pose proof (get_norm_sqr c) as Hcs.
  assert (Hn : vx c * vx c + vy c * vy c <> 0) by nra.
  rewrite !corners_two. cbn [map].
  f_equal. f_equal; [|f_equal].
  - unfold similarity, cmul, cdiv, interpolate, vadd, vsub, vscale. unsc.
    cbn [vx vy]. apply vec_eq; cbn [vx vy]; field; exact Hn.
  - unfold similarity, cmul, cdiv, interpolate, vadd, vsub, vscale. unsc.
    cbn [vx vy]. apply vec_eq; cbn [vx vy]; field; exact Hn.
Qed.

Lemma corners_first_handle (m : @mob R) (p q : vec R) :
  points m = set_points_as_corners [p; q] ->
  get_first_handle m = Ok (interpolate p q (1 / 3))
  /\ VMobject_get_start (points m) = Ok p
  /\ VMobject_get_end (points m) = Ok q.
Proof.
  intro H. unfold get_first_handle. rewrite H, corners_two.
  repeat split; reflexivity.
Qed.

Lemma third_off_start (p q : vec R) : p <> q -> interpolate p q (1 / 3) <> p.
Proof.
  intros Hne X. apply Hne.
  pose proof (f_equal (@vx R) X) as Xx. pose proof (f_equal (@vy R) X) as Xy.
  unfold interpolate, vadd, vscale in Xx, Xy. cbn [vx vy] in Xx, Xy. unsc.
  apply vec_eq; lra.
Qed.

(** The body of a straight Arrow after its first tip: still a straight path
    from the start, now as far as the base of the tip. *)
Lemma Arrow_first_tip_body n (m : @mob R) (a b : vec R) :
  cls m = KArrow -> submobjects m = [] -> tip m = None -> start_tip m = None ->
  a <> b ->
  exists M be,
    (m1 <- add_tip (S (S (S n))) (straight m a b) None false ;;
     set_stroke_width_from_length m1) = Ok M
    /\ points M = set_points_as_corners [a; be].
Proof.
  intros Hc Hsub Ht Hst Hne.
  destruct (@straight_facts m a b Hsub Ht Hst)
    as (Hw & Hse & Hbs & Hbe & Hlh & _ & HT & HS).
  set (l := straight m a b) in *.
  destruct (@resolve_tip_length_ok l None a b Hse) as (L & HL).
  destruct (@add_tip_spec n l None false a b _ L Hw (or_intror (conj HT HS))
              Hse Hne Hlh HL)
    as (tp & m' & _ & _ & _ & _ & _ & _ & Hadd & K & C & M & Hse1).
  rewrite Hadd. cbn [bind].
  unfold set_stroke_width_from_length, get_length. rewrite Hse1. cbn [bind fst snd].
  eexists. exists (similarity a (vsub b a) a (vsub (ArrowTip_get_base tp) a) b).
  split; [reflexivity|].
  destruct M as [Mp _]. cbv iota in Mp.
  change (points m' = set_points_as_corners
                        [a; similarity a (vsub b a) a (vsub (ArrowTip_get_base tp) a) b]).
  rewrite Mp. unfold l, straight. cbn [points with_points].
  rewrite similarity_corners.
  - rewrite similarity_start. reflexivity.
  - intro X. apply Hne. symmetry. apply vsub_eq_ORIGIN. exact X.
Qed.

Lemma detach_end_only (m : @mob R) (t : nat) :
  has_tip m = true -> tip m = Some t -> start_tip m = None ->
  snd (detach m) = [t].
Proof.
  intros HT Et Es. unfold detach. rewrite HT, Et.
  cbn [remove_attr]. unfold has_start_tip.
  change (start_tip (remove m t)) with (start_tip m). rewrite Es. reflexivity.
Qed.

(** A straight Arrow whose tip is popped and which is then given a tip at
    its start: the object that results carries a start tip only, still runs
    from a to b, and neither takes a further tip nor can be scaled. *)
Lemma Arrow_start_tipped n (m : @mob R) (a b : vec R) :
  cls m = KArrow -> submobjects m = [] -> tip m = None -> start_tip m = None ->
  a <> b -> 0 < tip_length m ->
  0 < max_tip_length_to_length_ratio m < 1 ->
  exists M M1 M2 t0,
    (m1 <- add_tip (S (S (S n))) (straight m a b) None false ;;
     set_stroke_width_from_length m1) = Ok M
    /\ pop_tips (S (S (S n))) M = Ok (M1, [t0])
    /\ add_tip (S (S (S n))) M1 None true = Ok M2
    /\ cls M2 = KArrow
    /\ has_start_tip M2 = true /\ has_tip M2 = false
    /\ get_start_and_end M2 = Ok (a, b)
    /\ (forall n' tl at_start,
           add_tip (S (S (S (S (S (S n')))))) M2 tl at_start = Raise IndexError)
    /\ (forall n' k c,
           scale (S (S (S (S n')))) M2 k c = Raise IndexError).
Proof.
  intros Hc Hsub Ht Hst Hne Htl Hra.
  destruct (@Arrow_first_tip n m a b Hc Hsub Ht Hst Hne Htl Hra)
    as (M & t & be & HM & HwM & HcM & HtM & HinM & HstM & HseM & HbsM & HbeM
        & Hnbe & _ & HtlM & HraM).
  destruct (@Arrow_first_tip_body n m a b Hc Hsub Ht Hst Hne)
    as (M' & be' & HM' & Pts).
  assert (M' = M) by congruence. subst M'.
  assert (be' = be).
  { destruct (corners_first_handle M Pts) as (_ & _ & E). congruence. }
  subst be'.
  assert (HTM : has_tip M = true) by (apply has_tip_true; eauto).
  destruct (@pop_tips_spec n M a b a be HwM HseM HbsM HbeM Hnbe)
    as (M1 & Hpop & Hse1 & Hs1 & He1 & HT1 & HS1 & K1 & C1 & Mv1).
  rewrite (detach_end_only M HTM HtM HstM) in Hpop.
  assert (Hw1 : wf M1) by (eapply wf_keeps; [apply wf_detach; exact HwM | exact K1]).
  destruct (detach_spec M (proj1 HwM)) as (d1 & d2 & d3 & _).
  destruct (detach_points M) as [dp _].
  assert (Hc1 : cls M1 = KArrow).
  { destruct K1 as (k1 & _). rewrite k1, d1. exact HcM. }
  assert (Hv : vsub be a <> ORIGIN).
  { intro X. apply Hnbe. symmetry. apply vsub_eq_ORIGIN. exact X. }
  assert (Hvb : vsub b a <> ORIGIN).
  { intro X. apply Hne. symmetry. apply vsub_eq_ORIGIN. exact X. }
  assert (P1 : points M1 = set_points_as_corners [a; b]).
  { destruct Mv1 as [Mp _]. rewrite Mp, dp, Pts.
    rewrite similarity_corners by exact Hv.
    rewrite similarity_start, similarity_end by exact Hnbe. reflexivity. }
  destruct (corners_first_handle M1 P1) as (Hh1 & _ & _).
  set (d := get_norm (vsub a b)) in *.
  assert (Hd : 0 < d).
  { apply get_norm_pos. intro X. apply Hne. apply vsub_eq_ORIGIN. exact X. }
  set (L := Rmin (tip_length m) (max_tip_length_to_length_ratio m * d)).
  assert (HL : resolve_tip_length M1 None = Ok L).
  { cbn [resolve_tip_length].
    rewrite (@get_default_tip_length_Arrow M1 d Hc1).
    - destruct C1 as (c1 & _ & _ & _ & _ & _ & _ & _ & _ & _ & c11 & _).
      rewrite c1, c11, HtlM, HraM. reflexivity.
    - unfold get_length. rewrite Hse1. reflexivity. }
  assert (HLpos : 0 < L).
  { unfold L. apply Rmin_glb_lt; [exact Htl|]. apply Rmult_lt_0_compat; lra. }
  assert (HLlt : L < d).
  { unfold L. eapply Rle_lt_trans; [apply Rmin_r|]. nra. }
  destruct (@add_tip_spec n M1 None true a b _ L Hw1 (or_intror (conj HT1 HS1))
              Hse1 Hne Hh1 HL)
    as (tp & m' & _ & _ & _ & _ & Hbase & _ & Hadd & K' & _ & Mv & Hse2).
  cbv iota in Hbase, Mv.
  pose proof (Hbase HLpos (third_off_start Hne)) as Hb. clear Hbase.
  set (base := ArrowTip_get_base tp) in *.
  assert (Hnb : get_norm (vsub base a) = L).
  { rewrite Hb.
    replace (vsub (vadd a (vscale (L / get_norm (vsub (interpolate a b (1 / 3)) a))
                             (vsub (interpolate a b (1 / 3)) a))) a)
      with (vscale (L / get_norm (vsub (interpolate a b (1 / 3)) a))
              (vsub (interpolate a b (1 / 3)) a))
      by (apply vec_eq; cbn [vx vy vadd vsub vscale]; unsc; ring).
    assert (Hh : vsub (interpolate a b (1 / 3)) a <> ORIGIN).
    { intro X. apply (third_off_start Hne). apply vsub_eq_ORIGIN. exact X. }
    pose proof (get_norm_pos Hh) as Hhp.
    rewrite get_norm_vscale.
    - field. lra.
    - apply Rlt_le. apply Rdiv_lt_0_compat; assumption. }
  assert (Hbne : base <> b).
  { intro X. rewrite X, get_norm_sym in Hnb. fold d in Hnb. lra. }
  pose proof (wf_keeps Hw1 K') as Hw'.
  destruct (attach_start tp Hw') as (A1 & A2 & A3 & _ & _ & A6 & _ & A8).
  exists M, M1, (attach m' tp true), t.
  split; [exact HM|]. split; [exact Hpop|]. split; [exact Hadd|].
  assert (Hc2 : cls (attach m' tp true) = KArrow).
  { rewrite A8. destruct K' as (k1 & _). rewrite k1. exact Hc1. }
  assert (HT2 : has_tip (attach m' tp true) = false).
  { unfold has_tip. rewrite A2.
    destruct Hw' as (w1 & w2 & w3 & w4).
    destruct (@attach_other_child _ m' tp true (tip m')
                (conj w1 (conj w2 (conj w3 w4))) w3) as [E1 _].
    rewrite E1. fold (has_tip m'). rewrite (has_tip_keeps K'). exact HT1. }
  assert (Hw2 : wf (attach m' tp true)).
  { eapply added_wf; [exact Hw1|].
    apply (proj2 (proj2 (proj2 (protocol_inv (S (S (S n)))))) _ _ _ _ Hw1 Hadd). }
  assert (P2 : points (attach m' tp true) = set_points_as_corners [base; b]).
  { rewrite A6. destruct Mv as [Mp _]. rewrite Mp, P1.
    rewrite similarity_corners by exact Hvb.
    rewrite similarity_start, similarity_end by exact Hne. reflexivity. }
  destruct (corners_first_handle _ P2) as (_ & Hbs2 & Hbe2).
  pose proof A3 as A3'. apply has_start_tip_true in A3'.
  destruct A3' as (t2 & Et2 & Hin2).
  split; [exact Hc2|]. split; [exact A3|]. split; [exact HT2|].
  split; [exact Hse2|]. split.
  - intros n' tl at_start.
    apply (@Arrow_start_tip_add_tip_raises n' _ tl at_start a b base b t2); auto.
  - intros n' k c.
    apply (@Arrow_start_tip_scale_raises n' _ k c a b base b t2); auto.
Qed.

Lemma start_tipped_example :
  exists M M1 M2 t0,
    Arrow 3 (V 0 0) (V 4 0) 0 None (35 / 100) 6 (1 / 4) 5 = Ok M
    /\ pop_tips 3 M = Ok (M1, [t0])
    /\ add_tip 3 M1 None true = Ok M2
    /\ cls M2 = KArrow
    /\ has_start_tip M2 = true /\ has_tip M2 = false
    /\ get_start_and_end M2 = Ok (V 0 0, V 4 0)
    /\ (forall n' tl at_start,
           add_tip (S (S (S (S (S (S n')))))) M2 tl at_start = Raise IndexError)
    /\ (forall n' k c,
           scale (S (S (S (S n')))) M2 k c = Raise IndexError).
Proof.
  unfold Arrow. cbv zeta.
  set (m := Arrow_attrs (V 0 0) (V 4 0) 0 None (35 / 100) 6 (1 / 4) 5).
  rewrite (@Line_generate_points_unbuffered m (or_introl eq_refl) eq_refl).
  cbn [bind].
  change (start m) with (V 0 0 : vec R). change (end_ m) with (V 4 0 : vec R).
  apply (@Arrow_start_tipped 0 m (V 0 0) (V 4 0)); try reflexivity.
  - intro X. injection X. lra.
  - cbn [tip_length m Arrow_attrs]. lra.
  - cbn [max_tip_length_to_length_ratio m Arrow_attrs]. lra.
Qed.

(** C2, at the input where the code departs from it.  An Arrow from (0, 0)
    to (4, 0) whose tip is popped and which is given a tip at its start
    instead is a curve of length 4 with a start tip only.  [add_tip] on it,
    at either end and with any tip length, does not attach a tip, so that no
    round trip with [pop_tips] takes place: it raises IndexError, however
    deep the calls may nest.  The repositioning of the end points goes
    through [Arrow.scale], which pops the one tip into a group and reads the
    start tip at position 1. *)
Theorem add_tip_on_start_tipped_Arrow_raises :
  exists M M1 M2 t0,
    Arrow 3 (V 0 0) (V 4 0) 0 None (35 / 100) 6 (1 / 4) 5 = Ok M
    /\ pop_tips 3 M = Ok (M1, [t0])
    /\ add_tip 3 M1 None true = Ok M2
    /\ has_start_tip M2 = true /\ has_tip M2 = false
    /\ get_start_and_end M2 = Ok (V 0 0, V 4 0)
    /\ get_length M2 = Ok 4
    /\ add_tip 6 M2 None false = Raise IndexError
    /\ (forall n tl at_start,
           add_tip (S (S (S (S (S (S n)))))) M2 tl at_start = Raise IndexError).
Proof.
  destruct start_tipped_example
    as (M & M1 & M2 & t0 & H1 & H2 & H3 & _ & H5 & H6 & H7 & H8 & _).
  exists M, M1, M2, t0.
  split; [exact H1|]. split; [exact H2|]. split; [exact H3|].
  split; [exact H5|]. split; [exact H6|]. split; [exact H7|].
  split; [|split; [apply H8 | exact H8]].
  unfold get_length. rewrite H7. cbn [bind fst snd]. rewrite norm_04. reflexivity.
Qed.

(** C3, at the input where the code departs from it.  The same Arrow, with
    a tip at its start only, cannot be scaled: for every factor and every
    centre [Arrow.scale] raises IndexError when it recreates the tips, so no
    tip of any length results.  With the factor 2 the capped tip length, a
    quarter of the new length 8, lies above the configured 0.35, the length
    the recreated tip should have. *)
Theorem scale_of_start_tipped_Arrow_raises :
  exists M M1 M2 t0,
    Arrow 3 (V 0 0) (V 4 0) 0 None (35 / 100) 6 (1 / 4) 5 = Ok M
    /\ pop_tips 3 M = Ok (M1, [t0])
    /\ add_tip 3 M1 None true = Ok M2
    /\ cls M2 = KArrow /\ has_start_tip M2 = true
    /\ get_length M2 = Ok 4
    /\ tip_length M = 35 / 100
    /\ 35 / 100 < max_tip_length_to_length_ratio M * (2 * 4)
    /\ scale 4 M2 2 None = Raise IndexError
    /\ (forall n k c, scale (S (S (S (S n)))) M2 k c = Raise IndexError).
Proof.
  destruct start_tipped_example
    as (M & M1 & M2 & t0 & H1 & H2 & H3 & H4 & H5 & _ & H7 & _ & H9).
  exists M, M1, M2, t0.
  split; [exact H1|]. split; [exact H2|]. split; [exact H3|].
  split; [exact H4|]. split; [exact H5|].
  split.
  { unfold get_length. rewrite H7. cbn [bind fst snd]. rewrite norm_04. reflexivity. }
  destruct (@Arrow_constructed 0 (V 0 0) (V 4 0) 0 None (35 / 100) 6 (1 / 4) 5)
    as (M' & _ & _ & _ & _ & HM' & _ & _ & _ & _ & _ & _ & _ & _ & _ & _ & _ & _
        & Htl & Hra).
  - left. reflexivity.
  - lra.
  - rewrite norm_04. lra.
  - lra.
  - lra.
  - assert (M' = M) by congruence. subst M'.
    split; [exact Htl|]. split; [rewrite Hra; lra|].
    split; [apply H9 | exact H9].
Qed.

End StartTippedArrow.

(** ** get_length against get_arc_length *)

Section ChordAndArcLength.
Local Open Scope R_scope.
Local Abbreviation mobR := (@mob R).
Implicit Types m : mobR.


























































End ChordAndArcLength.

(** ** Runs on IEEE binary64

    The trigonometric functions are those of the platform's libm: the runs
    below hold whatever they return. *)

Section Float64Runs.
Context {TF : Trig float}.

(** C9.  [Line((0,0),(4,0))] followed by [set_length(2)] has its endpoints
    exactly at (1,0) and (3,0), on binary64 and at any stack depth that
    allows the call. *)
Theorem C9_set_length_example :
  forall n : nat,
    endpoints (m <- Line (V 0 0) (V 4 0) 0 None ;; set_length (S n) m 2)%float
    = Ok (V 1 0, V 3 0)%float.
Proof.
  intro n. vm_compute. reflexivity.
Qed.

(** C7.  [set_length] on a Line of length zero is not guarded: the call
    returns normally and every coordinate of the path is NaN. *)
Theorem C7_set_length_zero_length_nan :
  forall n : nat,
    exists m : @mob float,
      (l <- Line (V 0 0) (V 0 0) 0 None ;; set_length (S n) l 2)%float = Ok m
      /\ points m <> [] /\ all_nan (points m) = true.
Proof.
  intro n. eexists. split; [vm_compute; reflexivity|].
  split; [discriminate | vm_compute; reflexivity].
Qed.

(** The boundary of [account_for_buff] on binary64.  A Line from (0,0) to
    (2,0) built with [buff = 1] has [2 * buff = length]; it is not left
    alone but collapses onto its midpoint. *)
Lemma boundary_buff_collapses_binary64 :
  endpoints (Line (V 0 0) (V 2 0) 1 None)%float = Ok (V 1 0, V 1 0)%float
  /\ endpoints (Line (V 0 0) (V 2 0) 0 None)%float = Ok (V 0 0, V 2 0)%float.
Proof.
  split; vm_compute; reflexivity.
Qed.

End Float64Runs.
